(** * PaperChartBackend: the streaming decoder of [services/aiService.js]

    A shallow embedding of [AIService]: the brace scanner of
    [processStreamBuffer], [JSON.parse], [extractContentFromJSON],
    [tryParseCompleteJSON], the generic walk of [processCompleteResponse],
    the [data] and [end] handlers of [streamGenerateContent] and the
    calls of [handleImageData] that nobody awaits; then the properties of
    the decoder that the specification states.

    JavaScript strings are sequences of UTF-16 code units; a code unit is
    an [N].  A chunk of the stream is a buffer of bytes; the [data]
    handler of the session takes the string [chunk.toString()] returns,
    which [Utf8.toString] computes from the bytes.  The recursive
    conversions and walks are taken to find the call stack they need:
    the statements that depend on it bound the nesting of the value.
    Numbers
    are IEEE-754 doubles, kept exactly as a sign, a mantissa and a binary
    exponent, so that truthiness, comparison and printing are computed
    with integer arithmetic only.  Exceptions are values of a completion
    type.  What the service cannot decide stays with the environment:
    the keys [uuidv4] makes, whether [cacheService.saveImage] succeeds,
    and the turn of the event loop at which a pending call ends.  The
    events handed to [onChunk] are kept without their timestamps. *)

From Stdlib Require Import List ZArith NArith Bool Lia String Ascii Arith Permutation.
Import ListNotations.

Set Implicit Arguments.
Set Warnings "-register-all".

(** ** JavaScript strings *)

Module JsString.

Definition code_unit := N.
Definition jsstring := list code_unit.

(** Literals: a Rocq string read as code units, where an apostrophe
    stands for the double quote (code unit 34). *)
Definition unit_of_ascii (a : ascii) : code_unit :=
  let n := N_of_ascii a in if N.eqb n 39 then 34%N else n.

Definition lit (s : string) : jsstring :=
  List.map unit_of_ascii (list_ascii_of_string s).

Fixpoint eqb (a b : jsstring) : bool :=
  match a, b with
  | [], [] => true
  | x :: a', y :: b' => N.eqb x y && eqb a' b'
  | _, _ => false
  end.

(** [String.prototype.indexOf(ch)] for a one-unit needle; [None] is -1. *)
Fixpoint indexOf (c : code_unit) (s : jsstring) : option nat :=
  match s with
  | [] => None
  | x :: s' =>
      if N.eqb x c then Some 0
      else match indexOf c s' with Some i => Some (S i) | None => None end
  end.

(** [String.prototype.lastIndexOf(ch)]. *)
Fixpoint lastIndexOf (c : code_unit) (s : jsstring) : option nat :=
  match s with
  | [] => None
  | x :: s' =>
      match lastIndexOf c s' with
      | Some i => Some (S i)
      | None => if N.eqb x c then Some 0 else None
      end
  end.

(** [s.substring(i, j)] for [i <= j]; [s.substring(i)] is [skipn i s]. *)
Definition substring (i j : nat) (s : jsstring) : jsstring :=
  firstn (j - i) (skipn i s).

(** WhiteSpace and LineTerminator code units, the set [trim] strips. *)
Definition is_space (c : code_unit) : bool :=
  ((9 <=? c) && (c <=? 13) || (c =? 32) || (c =? 160) || (c =? 5760)
   || ((8192 <=? c) && (c <=? 8202)) || (c =? 8232) || (c =? 8233)
   || (c =? 8239) || (c =? 8287) || (c =? 12288) || (c =? 65279))%N.

Fixpoint trimStart (s : jsstring) : jsstring :=
  match s with
  | c :: s' => if is_space c then trimStart s' else s
  | [] => []
  end.

Definition trimEnd (s : jsstring) : jsstring := rev (trimStart (rev s)).

Definition trim (s : jsstring) : jsstring := trimEnd (trimStart s).

(** [s.startsWith(p)]. *)
Fixpoint startsWith (p s : jsstring) : bool :=
  match p, s with
  | [], _ => true
  | x :: p', y :: s' => N.eqb x y && startsWith p' s'
  | _ :: _, [] => false
  end.

(** The iteration of a string by [for ... of]: one string per code
    point, a surrogate pair staying together. *)
Definition is_high (c : code_unit) : bool := ((55296 <=? c) && (c <=? 56319))%N.
Definition is_low (c : code_unit) : bool := ((56320 <=? c) && (c <=? 57343))%N.

Fixpoint code_points (s : jsstring) : list jsstring :=
  match s with
  | [] => []
  | c :: s' =>
      match s' with
      | d :: s'' =>
          if is_high c && is_low d
          then [c; d] :: match code_points s' with _ :: r => r | [] => [] end
          else [c] :: code_points s'
      | [] => [[c]]
      end
  end.

(** Decimal digits of a natural number, most significant first. *)
Fixpoint digits_fuel (fuel : nat) (n : N) (acc : jsstring) : jsstring :=
  match fuel with
  | O => acc
  | S f =>
      let acc' := (48 + n mod 10)%N :: acc in
      if (n / 10 =? 0)%N then acc' else digits_fuel f (n / 10)%N acc'
  end.

Definition digits (n : N) : jsstring :=
  digits_fuel (S (N.to_nat (N.log2 n))) n [].

End JsString.
Import JsString.

(** ** Buffers and [Buffer.prototype.toString]

    A chunk of the response stream is a [Buffer]; [chunk.toString()]
    decodes its bytes as UTF-8, alone, whatever the chunks before and
    after it hold.  An ill-formed sequence decodes to U+FFFD, one for
    each maximal part of it that starts a well-formed sequence, and so
    does a sequence the end of the buffer cuts short. *)

Module Utf8.

Local Open Scope N_scope.

(** A sequence that has started: the code point so far, the number of
    continuation bytes still to come, and the range the next one must
    lie in. *)
Record pending := {
  code_point : N;
  needed : nat;
  lower : N;
  upper : N
}.

Definition replacement : code_unit := 65533.

(** The code units of a code point: itself, or a surrogate pair. *)
Definition units (cp : N) : jsstring :=
  if cp <? 65536 then [cp]
  else [55296 + (cp - 65536) / 1024; 56320 + (cp - 65536) mod 1024].

(** A byte met while no sequence is pending: what it emits and the
    sequence it starts. *)
Definition lead (b : N) : jsstring * option pending :=
  if b <=? 127 then ([b], None)
  else if (194 <=? b) && (b <=? 223) then
    ([], Some {| code_point := N.land b 31; needed := 1; lower := 128; upper := 191 |})
  else if (224 <=? b) && (b <=? 239) then
    ([], Some {| code_point := N.land b 15; needed := 2;
                 lower := if b =? 224 then 160 else 128;
                 upper := if b =? 237 then 159 else 191 |})
  else if (240 <=? b) && (b <=? 244) then
    ([], Some {| code_point := N.land b 7; needed := 3;
                 lower := if b =? 240 then 144 else 128;
                 upper := if b =? 244 then 143 else 191 |})
  else ([replacement], None).

(** One byte.  A byte that cannot continue the pending sequence ends it
    with U+FFFD and is then read as a first byte. *)
Definition step (st : option pending) (b : N) : jsstring * option pending :=
  match st with
  | None => lead b
  | Some p =>
      if (lower p <=? b) && (b <=? upper p) then
        let cp := N.lor (N.shiftl (code_point p) 6) (N.land b 63) in
        match needed p with
        | S (S n) =>
            ([], Some {| code_point := cp; needed := S n; lower := 128; upper := 191 |})
        | _ => (units cp, None)
        end
      else
        let (out, st') := lead b in (replacement :: out, st')
  end.

Fixpoint run (st : option pending) (bs : list Byte.byte) : jsstring * option pending :=
  match bs with
  | [] => ([], st)
  | b :: bs' =>
      let (out, st') := step st (Byte.to_N b) in
      let (out', st'') := run st' bs' in
      (out ++ out', st'')
  end.

(** The end of the buffer. *)
Definition flush (st : option pending) : jsstring :=
  match st with
  | None => []
  | Some _ => [replacement]
  end.

(** [buf.toString()] *)
Definition toString (buf : list Byte.byte) : jsstring :=
  let (out, st) := run None buf in out ++ flush st.

End Utf8.

(** ** Numbers: IEEE-754 binary64 with exact integer arithmetic *)

Module Float64.

(** A finite double is [(-1)^neg * m * 2^e] with [m < 2^53],
    [-1074 <= e <= 971], and [2^52 <= m] unless [e = -1074]. *)
Inductive float64 :=
| Finite (neg : bool) (m : N) (e : Z)
| Infinite (neg : bool)
| NaN.

Definition zero (neg : bool) : float64 := Finite neg 0 (-1074).

Local Open Scope Z_scope.

(** floor (log2 (p / q)) for positive [p], [q]. *)
Definition ilog2_ratio (p q : Z) : Z :=
  let k := Z.log2 p - Z.log2 q in
  let ge := if 0 <=? k then q * 2 ^ k <=? p else q <=? p * 2 ^ (- k) in
  if ge then k else k - 1.

(** Round the positive rational [p / q] to the nearest double, ties to
    even (the rounding of every numeric literal). *)
Definition round_ratio (neg : bool) (p q : Z) : float64 :=
  let k := ilog2_ratio p q in
  let e := Z.max (k - 52) (-1074) in
  let num := if 0 <=? e then p else p * 2 ^ (- e) in
  let den := if 0 <=? e then q * 2 ^ e else q in
  let m0 := num / den in
  let r := num mod den in
  let m := if 2 * r <? den then m0
           else if den <? 2 * r then m0 + 1
           else if Z.even m0 then m0 else m0 + 1 in
  let '(m', e') := if m =? 2 ^ 53 then (2 ^ 52, e + 1) else (m, e) in
  if 971 <? e' then Infinite neg else Finite neg (Z.to_N m') e'.

(** The double nearest to [d * 10^x].  The two guards only avoid
    computing powers of ten far outside the range of doubles. *)
Definition of_decimal (neg : bool) (d : N) (x : Z) : float64 :=
  if (d =? 0)%N then zero neg
  else if 400 <? x then Infinite neg
  else if x + Z.of_N (N.log2 d) + 1 <? -330 then zero neg
  else if 0 <=? x then round_ratio neg (Z.of_N d * 10 ^ x) 1
       else round_ratio neg (Z.of_N d) (10 ^ (- x)).

Definition of_N (n : N) : float64 := of_decimal false n 0.

(** ToBoolean of a number: false for +0, -0 and NaN. *)
Definition truthy (x : float64) : bool :=
  match x with
  | Finite _ m _ => negb (m =? 0)%N
  | Infinite _ => true
  | NaN => false
  end.

(** [x > 0]. *)
Definition gt_zero (x : float64) : bool :=
  match x with
  | Finite neg m _ => negb neg && negb (m =? 0)%N
  | Infinite neg => negb neg
  | NaN => false
  end.

(** *** Number::toString (radix 10) *)

(** The least [n] with [p / q < 10^n], searched upwards from an
    underestimate obtained from the binary logarithm. *)
Fixpoint search_up (fuel : nat) (p q n : Z) : Z :=
  match fuel with
  | O => n
  | S f =>
      let below := if 0 <=? n then p <? q * 10 ^ n else p * 10 ^ (- n) <? q in
      if below then n else search_up f p q (n + 1)
  end.

Definition decimal_exponent (p q : Z) : Z :=
  let k := ilog2_ratio p q in
  search_up 8 p q (k * 30102 / 100000 - 2).

Definition same (x y : float64) : bool :=
  match x, y with
  | Finite a m e, Finite b m' e' => Bool.eqb a b && (m =? m')%N && (e =? e')
  | Infinite a, Infinite b => Bool.eqb a b
  | _, _ => false
  end.

(** For [k] digits: the [k]-digit integers just below and above
    [p/q / 10^(n-k)] that read back as the same double, the closer one
    first (the even one on a tie). *)
Definition candidate (m : N) (e : Z) (p q n k : Z) : option Z :=
  let sc := n - k in
  let num := if 0 <=? sc then p else p * 10 ^ (- sc) in
  let den := if 0 <=? sc then q * 10 ^ sc else q in
  let lo := num / den in
  let r := num mod den in
  let ok s := (0 <? s) && same (of_decimal false (Z.to_N s) sc) (Finite false m e) in
  let lo_first := (2 * r <? den) || ((2 * r =? den) && Z.even lo) in
  match ok lo, ok (lo + 1) with
  | true, true => Some (if lo_first then lo else lo + 1)
  | true, false => Some lo
  | false, true => Some (lo + 1)
  | false, false => None
  end.

Fixpoint shortest (fuel : nat) (m : N) (e : Z) (p q n k : Z) : Z * Z :=
  match fuel with
  | O => (0, k)
  | S f =>
      match candidate m e p q n k with
      | Some s => (s, k)
      | None => shortest f m e p q n (k + 1)
      end
  end.

(** The digits [s] (not divisible by ten unless a single digit) and the
    exponent [n] such that the number prints as [0.s * 10^n]. *)
Definition digits_and_exponent (m : N) (e : Z) : N * Z :=
  let p := if 0 <=? e then Z.of_N m * 2 ^ e else Z.of_N m in
  let q := if 0 <=? e then 1 else 2 ^ (- e) in
  let n := decimal_exponent p q in
  let '(s, k) := shortest 17 m e p q n 1 in
  if s =? 10 ^ k then (1%N, n + 1) else (Z.to_N s, n).

Definition exponent_part (x : Z) : jsstring :=
  101%N :: (if 0 <=? x then 43%N else 45%N) :: digits (Z.to_N (Z.abs x)).

Definition format_finite (s : N) (n : Z) : jsstring :=
  let ds := digits s in
  let k := Z.of_nat (List.length ds) in
  if (k <=? n) && (n <=? 21) then ds ++ repeat 48%N (Z.to_nat (n - k))
  else if (0 <? n) && (n <=? 21) then
    firstn (Z.to_nat n) ds ++ 46%N :: skipn (Z.to_nat n) ds
  else if (-6 <? n) && (n <=? 0) then
    48%N :: 46%N :: repeat 48%N (Z.to_nat (- n)) ++ ds
  else match ds with
       | [d] => d :: exponent_part (n - 1)
       | d :: ds' => d :: 46%N :: ds' ++ exponent_part (n - 1)
       | [] => []
       end.

Definition toString (x : float64) : jsstring :=
  match x with
  | NaN => lit "NaN"
  | Infinite neg => (if neg then [45%N] else []) ++ lit "Infinity"
  | Finite neg m e =>
      if (m =? 0)%N then [48%N]
      else let '(s, n) := digits_and_exponent m e in
           (if neg then [45%N] else []) ++ format_finite s n
  end.

End Float64.

(** ** JSON values and [JSON.parse] *)

Module Json.
Import Float64.

Inductive json :=
| JNull
| JBool (b : bool)
| JNumber (x : float64)
| JString (s : jsstring)
| JArray (l : list json)
| JObject (m : list (jsstring * json)).

Local Open Scope N_scope.

(** *** Property order of an object

    An object keeps its own properties in the order JavaScript
    enumerates them: array-index keys ascending, then the other keys in
    the order of their first definition; defining an existing key
    replaces its value in place. *)

Fixpoint index_value (s : jsstring) (acc : N) : option N :=
  match s with
  | [] => Some acc
  | c :: s' =>
      if (48 <=? c) && (c <=? 57) then index_value s' (10 * acc + (c - 48))
      else None
  end.

(** A canonical numeric string below 2^32 - 1. *)
Definition array_index (k : jsstring) : option N :=
  match k with
  | [] => None
  | [48] => Some 0
  | 48 :: _ => None
  | _ => if (10 <? N.of_nat (List.length k)) then None
         else match index_value k 0 with
              | Some n => if n <? 4294967295 then Some n else None
              | None => None
              end
  end.

Fixpoint replace_property (k : jsstring) (v : json) (m : list (jsstring * json))
  : option (list (jsstring * json)) :=
  match m with
  | [] => None
  | (k', v') :: m' =>
      if JsString.eqb k' k then Some ((k', v) :: m')
      else match replace_property k v m' with
           | Some r => Some ((k', v') :: r)
           | None => None
           end
  end.

Fixpoint insert_index (i : N) (k : jsstring) (v : json) (m : list (jsstring * json))
  : list (jsstring * json) :=
  match m with
  | [] => [(k, v)]
  | (k', v') :: m' =>
      match array_index k' with
      | Some j => if j <? i then (k', v') :: insert_index i k v m'
                  else (k, v) :: m
      | None => (k, v) :: m
      end
  end.

Definition define_property (m : list (jsstring * json)) (kv : jsstring * json)
  : list (jsstring * json) :=
  let '(k, v) := kv in
  match replace_property k v m with
  | Some m' => m'
  | None => match array_index k with
            | Some i => insert_index i k v m
            | None => m ++ [(k, v)]
            end
  end.

Definition build_object (members : list (jsstring * json)) : json :=
  JObject (fold_left define_property members []).

(** *** Lexical parts *)

Definition is_json_ws (c : code_unit) : bool :=
  (c =? 32) || (c =? 9) || (c =? 10) || (c =? 13).

Fixpoint skip_ws (s : jsstring) : jsstring :=
  match s with
  | c :: s' => if is_json_ws c then skip_ws s' else s
  | [] => []
  end.

Definition is_digit (c : code_unit) : bool := (48 <=? c) && (c <=? 57).

Definition hex_value (c : code_unit) : option N :=
  if is_digit c then Some (c - 48)
  else if (97 <=? c) && (c <=? 102) then Some (c - 87)
  else if (65 <=? c) && (c <=? 70) then Some (c - 55)
  else None.

Definition hex4 (a b c d : code_unit) : option code_unit :=
  match hex_value a, hex_value b, hex_value c, hex_value d with
  | Some x, Some y, Some z, Some w => Some (4096 * x + 256 * y + 16 * z + w)
  | _, _, _, _ => None
  end.

(** The character a single-letter escape stands for. *)
Definition simple_escape (c : code_unit) : option code_unit :=
  if c =? 34 then Some 34 else if c =? 92 then Some 92
  else if c =? 47 then Some 47 else if c =? 98 then Some 8
  else if c =? 102 then Some 12 else if c =? 110 then Some 10
  else if c =? 114 then Some 13 else if c =? 116 then Some 9
  else None.

(** The characters of a string literal after its opening quote, up to
    and including the closing quote. *)
Fixpoint parse_string (s : jsstring) : option (jsstring * jsstring) :=
  match s with
  | [] => None
  | c :: s' =>
      if c =? 34 then Some ([], s')
      else if c =? 92 then
        match s' with
        | [] => None
        | e :: s'' =>
            if e =? 117 then
              match s'' with
              | h1 :: h2 :: h3 :: h4 :: s3 =>
                  match hex4 h1 h2 h3 h4, parse_string s3 with
                  | Some u, Some (str, r) => Some (u :: str, r)
                  | _, _ => None
                  end
              | _ => None
              end
            else
              match simple_escape e, parse_string s'' with
              | Some u, Some (str, r) => Some (u :: str, r)
              | _, _ => None
              end
        end
      else if c <? 32 then None
      else match parse_string s' with
           | Some (str, r) => Some (c :: str, r)
           | None => None
           end
  end.

(** A run of decimal digits: its value appended to [acc], how many
    there were, and the rest. *)
Fixpoint take_digits (s : jsstring) (acc : N) (n : nat) : N * nat * jsstring :=
  match s with
  | c :: s' => if is_digit c then take_digits s' (10 * acc + (c - 48)) (S n)
               else (acc, n, s)
  | [] => (acc, n, [])
  end.

Definition parse_exponent (s : jsstring) : option (Z * jsstring) :=
  match s with
  | c :: s1 =>
      if (c =? 101) || (c =? 69) then
        let '(neg, s2) := match s1 with
                          | sign :: r => if sign =? 45 then (true, r)
                                         else if sign =? 43 then (false, r)
                                         else (false, s1)
                          | [] => (false, s1)
                          end in
        match take_digits s2 0 0 with
        | (_, O, _) => None
        | (x, _, r) => Some (if neg then (- Z.of_N x)%Z else Z.of_N x, r)
        end
      else Some (0%Z, s)
  | [] => Some (0%Z, [])
  end.

Definition parse_fraction (d : N) (s : jsstring) : option (N * nat * jsstring) :=
  match s with
  | c :: s1 =>
      if c =? 46 then
        match take_digits s1 d 0 with
        | (_, O, _) => None
        | r => Some r
        end
      else Some (d, O, s)
  | [] => Some (d, O, s)
  end.

(** An optional minus sign, an integer part without a leading zero, an
    optional fraction and an optional exponent. *)
Definition parse_number (s : jsstring) : option (float64 * jsstring) :=
  let '(neg, s1) := match s with
                    | c :: r => if c =? 45 then (true, r) else (false, s)
                    | [] => (false, s)
                    end in
  let int_part :=
    match s1 with
    | c :: r => if c =? 48 then Some (0, r)
                else if is_digit c then let '(d, _, r) := take_digits s1 0 0 in Some (d, r)
                else None
    | [] => None
    end in
  match int_part with
  | None => None
  | Some (d, s2) =>
      match parse_fraction d s2 with
      | None => None
      | Some (d', nfrac, s3) =>
          match parse_exponent s3 with
          | None => None
          | Some (x, s4) => Some (of_decimal neg d' (x - Z.of_nat nfrac), s4)
          end
      end
  end.

Definition parse_literal (s : jsstring) : option (json * jsstring) :=
  if startsWith (lit "true") s then Some (JBool true, skipn 4 s)
  else if startsWith (lit "false") s then Some (JBool false, skipn 5 s)
  else if startsWith (lit "null") s then Some (JNull, skipn 4 s)
  else match parse_number s with
       | Some (x, r) => Some (JNumber x, r)
       | None => None
       end.

(** Optional whitespace, then the punctuation mark [c]: what follows it. *)
Definition expect (c : code_unit) (s : jsstring) : option jsstring :=
  match skip_ws s with
  | x :: r => if x =? c then Some r else None
  | [] => None
  end.

(** *** Values

    Recursive descent; [fuel] bounds the number of nested calls, and
    every call consumes a character before it recurses, so the length
    of the input plus one is always enough ([parse_value_fuel]). *)
Fixpoint parse_value (fuel : nat) (s : jsstring) : option (json * jsstring) :=
  match fuel with
  | O => None
  | S f =>
      match skip_ws s with
      | [] => None
      | c :: r =>
          if c =? 123 then
            match expect 125 r with
            | Some r' => Some (JObject [], r')
            | None => match parse_members f r with
                      | Some (ms, r') => Some (build_object ms, r')
                      | None => None
                      end
            end
          else if c =? 91 then
            match expect 93 r with
            | Some r' => Some (JArray [], r')
            | None => match parse_elements f r with
                      | Some (vs, r') => Some (JArray vs, r')
                      | None => None
                      end
            end
          else if c =? 34 then
            match parse_string r with
            | Some (str, r') => Some (JString str, r')
            | None => None
            end
          else parse_literal (c :: r)
      end
  end

(** Members after the opening brace, up to and including the closing one. *)
with parse_members (fuel : nat) (s : jsstring)
  : option (list (jsstring * json) * jsstring) :=
  match fuel with
  | O => None
  | S f =>
      match expect 34 s with
      | Some r =>
          match parse_string r with
          | Some (k, r1) =>
              match expect 58 r1 with
              | Some r2 =>
                  match parse_value f r2 with
                  | Some (v, r3) =>
                      match expect 44 r3, expect 125 r3 with
                      | Some r4, _ =>
                          match parse_members f r4 with
                          | Some (ms, r5) => Some ((k, v) :: ms, r5)
                          | None => None
                          end
                      | None, Some r4 => Some ([(k, v)], r4)
                      | None, None => None
                      end
                  | None => None
                  end
              | None => None
              end
          | None => None
          end
      | None => None
      end
  end

(** Elements after the opening bracket, up to and including the closing one. *)
with parse_elements (fuel : nat) (s : jsstring) : option (list json * jsstring) :=
  match fuel with
  | O => None
  | S f =>
      match parse_value f s with
      | Some (v, r1) =>
          match expect 44 r1, expect 93 r1 with
          | Some r2, _ =>
              match parse_elements f r2 with
              | Some (vs, r3) => Some (v :: vs, r3)
              | None => None
              end
          | None, Some r2 => Some ([v], r2)
          | None, None => None
          end
      | None => None
      end
  end.

(** [JSON.parse text]: [None] stands for the SyntaxError it throws. *)
Definition JSON_parse (text : jsstring) : option json :=
  match parse_value (S (List.length text)) text with
  | Some (v, r) => match skip_ws r with [] => Some v | _ :: _ => None end
  | None => None
  end.

End Json.

(** ** The fragment of the JavaScript semantics the service relies on *)

Module Js.
Import Float64 Json.

(** Exceptions. [Error msg] is [new Error(msg)]. *)
Inductive jserror :=
| TypeError
| SyntaxError
| ReferenceError
| Error (message : jsstring).

Inductive completion (A : Type) :=
| Ok (a : A)
| Throw (e : jserror).
Arguments Ok {A} a.
Arguments Throw {A} e.

Definition bind {A B} (c : completion A) (k : A -> completion B) : completion B :=
  match c with
  | Ok a => k a
  | Throw e => Throw e
  end.

Notation "x <- c ;; k" := (bind c (fun x => k))
  (at level 61, c at next level, right associativity).

(** A value read from a property: [None] is [undefined]. *)
Definition value := option json.

Fixpoint lookup (k : jsstring) (m : list (jsstring * json)) : value :=
  match m with
  | [] => None
  | (k', v) :: m' => if JsString.eqb k' k then Some v else lookup k m'
  end.

Definition ToBoolean (v : value) : bool :=
  match v with
  | None | Some JNull => false
  | Some (JBool b) => b
  | Some (JNumber x) => truthy x
  | Some (JString s) => match s with [] => false | _ :: _ => true end
  | Some (JArray _) | Some (JObject _) => true
  end.

(** [v.name] for the names the service reads.  Objects made by
    [JSON.parse] answer with their own properties (none of the names
    read is inherited from a prototype); arrays and strings answer to
    [length] and to indices; reading from [null] or [undefined] throws. *)
Definition Get (v : value) (name : jsstring) : completion value :=
  match v with
  | None | Some JNull => Throw TypeError
  | Some (JObject m) => Ok (lookup name m)
  | Some (JArray l) =>
      if JsString.eqb name (lit "length")
      then Ok (Some (JNumber (of_N (N.of_nat (List.length l)))))
      else match array_index name with
           | Some i => Ok (nth_error l (N.to_nat i))
           | None => Ok None
           end
  | Some (JString s) =>
      if JsString.eqb name (lit "length")
      then Ok (Some (JNumber (of_N (N.of_nat (List.length s)))))
      else match array_index name with
           | Some i => Ok (option_map (fun c => JString [c]) (nth_error s (N.to_nat i)))
           | None => Ok None
           end
  | Some (JBool _) | Some (JNumber _) => Ok None
  end.

(** ToString, as [+=] on a string and template literals apply it.  An
    array joins its elements with commas ([null] printing as nothing);
    an object prints as [[object Object]] unless it has an own
    [toString] property, which no JSON value can make callable, so
    the conversion throws. *)
Fixpoint ToString (v : json) : completion jsstring :=
  match v with
  | JNull => Ok (lit "null")
  | JBool true => Ok (lit "true")
  | JBool false => Ok (lit "false")
  | JNumber x => Ok (Float64.toString x)
  | JString s => Ok s
  | JArray l =>
      (fix join (l : list json) : completion jsstring :=
         match l with
         | [] => Ok []
         | x :: l' =>
             s <- match x with JNull => Ok [] | _ => ToString x end ;;
             match l' with
             | [] => Ok s
             | _ :: _ => r <- join l' ;; Ok (s ++ 44%N :: r)
             end
         end) l
  | JObject m =>
      match lookup (lit "toString") m with
      | Some _ => Throw TypeError
      | None => Ok (lit "[object Object]")
      end
  end.

(** *** StringToNumber *)

Fixpoint radix_digits (radix : N) (s : jsstring) (acc : N) : option N :=
  match s with
  | [] => Some acc
  | c :: s' =>
      match hex_value c with
      | Some d => if (d <? radix)%N then radix_digits radix s' (radix * acc + d)%N
                  else None
      | None => None
      end
  end.

Definition non_decimal (s : jsstring) : option float64 :=
  match s with
  | 48%N :: p :: ((_ :: _) as ds) =>
      let radix := (if (p =? 120) || (p =? 88) then Some 16
                    else if (p =? 111) || (p =? 79) then Some 8
                    else if (p =? 98) || (p =? 66) then Some 2
                    else None)%N in
      match radix with
      | Some r => match radix_digits r ds 0 with
                  | Some n => Some (of_N n)
                  | None => Some NaN
                  end
      | None => None
      end
  | _ => None
  end.

Definition unsigned_decimal (neg : bool) (u : jsstring) : float64 :=
  if JsString.eqb u (lit "Infinity") then Infinite neg
  else
    let '(d, n1, r1) := take_digits u 0 0 in
    let '(d', n2, r2) := match r1 with
                         | 46%N :: r => take_digits r d 0
                         | _ => (d, O, r1)
                         end in
    match (n1 + n2)%nat, parse_exponent r2 with
    | S _, Some (x, []) => of_decimal neg d' (x - Z.of_nat n2)
    | _, _ => NaN
    end.

Definition StringToNumber (s : jsstring) : float64 :=
  match trim s with
  | [] => zero false
  | t => match non_decimal t with
         | Some x => x
         | None => match t with
                   | 45%N :: u => unsigned_decimal true u
                   | 43%N :: u => unsigned_decimal false u
                   | _ => unsigned_decimal false t
                   end
         end
  end.

(** [v > 0]: ToPrimitive with hint number, then ToNumber. *)
Definition gt_zero (v : value) : completion bool :=
  match v with
  | None | Some JNull => Ok false
  | Some (JBool b) => Ok b
  | Some (JNumber x) => Ok (Float64.gt_zero x)
  | Some (JString s) => Ok (Float64.gt_zero (StringToNumber s))
  | Some (JArray l) => s <- ToString (JArray l) ;; Ok (Float64.gt_zero (StringToNumber s))
  | Some (JObject m) => s <- ToString (JObject m) ;; Ok (Float64.gt_zero (StringToNumber s))
  end.

(** The values a [for ... of] loop visits: the elements of an array,
    the code points of a string; nothing else made by [JSON.parse] is
    iterable. *)
Definition iterate (v : value) : completion (list json) :=
  match v with
  | Some (JArray l) => Ok l
  | Some (JString s) => Ok (List.map JString (code_points s))
  | _ => Throw TypeError
  end.

End Js.

(** ** The service: [class AIService] *)

Module AIService.
Import Float64 Json Js.

(** [a && b], where [b] is evaluated only when [a] is truthy. *)
Definition and_also (a : value) (b : completion value) : completion value :=
  if ToBoolean a then b else Ok a.

(** A value that passed a truthiness test. *)
Definition truthy_value (v : value) : option json :=
  match v with
  | Some j => if ToBoolean v then Some j else None
  | None => None
  end.

Fixpoint for_of {A} (body : json -> A -> completion A) (items : list json) (a : A)
  : completion A :=
  match items with
  | [] => Ok a
  | x :: items' => a' <- body x a ;; for_of body items' a'
  end.

(** *** [extractContentFromJSON] *)

Record imageData := { data : json; mimeType : json }.

Record extracted := { text : jsstring; image : option imageData }.

(** The body of [for (const part of candidate.content.parts)]. *)
Definition extract_part (part : json) (result : extracted) : completion extracted :=
  t <- Get (Some part) (lit "text") ;;
  match truthy_value t with
  | Some tv =>
      s <- ToString tv ;;
      Ok {| text := text result ++ s; image := image result |}
  | None =>
      i <- Get (Some part) (lit "inlineData") ;;
      d <- and_also i (Get i (lit "data")) ;;
      match truthy_value d with
      | Some dv =>
          m <- Get i (lit "mimeType") ;;
          let mime := match truthy_value m with
                      | Some mv => mv
                      | None => JString (lit "image/png")
                      end in
          Ok {| text := text result; image := Some {| data := dv; mimeType := mime |} |}
      | None => Ok result
      end
  end.

(** The body of [for (const candidate of jsonData.candidates)]. *)
Definition extract_candidate (candidate : json) (result : extracted)
  : completion extracted :=
  c <- Get (Some candidate) (lit "content") ;;
  ps <- and_also c (Get c (lit "parts")) ;;
  if ToBoolean ps then
    parts <- iterate ps ;;
    for_of extract_part parts result
  else Ok result.

Definition extractContentFromJSON (jsonData : json) : completion extracted :=
  let result := {| text := []; image := None |} in
  cs <- Get (Some jsonData) (lit "candidates") ;;
  shaped <- (if ToBoolean cs then len <- Get cs (lit "length") ;; gt_zero len
             else Ok false) ;;
  result <- (if shaped : bool then
               candidates <- iterate cs ;;
               for_of extract_candidate candidates result
             else Ok result) ;;
  pf <- Get (Some jsonData) (lit "promptFeedback") ;;
  br <- and_also pf (Get pf (lit "blockReason")) ;;
  match truthy_value br with
  | Some reason =>
      msg <- ToString reason ;;
      Throw (Error (lit "Request blocked: " ++ msg))
  | None => Ok result
  end.

(** *** [processStreamBuffer] *)

(** The [for] loop that looks for the brace closing the one at
    [startIndex]: [cs] is the buffer from index [i] on; the result is
    [endIndex], [None] standing for -1. *)
Fixpoint scan (cs : jsstring) (i : nat) (braceCount : Z) (inString escapeNext : bool)
  : option nat :=
  match cs with
  | [] => None
  | char :: cs' =>
      if escapeNext then scan cs' (S i) braceCount inString false
      else if (char =? 92)%N then scan cs' (S i) braceCount inString true
      else if (char =? 34)%N && negb escapeNext
           then scan cs' (S i) braceCount (negb inString) escapeNext
      else if negb inString then
        if (char =? 123)%N then scan cs' (S i) (braceCount + 1)%Z inString escapeNext
        else if (char =? 125)%N then
          if (braceCount - 1 =? 0)%Z then Some i
          else scan cs' (S i) (braceCount - 1)%Z inString escapeNext
        else scan cs' (S i) braceCount inString escapeNext
      else scan cs' (S i) braceCount inString escapeNext
  end.

Definition find_end (buffer : jsstring) (startIndex : nat) : option nat :=
  scan (skipn startIndex buffer) startIndex 0%Z false false.

Definition JSON_parse_or_throw (text : jsstring) : completion json :=
  match JSON_parse text with
  | Some v => Ok v
  | None => Throw SyntaxError
  end.

(** What one call returns and does: the returned [text] and
    [remainingBuffer]; [spawned], the image handed to [handleImageData]
    without waiting; [warned], the error the [catch] block logs; and
    [parsedObject], the object whose span the call removed from the
    buffer (not a value of the program: it names the ParsedObject the
    call surfaced). *)
Record processed := {
  p_text : jsstring;
  remainingBuffer : jsstring;
  spawned : option imageData;
  warned : option jserror;
  parsedObject : option json
}.

Definition unchanged (buffer : jsstring) (w : option jserror) : processed :=
  {| p_text := []; remainingBuffer := buffer; spawned := None;
     warned := w; parsedObject := None |}.

(** The two calls of the [try] block that can throw. *)
Definition try_block (jsonStr : jsstring) : completion (json * extracted) :=
  jsonData <- JSON_parse_or_throw jsonStr ;;
  r <- extractContentFromJSON jsonData ;;
  Ok (jsonData, r).

Definition processStreamBuffer (buffer : jsstring) : processed :=
  match indexOf 123%N buffer with
  | None => unchanged buffer None
  | Some startIndex =>
      match find_end buffer startIndex with
      | None => unchanged buffer None
      | Some endIndex =>
          let jsonStr := substring startIndex (endIndex + 1) buffer in
          match try_block jsonStr with
          | Ok (jsonData, r) =>
              {| p_text := text r;
                 remainingBuffer := skipn (endIndex + 1) buffer;
                 spawned := image r;
                 warned := None;
                 parsedObject := Some jsonData |}
          | Throw parseError => unchanged buffer (Some parseError)
          end
      end
  end.

(** *** [tryParseCompleteJSON] *)

(** [const cleaned] is declared inside the [try] block, so the [catch]
    block is outside its scope: there the name is looked up in the
    enclosing function and module scopes, which do not declare it. *)
Definition cleaned_in_catch_scope : option jsstring := None.

(** The body of the outer [catch] block; [Ok None] is reaching its end
    without a [return]. *)
Definition repair (cleaned : option jsstring) : completion (option json) :=
  match cleaned with
  | None => Throw ReferenceError
  | Some cleaned =>
      match indexOf 123%N cleaned, lastIndexOf 125%N cleaned with
      | Some start, Some end_ =>
          if start <? end_ then
            v <- JSON_parse_or_throw (substring start (end_ + 1) cleaned) ;;
            Ok (Some v)
          else Ok None
      | _, _ => Ok None
      end
  end.

(** The result is a JavaScript value; [return null] is [JNull]. *)
Definition tryParseCompleteJSON (buffer : jsstring) : json :=
  let cleaned := trim buffer in
  let attempt := match cleaned with
                 | [] => Ok JNull
                 | _ :: _ => JSON_parse_or_throw cleaned
                 end in
  match attempt with
  | Ok v => v
  | Throw _ =>
      match repair cleaned_in_catch_scope with
      | Ok (Some v) => v
      | Ok None => JNull
      | Throw _ => JNull
      end
  end.

(** *** [processCompleteResponse]: the generic walk *)

Record walked := { w_text : jsstring; w_images : list imageData }.

(** What [extractRecursive] does at an object node before it descends. *)
Definition visit_node (m : list (jsstring * json)) (result : walked) : completion walked :=
  let obj := Some (JObject m) in
  t <- Get obj (lit "text") ;;
  result <- match truthy_value t with
            | Some tv => s <- ToString tv ;;
                         Ok {| w_text := w_text result ++ s; w_images := w_images result |}
            | None => Ok result
            end ;;
  i <- Get obj (lit "inlineData") ;;
  d <- and_also i (Get i (lit "data")) ;;
  mt <- and_also d (Get i (lit "mimeType")) ;;
  match truthy_value mt with
  | Some mv =>
      dv <- Get i (lit "data") ;;
      match dv with
      | Some dv =>
          Ok {| w_text := w_text result;
                w_images := w_images result ++ [{| data := dv; mimeType := mv |}] |}
      | None => Ok result
      end
  | None => Ok result
  end.

Fixpoint extractRecursive (obj : json) (result : walked) : completion walked :=
  match obj with
  | JNull | JBool _ | JNumber _ | JString _ => Ok result
  | JArray l =>
      (fix forEach (l : list json) (result : walked) : completion walked :=
         match l with
         | [] => Ok result
         | x :: l' => result <- extractRecursive x result ;; forEach l' result
         end) l result
  | JObject m =>
      result <- visit_node m result ;;
      (fix forEach (vs : list (jsstring * json)) (result : walked) : completion walked :=
         match vs with
         | [] => Ok result
         | (_, x) :: vs' => result <- extractRecursive x result ;; forEach vs' result
         end) m result
  end.

End AIService.

(** ** A streaming session: the handlers of [streamGenerateContent]

    The handlers run to completion one at a time.  A call of
    [handleImageData] that nobody awaits is a task of its own: it settles
    at some later turn of the event loop (the key and the outcome of
    [cacheService.saveImage] are the environment's), and the [then] or
    [catch] callback that reports it runs at a later turn again.  The
    [await] inside the [end] handler lets such turns happen in between. *)

Module Session.
Import Float64 Json Js AIService.

Record complete_data := {
  c_text : jsstring;
  c_images : list (imageData * option jsstring)
}.

(** The objects handed to [onChunk], by their [type]. *)
Inductive event :=
| TextEvent (content accumulated : jsstring) (chunkIndex : nat) (isFinal : bool)
| ImageEvent (key : jsstring)
| ErrorEvent (error : jsstring)
| CompleteEvent (data : complete_data) (chunkCount : nat)
| ImageKeysEvent (keys : list jsstring) (count : nat)
| CompletionEvent (totalChunks textLength imageCount : nat).

(** A call of [handleImageData] started by [processStreamBuffer]. *)
Inductive task :=
| InFlight (img : imageData)
| Fulfilled (key : jsstring)
| Rejected (message : jsstring).

(** How a call of [handleImageData] ends. *)
Inductive outcome :=
| Saved (key : jsstring)
| Failed (message : jsstring).

(** [imageData.data.startsWith] exists only when the data is a string;
    otherwise the call throws before anything is saved. *)
Definition may_end (img : imageData) (o : outcome) : bool :=
  match o, data img with
  | Saved _, JString _ => true
  | Saved _, _ => false
  | Failed _, _ => true
  end.

Inductive phase :=
| Streaming
| Finalizing (text : jsstring) (done : list (imageData * option jsstring))
             (todo : list imageData)
| Resolved
| RejectedWith (e : jserror).

Record session := {
  buffer : jsstring;
  responseText : jsstring;
  cacheKeys : list jsstring;
  chunkCount : nat;
  events : list event;
  tasks : list task;
  stage : phase;
  parsedObjects : list json
}.

Definition start : session :=
  {| buffer := []; responseText := []; cacheKeys := []; chunkCount := 0;
     events := []; tasks := []; stage := Streaming; parsedObjects := [] |}.

Definition opt_list {A} (o : option A) : list A :=
  match o with Some a => [a] | None => [] end.

(** [response.data.on('data', ...)] *)
Definition on_data (s : session) (chunk : jsstring) : session :=
  let chunkCount := S (chunkCount s) in
  let buffer := buffer s ++ chunk in
  let p := processStreamBuffer buffer in
  let responseText := responseText s ++ p_text p in
  {| buffer := remainingBuffer p;
     responseText := responseText;
     cacheKeys := cacheKeys s;
     chunkCount := chunkCount;
     events := events s ++
               match p_text p with
               | [] => []
               | _ :: _ => [TextEvent (p_text p) responseText chunkCount false]
               end;
     tasks := tasks s ++ List.map InFlight (opt_list (spawned p));
     stage := stage s;
     parsedObjects := parsedObjects s ++ opt_list (parsedObject p) |}.

(** The tail of the [end] handler: the [image_keys] and [completion]
    events, then [resolve]. *)
Definition finish (s : session) : session :=
  {| buffer := buffer s;
     responseText := responseText s;
     cacheKeys := cacheKeys s;
     chunkCount := chunkCount s;
     events := events s ++
               match cacheKeys s with
               | [] => []
               | _ :: _ => [ImageKeysEvent (cacheKeys s) (List.length (cacheKeys s))]
               end ++
               [CompletionEvent (chunkCount s) (List.length (responseText s))
                                (List.length (cacheKeys s))];
     tasks := tasks s;
     stage := Resolved;
     parsedObjects := parsedObjects s |}.

Definition with_stage (s : session) (p : phase) : session :=
  {| buffer := buffer s; responseText := responseText s; cacheKeys := cacheKeys s;
     chunkCount := chunkCount s; events := events s; tasks := tasks s;
     stage := p; parsedObjects := parsedObjects s |}.

(** [response.data.on('end', ...)] up to its [await], or to its end
    when there is none.  The handler does not assign [buffer]. *)
Definition on_end (s : session) : session :=
  match trim (buffer s) with
  | [] => finish s
  | _ :: _ =>
      let p := processStreamBuffer (buffer s) in
      let responseText := responseText s ++ p_text p in
      let s1 :=
        {| buffer := buffer s;
           responseText := responseText;
           cacheKeys := cacheKeys s;
           chunkCount := chunkCount s;
           events := events s ++
                     match p_text p with
                     | [] => []
                     | _ :: _ => [TextEvent (p_text p) responseText (chunkCount s) true]
                     end;
           tasks := tasks s ++ List.map InFlight (opt_list (spawned p));
           stage := stage s;
           parsedObjects := parsedObjects s ++ opt_list (parsedObject p) |} in
      let finalData := tryParseCompleteJSON (buffer s) in
      if ToBoolean (Some finalData) then
        match extractRecursive finalData {| w_text := []; w_images := [] |} with
        | Ok w => with_stage s1 (Finalizing (w_text w) [] (w_images w))
        | Throw e => with_stage s1 (RejectedWith e)
        end
      else finish s1
  end.

(** *** Turns of the event loop *)

Inductive action :=
| Data (chunk : jsstring)       (* a chunk arrives *)
| End                           (* the upstream ends *)
| Persist (o : outcome)         (* an awaited [handleImageData] of the generic walk returns *)
| Finish                        (* [processCompleteResponse] returns to the [end] handler *)
| Settle (i : nat) (o : outcome) (* the [i]-th unawaited [handleImageData] ends *)
| Deliver (i : nat).            (* its [then] / [catch] callback runs *)

Fixpoint remove_nth {A} (i : nat) (l : list A) : list A :=
  match i, l with
  | _, [] => []
  | O, _ :: l' => l'
  | S i', x :: l' => x :: remove_nth i' l'
  end.

Fixpoint replace_nth {A} (i : nat) (a : A) (l : list A) : list A :=
  match i, l with
  | _, [] => []
  | O, _ :: l' => a :: l'
  | S i', x :: l' => x :: replace_nth i' a l'
  end.

Definition with_keys_tasks_events (s : session) (ks : list jsstring) (ts : list task)
    (es : list event) : session :=
  {| buffer := buffer s; responseText := responseText s; cacheKeys := ks;
     chunkCount := chunkCount s; events := es; tasks := ts;
     stage := stage s; parsedObjects := parsedObjects s |}.

Definition saved_key (o : outcome) : option jsstring :=
  match o with Saved k => Some k | Failed _ => None end.

(** One turn; [None] when the turn cannot happen in that state. *)
Definition step (s : session) (a : action) : option session :=
  match a, stage s with
  | Data chunk, Streaming => Some (on_data s chunk)
  | End, Streaming => Some (on_end s)
  | Persist o, Finalizing t done (img :: todo) =>
      if may_end img o then
        Some (with_stage
                (with_keys_tasks_events s (cacheKeys s ++ opt_list (saved_key o))
                                        (tasks s) (events s))
                (Finalizing t (done ++ [(img, saved_key o)]) todo))
      else None
  | Finish, Finalizing t done [] =>
      Some (finish (with_keys_tasks_events s (cacheKeys s) (tasks s)
                      (events s ++ [CompleteEvent {| c_text := t; c_images := done |}
                                                  (chunkCount s)])))
  | Settle i o, _ =>
      match nth_error (tasks s) i with
      | Some (InFlight img) =>
          if may_end img o then
            Some (with_keys_tasks_events s
                    (cacheKeys s ++ opt_list (saved_key o))
                    (replace_nth i (match o with
                                    | Saved k => Fulfilled k
                                    | Failed m => Rejected m
                                    end) (tasks s))
                    (events s))
          else None
      | _ => None
      end
  | Deliver i, _ =>
      match nth_error (tasks s) i with
      | Some (Fulfilled k) =>
          Some (with_keys_tasks_events s (cacheKeys s) (remove_nth i (tasks s))
                  (events s ++ [ImageEvent k]))
      | Some (Rejected m) =>
          Some (with_keys_tasks_events s (cacheKeys s) (remove_nth i (tasks s))
                  (events s ++ [ErrorEvent (lit "Failed to save image: " ++ m)]))
      | _ => None
      end
  | _, _ => None
  end.

Fixpoint run (s : session) (turns : list action) : option session :=
  match turns with
  | [] => Some s
  | a :: turns' =>
      match step s a with
      | Some s' => run s' turns'
      | None => None
      end
  end.

(** The chunks of a stream delivered in order, then its end. *)
Definition stream (chunks : list jsstring) : session :=
  on_end (fold_left on_data chunks start).

End Session.

(** ** The response stream as the service receives it *)

Module Wire.
Import Session.


End Wire.

(** ** The batch interface: [generateContent]

    [generateContent] runs [streamGenerateContent] with a callback that
    collects the events, and builds its response when the completion
    event arrives. *)

Module Batch.
Import Js AIService Session.

(** [completeResponse]; [images] holds the objects [{ key }].  The
    [success] field is always [true]. *)
Record complete_response := {
  r_text : jsstring;
  r_images : list jsstring;
  r_chunks : nat
}.

(** The variables the callback closes over. *)
Record collector := {
  chunks : list event;
  completeResponse : option complete_response
}.

(** [chunks.filter(c => c.type === 'text' && c.content).map(c => c.content)] *)
Definition textChunks (chunks : list event) : list jsstring :=
  flat_map (fun c => match c with
                     | TextEvent ((_ :: _) as content) _ _ _ => [content]
                     | _ => []
                     end) chunks.

(** [chunks.filter(c => c.type === 'image' && c.key).map(c => ({ key: c.key }))] *)
Definition imageChunks (chunks : list event) : list jsstring :=
  flat_map (fun c => match c with
                     | ImageEvent ((_ :: _) as key) => [key]
                     | _ => []
                     end) chunks.

(** The callback.  Every completion event is made with [success: true]. *)
Definition onChunk (st : collector) (chunk : event) : collector :=
  let chunks := chunks st ++ [chunk] in
  match chunk with
  | CompletionEvent _ _ _ =>
      {| chunks := chunks;
         completeResponse :=
           Some {| r_text := List.concat (textChunks chunks);
                   r_images := imageChunks chunks;
                   r_chunks := List.length chunks |} |}
  | _ => {| chunks := chunks; completeResponse := completeResponse st |}
  end.

Definition collect (es : list event) : collector :=
  fold_left onChunk es {| chunks := []; completeResponse := None |}.

(** How the promise of [generateContent] settles: with
    [completeResponse] when the callback has set it, with the result of
    [streamGenerateContent] otherwise, or rejected with the error of
    [streamGenerateContent]. *)
Inductive batch_result :=
| Response (r : complete_response)
| StreamResult (text : jsstring) (cacheKeys : list jsstring) (totalChunks : nat)
| Rejects (cause : jserror)
| Pending.

Definition generateContent (s : session) : batch_result :=
  match stage s with
  | Resolved =>
      match completeResponse (collect (events s)) with
      | Some r => Response r
      | None => StreamResult (responseText s) (cacheKeys s) (chunkCount s)
      end
  | RejectedWith e => Rejects e
  | _ => Pending
  end.

End Batch.

(** ** [handleImageData]: the base64 text of an image

    Before it decodes and saves an image, [handleImageData] strips the
    header of a data URL from [imageData.data]. *)

Module ImageHandling.

(** The class [\w] of a regular expression without flags. *)
Definition is_word (c : code_unit) : bool :=
  ((48 <=? c) && (c <=? 57) || (65 <=? c) && (c <=? 90)
   || (97 <=? c) && (c <=? 122) || (c =? 95))%N.

(** What follows the prefix [p] in [s], when [s] starts with it. *)
Fixpoint after_prefix (p s : jsstring) : option jsstring :=
  match p, s with
  | [], _ => Some s
  | x :: p', y :: s' => if N.eqb x y then after_prefix p' s' else None
  | _ :: _, [] => None
  end.

(** What follows the longest run of word characters at the start. *)
Fixpoint after_words (s : jsstring) : jsstring :=
  match s with
  | c :: s' => if is_word c then after_words s' else s
  | [] => []
  end.

(** The end of the match of [/^data:image\/\w+;base64,/], if any.  The
    pattern is anchored; [\w+] is greedy, and giving back a word
    character cannot help, since the next thing to match is [;]. *)
Definition match_header (s : jsstring) : option jsstring :=
  match after_prefix (lit "data:image/") s with
  | Some ((c :: _) as r) =>
      if is_word c then after_prefix (lit ";base64,") (after_words r) else None
  | _ => None
  end.

(** [base64Data], as computed from [imageData.data] when it is a string. *)
Definition base64Data (data : jsstring) : jsstring :=
  if startsWith (lit "data:") data then
    match match_header data with
    | Some rest => rest
    | None => data
    end
  else data.

End ImageHandling.

(** ** Sample inputs *)

Module Samples.
Import Float64 Json Js AIService Session.

Definition parse_then_extract (s : jsstring) : completion extracted :=
  v <- JSON_parse_or_throw s ;; extractContentFromJSON v.

Definition hello : jsstring := lit "{'candidates':[{'content':{'parts':[{'text':'Hello'}]}}]}".

Definition world : jsstring := lit "{'candidates':[{'content':{'parts':[{'text':' World'}]}}]}".

(** A balanced span that is not JSON, followed by a well-formed object. *)
Definition oops_then_hello : jsstring := lit "{oops}" ++ hello.

(** The input of the in-string brace example. *)
Definition nested_brace : jsstring := lit "{'text':'a \'nested\' } brace'}".

(** An object blocked by the upstream service. *)
Definition blocked : jsstring := lit "{'promptFeedback':{'blockReason':'SAFETY'}}".

(** One object with two text parts and two images. *)
Definition two_texts_two_images : jsstring :=
  lit "{'candidates':[{'content':{'parts':[{'text':'a'},{'inlineData':{'data':'AAAA','mimeType':'image/gif'}},{'text':'b'},{'inlineData':{'data':'BBBB'}}]}}]}".

(** Three small objects, whole and one per chunk. *)
Definition three_objects : list jsstring :=
  [lit "{'n':'1'}"; lit "{'n':'2'}"; lit "{'n':'3'}"].

Definition numbered (n : string) : json := JObject [(lit "n", JString (lit n))].

(** An empty object, a stray character, and an object with one image. *)
Definition image_object : jsstring :=
  lit "{'candidates':[{'content':{'parts':[{'inlineData':{'data':'QUJD','mimeType':'image/png'}}]}}]}".

Definition stray_then_image : jsstring := lit "{} #" ++ image_object.

(** An empty object and an object whose [text] cannot be printed. *)
Definition hostile_text : jsstring := lit "{}{'text':{'toString':1}}".


(** The three small objects with the values they stand for. *)
Definition three_objects_with_values : list (jsstring * json) :=
  [(lit "{'n':'1'}", numbered "1"); (lit "{'n':'2'}", numbered "2");
   (lit "{'n':'3'}", numbered "3")].

(** The bytes of a literal, an apostrophe standing for the double
    quote as in [lit]. *)
Definition wire (s : string) : list Byte.byte :=
  List.map (fun a => if N.eqb (N_of_ascii a) 39 then Byte.x22 else byte_of_ascii a)
           (list_ascii_of_string s).




End Samples.

(** ** Vocabulary of the statements *)

Module Vocabulary.
Import Float64 Json Js AIService Session.

(** What a call returns when it removes the span ending at [endIndex]. *)
Definition extraction (b : jsstring) (endIndex : nat) (v : json) (r : extracted)
  : processed :=
  {| p_text := text r; remainingBuffer := skipn (endIndex + 1) b;
     spawned := image r; warned := None; parsedObject := Some v |}.

(** Shaped responses: candidates whose parts are texts or inline images. *)
Inductive part :=
| TextPart (t : jsstring)
| InlinePart (d m : jsstring).

Definition part_json (p : part) : json :=
  match p with
  | TextPart t => JObject [(lit "text", JString t)]
  | InlinePart d m =>
      JObject [(lit "inlineData",
                JObject [(lit "data", JString d); (lit "mimeType", JString m)])]
  end.

Definition candidate_json (ps : list part) : json :=
  JObject [(lit "content", JObject [(lit "parts", JArray (List.map part_json ps))])].

Definition shaped (candidates : list (list part)) : json :=
  JObject [(lit "candidates", JArray (List.map candidate_json candidates))].

(** The texts of the parts, one after the other. *)
Definition all_text (ps : list part) : jsstring :=
  flat_map (fun p => match p with TextPart t => t | InlinePart _ _ => [] end) ps.

(** The image a part leaves in the single [imageData] slot. *)
Definition slot_after (slot : option imageData) (p : part) : option imageData :=
  match p with
  | InlinePart (c :: d) m =>
      Some {| data := JString (c :: d);
              mimeType := JString (match m with [] => lit "image/png" | _ :: _ => m end) |}
  | _ => slot
  end.

Definition last_image (ps : list part) (slot : option imageData) : option imageData :=
  fold_left slot_after ps slot.

Definition count_texts (ps : list part) : nat :=
  List.length (filter (fun p => match p with TextPart (_ :: _) => true | _ => false end) ps).

Definition count_images (ps : list part) : nat :=
  List.length (filter (fun p => match p with InlinePart (_ :: _) _ => true | _ => false end) ps).

(** Extraction repeated until a call surfaces nothing: the objects a
    decoder that scans repeatedly would surface from a buffer.  A call
    that surfaces an object shortens the buffer, so the length of the
    buffer is fuel enough ([exhaust_fuel]). *)
Fixpoint exhaust (fuel : nat) (b : jsstring) : list json :=
  match fuel with
  | O => []
  | S f =>
      match parsedObject (processStreamBuffer b) with
      | Some v => v :: exhaust f (remainingBuffer (processStreamBuffer b))
      | None => []
      end
  end.

Definition all_objects (b : jsstring) : list json := exhaust (List.length b) b.

(** *** The place of the completion event *)

Definition is_completion (e : event) : bool :=
  match e with CompletionEvent _ _ _ => true | _ => false end.

(** The events that report an unawaited [handleImageData]. *)
Definition is_task_report (e : event) : bool :=
  match e with ImageEvent _ | ErrorEvent _ => true | _ => false end.

Definition no_completion (es : list event) : Prop :=
  Forall (fun e => is_completion e = false) es.

Definition reports_only (es : list event) : Prop :=
  Forall (fun e => is_task_report e = true) es.

(** Before the promise resolves there is no completion event.  Once it
    has resolved there is exactly one; it carries the final chunk count
    and text length and a number of images that does not exceed the
    keys saved so far; only task reports follow it. *)
Definition ordered (s : session) : Prop :=
  match stage s with
  | Resolved =>
      exists before imageCount after,
        events s = before
                   ++ CompletionEvent (chunkCount s) (List.length (responseText s))
                                      imageCount :: after /\
        no_completion before /\
        reports_only after /\
        imageCount <= List.length (cacheKeys s)
  | _ => no_completion (events s)
  end.

(** *** Well-formed object texts and the scanner *)

(** The characters the scanner passes over whatever its state. *)
Definition plain (c : code_unit) : bool :=
  negb ((c =? 34) || (c =? 92) || (c =? 123) || (c =? 125))%N.

(** A text the scanner crosses, outside a string and at a positive
    depth, without stopping and without changing its state. *)
Definition neutral (t : jsstring) : Prop :=
  forall rest i d,
    (1 <= d)%Z ->
    scan (t ++ rest) i d false false = scan rest (i + List.length t) d false false.

(** A string body up to its closing quote: crossed inside a string, it
    leaves the scanner outside. *)
Definition closes_string (t : jsstring) : Prop :=
  forall rest i d,
    scan (t ++ rest) i d true false = scan rest (i + List.length t) d false false.

(** The text of one JSON object, from its opening to its closing brace,
    that [JSON.parse] accepts as [v] and the extractor does not reject. *)
Definition well_formed_object (t : jsstring) (v : json) : Prop :=
  (exists t', t = 123%N :: t') /\
  List.last t 0%N = 125%N /\
  JSON_parse t = Some v /\
  exists r, extractContentFromJSON v = Ok r.


(** The images the generic walk collects from parts: every inlineData
    part whose data and mimeType are both non-empty. *)
Definition walk_images (ps : list part) : list imageData :=
  flat_map (fun p => match p with
                     | InlinePart (c :: d) (c' :: m) =>
                         [{| data := JString (c :: d); mimeType := JString (c' :: m) |}]
                     | _ => []
                     end) ps.

(** *** The turns of the event loop as a relation *)

(** [transition s a s']: the turn [a] can happen in [s] and leads to
    [s']; one rule per branch of [step]. *)
Inductive transition : session -> action -> session -> Prop :=
| T_data s chunk :
    stage s = Streaming ->
    transition s (Data chunk) (on_data s chunk)
| T_end s :
    stage s = Streaming ->
    transition s End (on_end s)
| T_persist s o t done img todo :
    stage s = Finalizing t done (img :: todo) ->
    may_end img o = true ->
    transition s (Persist o)
      (with_stage
         (with_keys_tasks_events s (cacheKeys s ++ opt_list (saved_key o))
                                 (tasks s) (events s))
         (Finalizing t (done ++ [(img, saved_key o)]) todo))
| T_finish s t done :
    stage s = Finalizing t done [] ->
    transition s Finish
      (finish (with_keys_tasks_events s (cacheKeys s) (tasks s)
                 (events s ++ [CompleteEvent {| c_text := t; c_images := done |}
                                             (chunkCount s)])))
| T_settle s i o img :
    nth_error (tasks s) i = Some (InFlight img) ->
    may_end img o = true ->
    transition s (Settle i o)
      (with_keys_tasks_events s (cacheKeys s ++ opt_list (saved_key o))
         (replace_nth i (match o with
                         | Saved k => Fulfilled k
                         | Failed m => Rejected m
                         end) (tasks s))
         (events s))
| T_image s i k :
    nth_error (tasks s) i = Some (Fulfilled k) ->
    transition s (Deliver i)
      (with_keys_tasks_events s (cacheKeys s) (remove_nth i (tasks s))
                              (events s ++ [ImageEvent k]))
| T_error s i m :
    nth_error (tasks s) i = Some (Rejected m) ->
    transition s (Deliver i)
      (with_keys_tasks_events s (cacheKeys s) (remove_nth i (tasks s))
         (events s ++ [ErrorEvent (lit "Failed to save image: " ++ m)])).

(** *** The text a session streams *)

Definition content_of (e : event) : jsstring :=
  match e with TextEvent content _ _ _ => content | _ => [] end.

(** The contents of the text events, one after the other. *)
Definition streamed_text (es : list event) : jsstring := flat_map content_of es.

(** Every text event has a non-empty content, and its [accumulated]
    field is the text accumulated before it followed by its content. *)
Fixpoint accumulates (acc : jsstring) (es : list event) : Prop :=
  match es with
  | [] => True
  | TextEvent content accumulated _ _ :: es' =>
      content <> [] /\ accumulated = acc ++ content /\ accumulates accumulated es'
  | _ :: es' => accumulates acc es'
  end.

(** *** The turn at which the promise resolves *)

(** The completion event as the [end] handler makes it in the state
    [s]: the chunk count, the length of the accumulated text and the
    number of keys saved, as they are then. *)
Definition completion_of (s : session) : event :=
  CompletionEvent (chunkCount s) (List.length (responseText s))
                  (List.length (cacheKeys s)).

(** The turns [turns] lead from [s0] to [s], and the promise resolves
    on the way: at a turn [a], the end of the stream or the return of
    the generic walk, taken in a state [s1] that holds no completion
    event.  The turn saves no key, and the last event it emits is the
    completion event made in the state [s2] it leads to.  The turns
    that follow add only reports of unawaited calls to the events, leave
    the chunk count and the text as they are, and append the keys they
    save. *)
Definition resolved_from (s0 : session) (turns : list action) (s : session) : Prop :=
  exists turns1 a turns2 s1 s2 before late more,
    turns = turns1 ++ a :: turns2 /\
    run s0 turns1 = Some s1 /\ step s1 a = Some s2 /\ run s2 turns2 = Some s /\
    (a = End \/ a = Finish) /\
    stage s1 <> Resolved /\ stage s2 = Resolved /\ stage s = Resolved /\
    no_completion (events s1) /\
    cacheKeys s2 = cacheKeys s1 /\
    events s2 = before ++ [completion_of s2] /\ no_completion before /\
    events s = events s2 ++ late /\ reports_only late /\
    chunkCount s = chunkCount s2 /\
    responseText s = responseText s2 /\
    cacheKeys s = cacheKeys s2 ++ more.

(** *** Counting chunks and text events *)

Definition is_data (a : action) : bool :=
  match a with Data _ => true | _ => false end.

(** The number of chunks the upstream delivered in a sequence of turns. *)
Definition chunks_of (turns : list action) : nat := List.length (filter is_data turns).

Definition is_text (e : event) : bool :=
  match e with TextEvent _ _ _ _ => true | _ => false end.

Definition count_text (es : list event) : nat := List.length (filter is_text es).

(** The [end] handler interprets the buffer once more, so a session
    that has left the streaming stage may hold one interpretation more
    than chunks. *)
Definition at_end (s : session) : nat :=
  match stage s with Streaming => 0 | _ => 1 end.

(** *** Where the saved keys are *)

(** The keys the generic walk has saved for its images. *)
Definition walk_keys (done : list (imageData * option jsstring)) : list jsstring :=
  flat_map (fun p => opt_list (snd p)) done.

(** The keys an event reports as saved by one call of
    [handleImageData]: an image event reports the key of an unawaited
    call, a complete event the keys of the generic walk. *)
Definition reported_keys (e : event) : list jsstring :=
  match e with
  | ImageEvent k => [k]
  | CompleteEvent d _ => walk_keys (c_images d)
  | _ => []
  end.

(** The key of a call that has returned and whose [then] callback has
    not run yet. *)
Definition task_keys (t : task) : list jsstring :=
  match t with Fulfilled k => [k] | _ => [] end.

(** The keys of a generic walk that has not returned yet. *)
Definition stage_keys (p : phase) : list jsstring :=
  match p with Finalizing _ done _ => walk_keys done | _ => [] end.

Definition accounted (s : session) : list jsstring :=
  flat_map reported_keys (events s) ++ flat_map task_keys (tasks s)
  ++ stage_keys (stage s).

(** *** The image_keys event *)

(** Every image_keys event lists, with their number, the first keys of
    [keys]; a completion event that counts images comes with the
    image_keys event that lists as many. *)
Definition keys_listed (keys : list jsstring) (es : list event) : Prop :=
  (forall ks n, In (ImageKeysEvent ks n) es ->
                ks <> [] /\ n = List.length ks /\ ks = firstn n keys) /\
  (forall c t i, In (CompletionEvent c t i) es ->
                 i = 0 \/ In (ImageKeysEvent (firstn i keys) i) es).

(** *** The complete event *)

(** The generic walk of what [tryParseCompleteJSON] makes of the buffer
    returns with [text] and [images]. *)
Definition final_walk (s : session) (text : jsstring) (images : list imageData) : Prop :=
  extractRecursive (tryParseCompleteJSON (buffer s)) {| w_text := []; w_images := [] |}
  = Ok {| w_text := text; w_images := images |}.

(** A complete event is found only in a resolved session; it carries
    the text and the images of the generic walk of the buffer, in the
    order of the walk, and the chunk count.  While the images are being
    saved, the walk is the one of the buffer too. *)
Definition complete_is_final_walk (s : session) : Prop :=
  (forall d n, In (CompleteEvent d n) (events s) ->
               stage s = Resolved /\
               final_walk s (c_text d) (List.map fst (c_images d)) /\
               n = chunkCount s) /\
  (forall t done todo, stage s = Finalizing t done todo ->
                       final_walk s t (List.map fst done ++ todo)).

(** *** What a generic walk adds *)

Definition nothing_walked : walked := {| w_text := []; w_images := [] |}.

(** The result [r] extended by what a walk from nothing collected. *)
Definition after_walk (r w : walked) : walked :=
  {| w_text := w_text r ++ w_text w; w_images := w_images r ++ w_images w |}.

(** *** Values that can be printed *)

(** No object inside the value has a property named [toString]. *)
Fixpoint printable (v : json) : bool :=
  match v with
  | JArray l => forallb printable l
  | JObject m =>
      negb (existsb (fun kv => JsString.eqb (fst kv) (lit "toString")) m)
      && forallb (fun kv => printable (snd kv)) m
  | _ => true
  end.

(** *** Bytes and chunks of bytes *)




(** *** The nesting of a value *)

(** How deep arrays and objects nest in a value. *)
Fixpoint nesting (v : json) : nat :=
  match v with
  | JArray l => S (list_max (List.map nesting l))
  | JObject m => S (list_max (List.map (fun kv => nesting (snd kv)) m))
  | _ => 0
  end.

(** A nesting that the recursive conversions and walks of the service
    go through on the call stack of any engine; the responses of the
    upstream service nest 6 deep. *)
Definition shallow : nat := 100.

End Vocabulary.

(** ** Proof steps *)

Ltac split_if :=
  match goal with
  | |- context [if ?b then _ else _] => destruct b eqn:?
  end.

Ltac split_scan H :=
  repeat match type of H with
         | context [if ?b then _ else _] => destruct b eqn:?
         end.

(** Both sides are concatenations of the same pieces. *)
Ltac same_pieces :=
  subst; repeat (rewrite <- app_assoc || rewrite <- app_comm_cons);
  cbn [app]; repeat (rewrite <- app_assoc || rewrite <- app_comm_cons);
  reflexivity.

(** Turn the equations between lists into equations between lengths. *)
Ltac lengths :=
  unfold jsstring, code_unit in *;
  repeat match goal with
         | H : @eq (list _) _ _ |- _ =>
             apply (f_equal (@List.length _)) in H;
             repeat (rewrite length_app in H || simpl List.length in H)
         end.

(** * Properties *)

Import Float64 Json Js AIService Session Samples Vocabulary.

(** ** The model evaluated on sample inputs *)

Lemma eqb_eq a b : JsString.eqb a b = true <-> a = b.
Proof.
  revert b; induction a as [|x a IH]; intros [|y b]; simpl; split;
    try congruence; try discriminate.
  - intros H. apply andb_true_iff in H as [H1 H2].
    apply N.eqb_eq in H1. apply IH in H2. congruence.
  - intros H. injection H as -> ->. rewrite N.eqb_refl. simpl.
    now apply IH.
Qed.

Example lit_quote : lit "{'a':1}" = [123; 34; 97; 34; 58; 49; 125]%N.
Proof. reflexivity. Qed.

Example digits_1205 : digits 1205 = lit "1205".
Proof. reflexivity. Qed.

Example trim_pads : trim (lit "  x y ") = lit "x y".
Proof. reflexivity. Qed.

Example code_points_pair :
  code_points [97; 55357; 56832; 98]%N = [[97]; [55357; 56832]; [98]]%N.
Proof. reflexivity. Qed.

Section Float64Examples.
Local Open Scope Z_scope.

Example one_is : of_decimal false 1 0 = Finite false (2 ^ 52)%N (-52).
Proof. reflexivity. Qed.

Example tenth_prints : toString (of_decimal false 1 (-1)) = lit "0.1".
Proof. vm_compute. reflexivity. Qed.

Example big_prints : toString (of_decimal false 1 21) = lit "1e+21".
Proof. vm_compute. reflexivity. Qed.

Example int_prints : toString (of_decimal true 12345 1) = lit "-123450".
Proof. vm_compute. reflexivity. Qed.

Example small_prints : toString (of_decimal false 15 (-8)) = lit "1.5e-7".
Proof. vm_compute. reflexivity. Qed.

Example denormal_prints : toString (of_decimal false 3 (-324)) = lit "5e-324".
Proof. vm_compute. reflexivity. Qed.

Example third_prints :
  toString (of_decimal false 3333333333333333333333 (-22)) = lit "0.3333333333333333".
Proof. vm_compute. reflexivity. Qed.

Example safe_prints :
  toString (of_decimal false 9007199254740993 0) = lit "9007199254740992".
Proof. vm_compute. reflexivity. Qed.

Example max_prints :
  toString (of_decimal false 17976931348623157 292) = lit "1.7976931348623157e+308".
Proof. vm_compute. reflexivity. Qed.

Example overflow_is : of_decimal false 18 307 = Infinite false.
Proof. vm_compute. reflexivity. Qed.

Example underflow_falsy : truthy (of_decimal false 2 (-324)) = false.
Proof. vm_compute. reflexivity. Qed.

Example micro_prints : toString (of_decimal false 1 (-6)) = lit "0.000001".
Proof. vm_compute. reflexivity. Qed.

Example frac_prints : toString (of_decimal false 12345 (-2)) = lit "123.45".
Proof. vm_compute. reflexivity. Qed.

End Float64Examples.

Example parse_nested :
  JSON_parse (lit " {'a': [1, true, null], 'b': {'c': 'x\ny'}} ")
  = Some (JObject [(lit "a", JArray [JNumber (of_N 1); JBool true; JNull]);
                   (lit "b", JObject [(lit "c", JString [120; 10; 121]%N)])]).
Proof. vm_compute. reflexivity. Qed.

Example parse_duplicate_key :
  JSON_parse (lit "{'b':1,'a':2,'b':3,'10':4,'9':5}")
  = Some (JObject [(lit "9", JNumber (of_N 5)); (lit "10", JNumber (of_N 4));
                   (lit "b", JNumber (of_N 3)); (lit "a", JNumber (of_N 2))]).
Proof. vm_compute. reflexivity. Qed.

Example parse_unicode_escape :
  JSON_parse (lit "'\u4e2D'") = Some (JString [20013%N]).
Proof. vm_compute. reflexivity. Qed.

Example parse_rejects_bare_key : JSON_parse (lit "{a}") = None.
Proof. vm_compute. reflexivity. Qed.

Example parse_rejects_trailing : JSON_parse (lit "{} x") = None.
Proof. vm_compute. reflexivity. Qed.

Example parse_rejects_leading_zero : JSON_parse (lit "[01]") = None.
Proof. vm_compute. reflexivity. Qed.

Example parse_rejects_trailing_comma : JSON_parse (lit "[1,]") = None.
Proof. vm_compute. reflexivity. Qed.

Example parse_rejects_control : JSON_parse [34; 10; 34]%N = None.
Proof. vm_compute. reflexivity. Qed.

Example to_string_array :
  ToString (JArray [JNumber (of_N 1); JNull; JArray [JString (lit "a"); JBool true]])
  = Ok (lit "1,,a,true").
Proof. vm_compute. reflexivity. Qed.

Example to_string_hostile : ToString (JObject [(lit "toString", JNull)]) = Throw TypeError.
Proof. reflexivity. Qed.

Example gt_zero_hex : gt_zero (Some (JString (lit " 0x10 "))) = Ok true.
Proof. vm_compute. reflexivity. Qed.

Example hexadecimal_value : StringToNumber (lit "0x1f") = of_N 31.
Proof. vm_compute. reflexivity. Qed.

Example gt_zero_words : gt_zero (Some (JString (lit "five"))) = Ok false.
Proof. vm_compute. reflexivity. Qed.

Example gt_zero_box : gt_zero (Some (JArray [JString (lit "2.5e1")])) = Ok true.
Proof. vm_compute. reflexivity. Qed.

Example gt_zero_pair : gt_zero (Some (JArray [JNumber (of_N 1); JNumber (of_N 2)])) = Ok false.
Proof. vm_compute. reflexivity. Qed.

Example extract_hello :
  parse_then_extract (lit "{'candidates':[{'content':{'parts':[{'text':'Hello'}]}}]}")
  = Ok {| text := lit "Hello"; image := None |}.
Proof. vm_compute. reflexivity. Qed.

Example extract_image_default_mime :
  parse_then_extract
    (lit "{'candidates':[{'content':{'parts':[{'inlineData':{'data':'QUJD'}}]}}]}")
  = Ok {| text := [];
          image := Some {| data := JString (lit "QUJD");
                           mimeType := JString (lit "image/png") |} |}.
Proof. vm_compute. reflexivity. Qed.

Example extract_blocked :
  parse_then_extract (lit "{'promptFeedback':{'blockReason':'SAFETY'}}")
  = Throw (Error (lit "Request blocked: SAFETY")).
Proof. vm_compute. reflexivity. Qed.

Example extract_null_candidate :
  parse_then_extract (lit "{'candidates':[null]}") = Throw TypeError.
Proof. vm_compute. reflexivity. Qed.

Example extract_unshaped :
  parse_then_extract (lit "{'text':'loose'}") = Ok {| text := []; image := None |}.
Proof. vm_compute. reflexivity. Qed.

Example extract_string_candidates :
  parse_then_extract (lit "{'candidates':'abc'}") = Ok {| text := []; image := None |}.
Proof. vm_compute. reflexivity. Qed.

Example extract_object_candidates :
  parse_then_extract (lit "{'candidates':{'length':'2'}}") = Throw TypeError.
Proof. vm_compute. reflexivity. Qed.

Example walk_loose :
  (v <- JSON_parse_or_throw
          (lit "{'b':{'text':'x'},'1':{'text':'y','inlineData':{'data':'d','mimeType':'m'}}}") ;;
   extractRecursive v {| w_text := []; w_images := [] |})
  = Ok {| w_text := lit "yx";
          w_images := [{| data := JString (lit "d"); mimeType := JString (lit "m") |}] |}.
Proof. vm_compute. reflexivity. Qed.

Example finalize_parser_padded :
  tryParseCompleteJSON (lit "  {'a':true} ") = JObject [(lit "a", JBool true)].
Proof. vm_compute. reflexivity. Qed.

Example finalize_parser_prefixed : tryParseCompleteJSON (lit "x {'a':true}") = JNull.
Proof. vm_compute. reflexivity. Qed.

Example two_chunks_events :
  events (stream [hello; world])
  = [TextEvent (lit "Hello") (lit "Hello") 1 false;
     TextEvent (lit " World") (lit "Hello World") 2 false;
     CompletionEvent 2 11 0].
Proof. vm_compute. reflexivity. Qed.

Example two_chunks_run :
  option_map events (run start [Data hello; Data world; End])
  = Some (events (stream [hello; world])).
Proof. vm_compute. reflexivity. Qed.

(** ** The scanner and the buffer *)

Lemma indexOf_app c b m i : indexOf c b = Some i -> indexOf c (b ++ m) = Some i.
Proof.
  revert i; induction b as [|x b IH]; simpl; intros i H; [discriminate|].
  destruct (N.eqb x c); [assumption|].
  destruct (indexOf c b) as [j|]; [|discriminate].
  now rewrite (IH j eq_refl).
Qed.

Lemma indexOf_lt c b i : indexOf c b = Some i -> i < List.length b.
Proof.
  revert i; induction b as [|x b IH]; simpl; intros i H; [discriminate|].
  destruct (N.eqb x c).
  - injection H as <-. lia.
  - destruct (indexOf c b) as [j|]; [|discriminate].
    injection H as <-. specialize (IH j eq_refl). lia.
Qed.

Lemma indexOf_skipn c b i :
  indexOf c b = Some i -> exists rest, skipn i b = c :: rest.
Proof.
  revert i; induction b as [|x b IH]; simpl; intros i H; [discriminate|].
  destruct (N.eqb x c) eqn:E.
  - injection H as <-. apply N.eqb_eq in E. subst. now exists b.
  - destruct (indexOf c b) as [j|]; [|discriminate].
    injection H as <-. simpl. now apply IH.
Qed.

Lemma scan_app cs m i d s e k :
  scan cs i d s e = Some k -> scan (cs ++ m) i d s e = Some k.
Proof.
  revert i d s e; induction cs as [|c cs IH]; simpl; intros i d s e H;
    [discriminate|].
  split_scan H; auto.
Qed.

Lemma scan_range cs i d s e k :
  scan cs i d s e = Some k -> i <= k < i + List.length cs.
Proof.
  revert i d s e; induction cs as [|c cs IH]; simpl; intros i d s e H;
    [discriminate|].
  split_scan H;
    try (apply IH in H; lia);
    injection H as <-; lia.
Qed.

Lemma skipn_app_le {A} n (b m : list A) :
  n <= List.length b -> skipn n (b ++ m) = skipn n b ++ m.
Proof.
  intros H. rewrite skipn_app.
  replace (n - List.length b) with 0 by lia. reflexivity.
Qed.

Lemma substring_app i j (b m : jsstring) :
  j <= List.length b -> substring i j (b ++ m) = substring i j b.
Proof.
  intros H. unfold substring.
  destruct (Nat.le_gt_cases i (List.length b)) as [Hi|Hi].
  - rewrite skipn_app_le by assumption.
    rewrite firstn_app.
    replace (j - i - List.length (skipn i b)) with 0
      by (rewrite length_skipn; lia).
    simpl. now rewrite app_nil_r.
  - replace (j - i) with 0 by lia. reflexivity.
Qed.

Lemma find_end_app b m startIndex endIndex :
  startIndex <= List.length b ->
  find_end b startIndex = Some endIndex ->
  find_end (b ++ m) startIndex = Some endIndex.
Proof.
  unfold find_end. intros Hs H.
  rewrite skipn_app_le by assumption. now apply scan_app.
Qed.

Lemma find_end_range b startIndex endIndex :
  startIndex <= List.length b ->
  find_end b startIndex = Some endIndex ->
  startIndex <= endIndex < List.length b.
Proof.
  unfold find_end. intros Hs H. apply scan_range in H.
  rewrite length_skipn in H. lia.
Qed.

(** The span, what precedes it and what follows it make up the buffer. *)
Lemma buffer_split (b : jsstring) startIndex endIndex :
  startIndex <= endIndex ->
  b = firstn startIndex b ++ substring startIndex (endIndex + 1) b
      ++ skipn (endIndex + 1) b.
Proof.
  intros H. unfold substring.
  rewrite <- (firstn_skipn startIndex b) at 1. f_equal.
  rewrite <- (firstn_skipn (endIndex + 1 - startIndex) (skipn startIndex b)) at 1.
  f_equal. rewrite skipn_skipn. f_equal. lia.
Qed.

(** ** One call of [processStreamBuffer] *)

Lemma processStreamBuffer_cases b :
  (exists startIndex endIndex v r,
      indexOf 123%N b = Some startIndex /\
      find_end b startIndex = Some endIndex /\
      try_block (substring startIndex (endIndex + 1) b) = Ok (v, r) /\
      processStreamBuffer b = extraction b endIndex v r)
  \/ (exists w, processStreamBuffer b = unchanged b w).
Proof.
  unfold processStreamBuffer.
  destruct (indexOf 123%N b) as [st|] eqn:Hi; [|right; eauto].
  destruct (find_end b st) as [e|] eqn:He; [|right; eauto].
  destruct (try_block _) as [[v r]|err] eqn:Ht; [|right; eauto].
  left. exists st, e, v, r. auto.
Qed.

Lemma processStreamBuffer_found b startIndex endIndex :
  indexOf 123%N b = Some startIndex ->
  find_end b startIndex = Some endIndex ->
  forall m,
    processStreamBuffer (b ++ m)
    = match try_block (substring startIndex (endIndex + 1) b) with
      | Ok (v, r) => extraction (b ++ m) endIndex v r
      | Throw err => unchanged (b ++ m) (Some err)
      end.
Proof.
  intros Hi He m.
  pose proof (indexOf_lt _ _ Hi) as Hlt.
  pose proof (find_end_range b (Nat.lt_le_incl _ _ Hlt) He) as Hr.
  unfold processStreamBuffer.
  rewrite (indexOf_app _ _ m Hi), (find_end_app b m (Nat.lt_le_incl _ _ Hlt) He).
  rewrite substring_app by lia.
  destruct (try_block _) as [[v r]|err]; reflexivity.
Qed.

Lemma extraction_app b m endIndex v r :
  endIndex < List.length b ->
  extraction (b ++ m) endIndex v r
  = {| p_text := text r; remainingBuffer := skipn (endIndex + 1) b ++ m;
       spawned := image r; warned := None; parsedObject := Some v |}.
Proof.
  intros H. unfold extraction. now rewrite skipn_app_le by lia.
Qed.

Lemma indexOf_firstn c b i : indexOf c b = Some i -> indexOf c (firstn i b) = None.
Proof.
  revert i; induction b as [|x b IH]; simpl; intros i H; [discriminate|].
  destruct (N.eqb x c) eqn:E.
  - now injection H as <-.
  - destruct (indexOf c b) as [j|]; [|discriminate].
    injection H as <-. simpl. rewrite E. now rewrite (IH j eq_refl).
Qed.

(** ** Buffer atomicity *)

(** C8: a [data] call replaces the buffer by what [processStreamBuffer]
    returns.  When the call surfaces an object, the accumulated buffer is
    [pre ++ span ++ rest] where [pre] holds no opening brace, [span] is
    the text that was deserialised and extracted without an exception,
    and the new buffer is exactly [rest].  When it surfaces none (no
    balanced span, or a failure inside the [try] block) the accumulated
    buffer is kept whole and no text or image comes out of the call. *)
Theorem buffer_commit_is_atomic (s : session) (chunk : jsstring) :
  let b := buffer s ++ chunk in
  let p := processStreamBuffer b in
  buffer (on_data s chunk) = remainingBuffer p /\
  match parsedObject p with
  | Some v =>
      exists pre span r,
        b = pre ++ span ++ remainingBuffer p /\
        indexOf 123%N pre = None /\
        try_block span = Ok (v, r) /\
        p_text p = text r /\ spawned p = image r
  | None => remainingBuffer p = b /\ p_text p = [] /\ spawned p = None
  end.
Proof.
  cbv zeta. split; [reflexivity|].
  destruct (processStreamBuffer_cases (buffer s ++ chunk))
    as [(st & e & v & r & Hi & He & Ht & ->)|[w ->]]; simpl.
  - pose proof (indexOf_lt _ _ Hi) as Hlt.
    pose proof (find_end_range _ (Nat.lt_le_incl _ _ Hlt) He) as Hr.
    exists (firstn st (buffer s ++ chunk)),
      (substring st (e + 1) (buffer s ++ chunk)), r.
    repeat split; auto.
    + apply buffer_split. lia.
    + now apply indexOf_firstn.
  - auto.
Qed.

(** ** Malformed spans *)

(** C2, refuted as stated: in [{oops}] followed by a well-formed object
    the span [{oops}] is balanced and is not JSON; the call returns the
    whole buffer, not the buffer after the span, and the session that
    receives it surfaces neither the later object nor its text. *)
Lemma malformed_span_is_not_skipped :
  find_end oops_then_hello 0 = Some 5 /\
  JSON_parse (substring 0 6 oops_then_hello) = None /\
  JSON_parse (skipn 6 oops_then_hello) <> None /\
  remainingBuffer (processStreamBuffer oops_then_hello) = oops_then_hello /\
  remainingBuffer (processStreamBuffer oops_then_hello) <> skipn 6 oops_then_hello /\
  parsedObjects (stream [oops_then_hello]) = [] /\
  events (stream [oops_then_hello]) = [CompletionEvent 1 0 0].
Proof. vm_compute. repeat split; discriminate. Qed.

(** C2 (amended): when the accumulated buffer holds a balanced span that
    [JSON.parse] rejects, the [data] call keeps the whole buffer, emits
    no event (in particular no error event), surfaces no object, starts
    no task and leaves the stage alone; the [catch] block only logs the
    SyntaxError.  The span is met again by every later call, whatever is
    appended, so nothing behind it is extracted by [processStreamBuffer]. *)
Theorem malformed_span_blocks_the_buffer (s : session) (chunk : jsstring)
    (startIndex endIndex : nat) :
  indexOf 123%N (buffer s ++ chunk) = Some startIndex ->
  find_end (buffer s ++ chunk) startIndex = Some endIndex ->
  JSON_parse (substring startIndex (endIndex + 1) (buffer s ++ chunk)) = None ->
  let s' := on_data s chunk in
  buffer s' = buffer s ++ chunk /\
  events s' = events s /\
  parsedObjects s' = parsedObjects s /\
  tasks s' = tasks s /\
  stage s' = stage s /\
  forall later,
    processStreamBuffer (buffer s' ++ later)
    = unchanged (buffer s' ++ later) (Some SyntaxError).
Proof.
  intros Hi He Hp. cbv zeta.
  assert (Ht : try_block (substring startIndex (endIndex + 1) (buffer s ++ chunk))
               = Throw SyntaxError).
  { unfold try_block, JSON_parse_or_throw. now rewrite Hp. }
  pose proof (processStreamBuffer_found _ Hi He) as Hf.
  assert (H0 : processStreamBuffer (buffer s ++ chunk)
               = unchanged (buffer s ++ chunk) (Some SyntaxError)).
  { specialize (Hf []). rewrite app_nil_r, Ht in Hf. exact Hf. }
  unfold on_data. rewrite H0. simpl.
  repeat rewrite app_nil_r.
  repeat split; auto.
  intros later. rewrite Hf, Ht. reflexivity.
Qed.

Lemma malformed_span_blocks_the_buffer_witness :
  buffer (on_data start oops_then_hello) = buffer start ++ oops_then_hello /\
  events (on_data start oops_then_hello) = events start /\
  parsedObjects (on_data start oops_then_hello) = parsedObjects start /\
  tasks (on_data start oops_then_hello) = tasks start /\
  stage (on_data start oops_then_hello) = stage start /\
  forall later,
    processStreamBuffer (buffer (on_data start oops_then_hello) ++ later)
    = unchanged (buffer (on_data start oops_then_hello) ++ later) (Some SyntaxError).
Proof.
  apply (@malformed_span_blocks_the_buffer start oops_then_hello 0 5);
    vm_compute; reflexivity.
Defined.

(** ** The finalize-time parser *)

Lemma JSON_parse_empty : JSON_parse [] = None.
Proof. reflexivity. Qed.

(** C10: [tryParseCompleteJSON] is total (its model has no exceptional
    result); it returns what [JSON.parse] makes of the trimmed input
    when that succeeds and [null] otherwise.  The repair branch reads
    [cleaned] outside the block that declares it, so it always ends in a
    ReferenceError, which the inner [catch] turns into [null]. *)
Theorem tryParseCompleteJSON_is_direct_parse (buffer : jsstring) :
  tryParseCompleteJSON buffer
  = match JSON_parse (trim buffer) with
    | Some v => v
    | None => JNull
    end
  /\ repair cleaned_in_catch_scope = Throw ReferenceError.
Proof.
  split; [|reflexivity].
  unfold tryParseCompleteJSON, JSON_parse_or_throw.
  destruct (trim buffer) as [|c cs] eqn:E.
  - now rewrite JSON_parse_empty.
  - destruct (JSON_parse (c :: cs)); reflexivity.
Qed.

(** Were [cleaned] in scope, the repair would recover the object that
    follows a stray prefix; as written it does not. *)
Example repair_is_out_of_reach :
  repair (Some (lit "x {'a':true}")) = Ok (Some (JObject [(lit "a", JBool true)])) /\
  tryParseCompleteJSON (lit "x {'a':true}") = JNull.
Proof. vm_compute. split; reflexivity. Qed.

(** ** Braces and escapes inside strings *)

(** C9: the input [nested_brace], an object whose [text] string holds two
    escaped quotes and a closing brace, is scanned to its last
    character; the session that receives it surfaces exactly one object
    and keeps nothing in the buffer, and the [text] field of that object
    is the string with the quotes unescaped and the brace in place. *)
Theorem nested_brace_is_one_object :
  find_end nested_brace 0 = Some (List.length nested_brace - 1) /\
  parsedObjects (stream [nested_brace])
  = [JObject [(lit "text", JString (lit "a 'nested' } brace"))]] /\
  buffer (fold_left on_data [nested_brace] start) = [] /\
  option_map (fun v => Get (Some v) (lit "text"))
             (parsedObject (processStreamBuffer nested_brace))
  = Some (Ok (Some (JString (lit "a 'nested' } brace")))).
Proof. vm_compute. repeat split; reflexivity. Qed.

(** ** Block reasons *)

(** C3 at its failing input: the extractor throws an error carrying the
    reason, the [catch] block of [processStreamBuffer] takes it for a
    parse failure, and the session ends with a successful completion and
    no error event; the object stays in the buffer and the generic walk
    of the [end] handler visits it. *)
Theorem blocked_object_raises_no_error_event :
  parse_then_extract blocked = Throw (Error (lit "Request blocked: SAFETY")) /\
  processStreamBuffer blocked
  = unchanged blocked (Some (Error (lit "Request blocked: SAFETY"))) /\
  option_map (fun s => (events s, stage s, buffer s))
             (run start [Data blocked; End; Finish])
  = Some ([CompleteEvent {| c_text := []; c_images := [] |} 1; CompletionEvent 1 0 0],
          Resolved, blocked).
Proof. vm_compute. repeat split; reflexivity. Qed.

(** ** Shaped and generic interpretation *)

(** C6 at its failing input: two objects in one chunk.  The [data] call
    extracts the first; the [end] handler extracts the second with the
    shaped interpretation, does not assign [buffer], and hands the same
    text to [tryParseCompleteJSON] and the generic walk, which reads the
    same [text] again. *)
Theorem second_object_is_interpreted_twice :
  option_map (fun s => (events s, parsedObjects s))
             (run start [Data (hello ++ world); End; Finish])
  = Some ([TextEvent (lit "Hello") (lit "Hello") 1 false;
           TextEvent (lit " World") (lit "Hello World") 1 true;
           CompleteEvent {| c_text := lit " World"; c_images := [] |} 1;
           CompletionEvent 1 11 0],
          List.map (fun t => match JSON_parse t with Some v => v | None => JNull end)
                   [hello; world]) /\
  tryParseCompleteJSON (buffer (on_end (on_data start (hello ++ world))))
  = match JSON_parse world with Some v => v | None => JNull end.
Proof. vm_compute. split; reflexivity. Qed.

(** ** Extraction from shaped objects *)

Lemma eqb_refl (k : jsstring) : JsString.eqb k k = true.
Proof. now apply eqb_eq. Qed.

Lemma Get_only k v : Get (Some (JObject [(k, v)])) k = Ok (Some v).
Proof. simpl. now rewrite eqb_refl. Qed.

Lemma extract_part_text t r :
  extract_part (part_json (TextPart t)) r
  = Ok {| text := text r ++ t; image := image r |}.
Proof.
  unfold extract_part, part_json. rewrite Get_only. simpl bind.
  destruct t as [|c t].
  - destruct r. simpl. now rewrite app_nil_r.
  - reflexivity.
Qed.

Lemma extract_part_inline d m r :
  extract_part (part_json (InlinePart d m)) r
  = Ok {| text := text r; image := slot_after (image r) (InlinePart d m) |}.
Proof.
  destruct d as [|c d]; [destruct r; reflexivity|].
  destruct m as [|c' m]; reflexivity.
Qed.

Lemma for_of_parts ps r :
  for_of extract_part (List.map part_json ps) r
  = Ok {| text := text r ++ all_text ps; image := last_image ps (image r) |}.
Proof.
  revert r; induction ps as [|p ps IH]; intros r; simpl.
  - destruct r. simpl. now rewrite app_nil_r.
  - destruct p as [t|d m].
    + rewrite extract_part_text. simpl bind. rewrite IH. simpl.
      now rewrite <- app_assoc.
    + rewrite extract_part_inline. simpl bind. rewrite IH. reflexivity.
Qed.

Lemma extract_candidate_parts ps r :
  extract_candidate (candidate_json ps) r
  = Ok {| text := text r ++ all_text ps; image := last_image ps (image r) |}.
Proof.
  unfold extract_candidate, candidate_json. rewrite Get_only. simpl bind.
  apply for_of_parts.
Qed.

Lemma for_of_candidates cands r :
  for_of extract_candidate (List.map candidate_json cands) r
  = Ok {| text := text r ++ all_text (List.concat cands);
          image := last_image (List.concat cands) (image r) |}.
Proof.
  revert r; induction cands as [|ps cands IH]; intros r; simpl.
  - destruct r. simpl. now rewrite app_nil_r.
  - rewrite extract_candidate_parts. simpl bind. rewrite IH. simpl.
    unfold all_text, last_image.
    rewrite flat_map_app, fold_left_app, <- app_assoc. reflexivity.
Qed.

(** ** The length of a non-empty array is positive as a double *)

Lemma round_ratio_positive_when (p q : Z) :
  (let k := ilog2_ratio p q in
   let e := Z.max (k - 52) (-1074) in
   0 < (if 0 <=? e then p else p * 2 ^ (- e)) / (if 0 <=? e then q * 2 ^ e else q))%Z ->
  Float64.gt_zero (round_ratio false p q) = true.
Proof.
  cbv zeta. unfold round_ratio.
  set (e := Z.max (ilog2_ratio p q - 52) (-1074)).
  set (num := if (0 <=? e)%Z then p else (p * 2 ^ (- e))%Z).
  set (den := if (0 <=? e)%Z then (q * 2 ^ e)%Z else q).
  intros Hm0.
  set (m := if (2 * (num mod den) <? den)%Z then (num / den)%Z
            else if (den <? 2 * (num mod den))%Z then (num / den + 1)%Z
                 else if Z.even (num / den) then (num / den)%Z else (num / den + 1)%Z).
  assert (Hm : (0 < m)%Z) by (unfold m; repeat split_if; lia).
  destruct (m =? 2 ^ 53)%Z eqn:E53.
  - destruct (971 <? e + 1)%Z; [reflexivity|]. reflexivity.
  - destruct (971 <? e)%Z; [reflexivity|]. simpl.
    destruct (Z.to_N m) eqn:Em; [lia|reflexivity].
Qed.

Lemma of_N_positive (n : N) : (0 < n)%N -> Float64.gt_zero (of_N n) = true.
Proof.
  intros Hn. unfold of_N, of_decimal.
  destruct (N.eqb_spec n 0); [lia|].
  change (400 <? 0)%Z with false. cbv iota.
  assert (Hlog : (0 <= Z.of_N (N.log2 n))%Z) by lia.
  destruct (Z.ltb_spec (0 + Z.of_N (N.log2 n) + 1) (-330)); [lia|].
  change (0 <=? 0)%Z with true. cbv iota.
  change (10 ^ 0)%Z with 1%Z. rewrite Z.mul_1_r.
  apply round_ratio_positive_when. cbv zeta.
  set (p := Z.of_N n). assert (Hp : (0 < p)%Z) by (unfold p; lia).
  assert (Hk : ilog2_ratio p 1 = Z.log2 p).
  { unfold ilog2_ratio. change (Z.log2 1) with 0%Z. rewrite Z.sub_0_r.
    pose proof (Z.log2_nonneg p).
    destruct (Z.leb_spec 0 (Z.log2 p)); [|lia].
    pose proof (Z.log2_spec p Hp).
    destruct (Z.leb_spec (1 * 2 ^ Z.log2 p) p); [reflexivity|lia]. }
  rewrite Hk.
  pose proof (Z.log2_nonneg p) as Hnn.
  pose proof (Z.log2_spec p Hp) as [Hlo _].
  rewrite Z.max_l by lia.
  destruct (Z.leb_spec 0 (Z.log2 p - 52)) as [He|He].
  - rewrite Z.mul_1_l. apply Z.div_str_pos. split.
    + apply Z.pow_pos_nonneg; lia.
    + eapply Z.le_trans; [|exact Hlo].
      apply Z.pow_le_mono_r; lia.
  - rewrite Z.div_1_r. apply Z.mul_pos_pos; [assumption|].
    apply Z.pow_pos_nonneg; lia.
Qed.

Lemma gt_zero_length {A} (l : list A) :
  Float64.gt_zero (of_N (N.of_nat (List.length l)))
  = match l with [] => false | _ :: _ => true end.
Proof.
  destruct l as [|x l]; [reflexivity|].
  apply of_N_positive. simpl List.length. lia.
Qed.

(** C7, refuted as stated: an object with two text parts and two
    inlineData parts yields one text result, [ab], and one image, the
    second; the [data] call that receives it emits one text event and
    starts one call of [handleImageData]. *)
Lemma two_parts_give_one_delta :
  parse_then_extract two_texts_two_images
  = Ok {| text := lit "ab";
          image := Some {| data := JString (lit "BBBB");
                           mimeType := JString (lit "image/png") |} |} /\
  events (on_data start two_texts_two_images)
  = [TextEvent (lit "ab") (lit "ab") 1 false] /\
  tasks (on_data start two_texts_two_images)
  = [InFlight {| data := JString (lit "BBBB"); mimeType := JString (lit "image/png") |}].
Proof. vm_compute. repeat split; reflexivity. Qed.

(** C7 (amended): for every shaped object, extraction returns normally
    with one text, the texts of all the parts of all the candidates one
    after the other, and with one image slot, which holds the last
    inlineData part that has data (its mimeType, or image/png when that
    is empty). *)
Theorem shaped_extraction_joins_the_parts (candidates : list (list part)) :
  extractContentFromJSON (shaped candidates)
  = Ok {| text := all_text (List.concat candidates);
          image := last_image (List.concat candidates) None |}.
Proof.
  unfold extractContentFromJSON, shaped. rewrite Get_only. simpl bind.
  rewrite gt_zero_length.
  destruct candidates as [|ps candidates]; [reflexivity|].
  change (match List.map candidate_json (ps :: candidates) with
          | [] => false
          | _ :: _ => true
          end) with true.
  cbv iota. rewrite for_of_candidates. reflexivity.
Qed.

(** ** Chunking *)

Lemma extraction_shrinks b v :
  parsedObject (processStreamBuffer b) = Some v ->
  List.length (remainingBuffer (processStreamBuffer b)) < List.length b.
Proof.
  destruct (processStreamBuffer_cases b)
    as [(st & e & v' & r & Hi & He & Ht & ->)|[w ->]]; simpl; [|discriminate].
  intros _. pose proof (indexOf_lt _ _ Hi) as Hlt.
  pose proof (find_end_range _ (Nat.lt_le_incl _ _ Hlt) He) as Hr.
  rewrite length_skipn. lia.
Qed.

Lemma exhaust_fuel f b : List.length b <= f -> exhaust f b = all_objects b.
Proof.
  unfold all_objects. revert b.
  induction f as [f IH] using lt_wf_ind. intros b Hb.
  destruct f as [|f]; [now replace (List.length b) with 0 by lia|].
  destruct (List.length b) as [|n] eqn:En; simpl.
  - destruct b; [reflexivity|discriminate].
  - destruct (parsedObject (processStreamBuffer b)) as [v|] eqn:Ep; [|reflexivity].
    pose proof (extraction_shrinks b Ep) as Hs. f_equal.
    rewrite (IH f) by lia. rewrite (IH n) by lia. reflexivity.
Qed.

Lemma all_objects_unfold b :
  all_objects b
  = match parsedObject (processStreamBuffer b) with
    | Some v => v :: all_objects (remainingBuffer (processStreamBuffer b))
    | None => []
    end.
Proof.
  destruct (parsedObject (processStreamBuffer b)) as [v|] eqn:Ep.
  - pose proof (extraction_shrinks b Ep) as Hs.
    unfold all_objects at 1.
    destruct (List.length b) as [|n] eqn:En; [lia|].
    simpl. rewrite Ep. f_equal. apply exhaust_fuel. lia.
  - unfold all_objects. destruct (List.length b); simpl; [reflexivity|].
    now rewrite Ep.
Qed.

(** What a call surfaces from a buffer it surfaces from every extension
    of it, and the extension stays behind. *)
Lemma processStreamBuffer_extend b m v :
  parsedObject (processStreamBuffer b) = Some v ->
  parsedObject (processStreamBuffer (b ++ m)) = Some v /\
  remainingBuffer (processStreamBuffer (b ++ m))
  = remainingBuffer (processStreamBuffer b) ++ m.
Proof.
  destruct (processStreamBuffer_cases b)
    as [(st & e & v' & r & Hi & He & Ht & Hp)|[w Hp]];
    rewrite Hp; simpl; [|discriminate].
  intros [= <-].
  pose proof (indexOf_lt _ _ Hi) as Hlt.
  pose proof (find_end_range _ (Nat.lt_le_incl _ _ Hlt) He) as Hr.
  rewrite (processStreamBuffer_found _ Hi He m), Ht.
  rewrite extraction_app by lia. simpl. auto.
Qed.

Lemma on_data_objects s c m :
  parsedObjects (on_data s c) ++ all_objects (buffer (on_data s c) ++ m)
  = parsedObjects s ++ all_objects ((buffer s ++ c) ++ m).
Proof.
  unfold on_data; simpl.
  rewrite (all_objects_unfold ((buffer s ++ c) ++ m)).
  destruct (parsedObject (processStreamBuffer (buffer s ++ c))) as [v|] eqn:Ep.
  - destruct (processStreamBuffer_extend _ m Ep) as [-> ->].
    simpl. now rewrite <- app_assoc.
  - destruct (processStreamBuffer_cases (buffer s ++ c))
      as [(st & e & v' & r & Hi & He & Ht & Hp)|[w Hp]];
      rewrite Hp in *; simpl in *; [discriminate|].
    rewrite app_nil_r. now rewrite <- all_objects_unfold.
Qed.

Lemma feed_objects chunks s m :
  parsedObjects (fold_left on_data chunks s)
  ++ all_objects (buffer (fold_left on_data chunks s) ++ m)
  = parsedObjects s ++ all_objects (buffer s ++ List.concat chunks ++ m).
Proof.
  revert s; induction chunks as [|c chunks IH]; intros s; simpl; [reflexivity|].
  rewrite IH, on_data_objects. now rewrite <- !app_assoc.
Qed.

Lemma on_end_objects s :
  parsedObjects (on_end s)
  = parsedObjects s
    ++ match trim (buffer s) with
       | [] => []
       | _ :: _ => opt_list (parsedObject (processStreamBuffer (buffer s)))
       end.
Proof.
  unfold on_end. destruct (trim (buffer s)); [simpl; now rewrite app_nil_r|].
  cbv zeta.
  destruct (ToBoolean (Some (tryParseCompleteJSON (buffer s)))); [|reflexivity].
  destruct (extractRecursive (tryParseCompleteJSON (buffer s)) _); reflexivity.
Qed.

Lemma on_data_count s c :
  List.length (parsedObjects (on_data s c)) <= List.length (parsedObjects s) + 1.
Proof.
  unfold on_data; simpl. rewrite length_app.
  destruct (parsedObject (processStreamBuffer (buffer s ++ c))); simpl; lia.
Qed.

Lemma feed_count chunks s :
  List.length (parsedObjects (fold_left on_data chunks s))
  <= List.length (parsedObjects s) + List.length chunks.
Proof.
  revert s; induction chunks as [|c chunks IH]; intros s; simpl; [lia|].
  specialize (IH (on_data s c)). pose proof (on_data_count s c). lia.
Qed.

Lemma stream_prefix chunks :
  exists rest,
    all_objects (List.concat chunks) = parsedObjects (stream chunks) ++ rest.
Proof.
  unfold stream. rewrite on_end_objects.
  pose proof (feed_objects chunks start []) as H.
  simpl in H. rewrite !app_nil_r in H. rewrite <- H.
  set (s := fold_left on_data chunks start).
  destruct (trim (buffer s)).
  - exists (all_objects (buffer s)). now rewrite app_nil_r.
  - rewrite (all_objects_unfold (buffer s)).
    destruct (parsedObject (processStreamBuffer (buffer s))); simpl.
    + eexists. rewrite <- app_assoc. reflexivity.
    + exists []. now rewrite !app_nil_r.
Qed.

Lemma stream_count chunks :
  List.length (parsedObjects (stream chunks)) <= List.length chunks + 1.
Proof.
  unfold stream. rewrite on_end_objects, length_app.
  pose proof (feed_count chunks start) as H. simpl in H.
  destruct (trim _); simpl; [lia|].
  destruct (parsedObject _); simpl; lia.
Qed.

(** ** The completion event and the image tasks *)

Lemma no_completion_app es es' :
  no_completion es -> no_completion es' -> no_completion (es ++ es').
Proof. unfold no_completion. intros. apply Forall_app. auto. Qed.

Lemma no_completion_text es (t : jsstring) e :
  no_completion es ->
  is_completion e = false ->
  no_completion (es ++ match t with [] => [] | _ :: _ => [e] end).
Proof.
  intros H He. apply no_completion_app; [assumption|].
  destruct t; constructor; auto.
Qed.

Lemma finish_ordered s : no_completion (events s) -> ordered (finish s).
Proof.
  intros H. unfold ordered, finish; simpl.
  exists (events s ++ match cacheKeys s with
                      | [] => []
                      | _ :: _ => [ImageKeysEvent (cacheKeys s) (List.length (cacheKeys s))]
                      end), (List.length (cacheKeys s)), [].
  repeat split.
  - now rewrite <- app_assoc.
  - apply no_completion_app; [assumption|].
    destruct (cacheKeys s); constructor; auto.
  - constructor.
  - lia.
Qed.

Lemma on_data_ordered s chunk :
  stage s = Streaming -> ordered s -> ordered (on_data s chunk).
Proof.
  unfold ordered. intros Hst. unfold on_data; simpl. rewrite Hst.
  intros H. now apply no_completion_text.
Qed.

Lemma on_end_ordered s : stage s = Streaming -> ordered s -> ordered (on_end s).
Proof.
  unfold ordered at 1. intros Hst. rewrite Hst. intros H.
  unfold on_end. destruct (trim (buffer s)); [now apply finish_ordered|].
  cbv zeta.
  destruct (ToBoolean (Some (tryParseCompleteJSON (buffer s)))).
  - destruct (extractRecursive (tryParseCompleteJSON (buffer s)) _);
      unfold ordered; simpl; now apply no_completion_text.
  - apply finish_ordered. simpl. now apply no_completion_text.
Qed.

Lemma keys_grow_ordered s ks ts :
  ordered s ->
  List.length (cacheKeys s) <= List.length ks ->
  ordered (with_keys_tasks_events s ks ts (events s)).
Proof.
  unfold ordered; simpl. destruct (stage s); auto.
  intros (before & n & after & He & Hb & Ha & Hn) Hk.
  exists before, n, after. repeat split; auto. lia.
Qed.

Lemma report_ordered s ts e :
  ordered s ->
  is_task_report e = true ->
  ordered (with_keys_tasks_events s (cacheKeys s) ts (events s ++ [e])).
Proof.
  unfold ordered; simpl. intros H He.
  assert (Hc : is_completion e = false) by (destruct e; simpl in *; congruence).
  destruct (stage s);
    try (apply no_completion_app; [assumption|constructor; auto]).
  destruct H as (before & n & after & Hev & Hb & Ha & Hn).
  exists before, n, (after ++ [e]). repeat split; auto.
  - rewrite Hev, <- app_assoc. reflexivity.
  - apply Forall_app. split; [assumption|constructor; auto].
Qed.

Lemma step_ordered s a s' : ordered s -> step s a = Some s' -> ordered s'.
Proof.
  intros H Hs. unfold step in Hs.
  destruct a as [chunk| |o| |i o|i].
  - destruct (stage s) eqn:Hst; try discriminate.
    injection Hs as <-. now apply on_data_ordered.
  - destruct (stage s) eqn:Hst; try discriminate.
    injection Hs as <-. now apply on_end_ordered.
  - destruct (stage s) as [|t done todo| |] eqn:Hst; try discriminate.
    destruct todo as [|img todo]; [discriminate|].
    destruct (may_end img o); [|discriminate].
    injection Hs as <-.
    unfold ordered in *; simpl. now rewrite Hst in H.
  - destruct (stage s) as [|t done todo| |] eqn:Hst; try discriminate.
    destruct todo as [|img todo]; [|discriminate].
    injection Hs as <-.
    apply finish_ordered. simpl.
    unfold ordered in H. rewrite Hst in H.
    apply no_completion_app; [assumption|constructor; auto].
  - assert (Hs' : match nth_error (tasks s) i with
                  | Some (InFlight img) =>
                      if may_end img o then
                        Some (with_keys_tasks_events s
                                (cacheKeys s ++ opt_list (saved_key o))
                                (replace_nth i (match o with
                                                | Saved k => Fulfilled k
                                                | Failed m => Rejected m
                                                end) (tasks s))
                                (events s))
                      else None
                  | _ => None
                  end = Some s') by (destruct (stage s); exact Hs).
    clear Hs. destruct (nth_error (tasks s) i) as [[img|k|m]|]; try discriminate.
    destruct (may_end img o); [|discriminate].
    injection Hs' as <-. apply keys_grow_ordered; [assumption|].
    rewrite length_app. lia.
  - assert (Hs' : match nth_error (tasks s) i with
                  | Some (Fulfilled k) =>
                      Some (with_keys_tasks_events s (cacheKeys s)
                              (remove_nth i (tasks s)) (events s ++ [ImageEvent k]))
                  | Some (Rejected m) =>
                      Some (with_keys_tasks_events s (cacheKeys s)
                              (remove_nth i (tasks s))
                              (events s ++ [ErrorEvent (lit "Failed to save image: " ++ m)]))
                  | _ => None
                  end = Some s') by (destruct (stage s); exact Hs).
    clear Hs. destruct (nth_error (tasks s) i) as [[img|k|m]|]; try discriminate;
      injection Hs' as <-; now apply report_ordered.
Qed.

Lemma run_ordered turns s s' : ordered s -> run s turns = Some s' -> ordered s'.
Proof.
  revert s; induction turns as [|a turns IH]; simpl; intros s H Hr.
  - now injection Hr as <-.
  - destruct (step s a) as [s1|] eqn:Hs; [|discriminate].
    eapply IH; [|exact Hr]. eapply step_ordered; eauto.
Qed.

(** C4, refuted as stated.  After an empty object and a stray character
    the [end] handler meets an object with an image: it starts
    [handleImageData] without waiting, finds nothing to await, and emits
    the completion event with an image count of 0 while the task is in
    flight; the image event comes after it.  And when the generic walk
    throws, the promise is rejected and no completion event is emitted. *)
Lemma completion_overtakes_image :
  option_map (fun s => (events s, tasks s, stage s))
             (run start [Data stray_then_image; End])
  = Some ([CompletionEvent 1 0 0],
          [InFlight {| data := JString (lit "QUJD"); mimeType := JString (lit "image/png") |}],
          Resolved) /\
  option_map (fun s => (events s, cacheKeys s))
             (run start [Data stray_then_image; End; Settle 0 (Saved (lit "k1")); Deliver 0])
  = Some ([CompletionEvent 1 0 0; ImageEvent (lit "k1")], [lit "k1"]) /\
  option_map (fun s => (events s, stage s)) (run start [Data hostile_text; End])
  = Some ([], RejectedWith TypeError).
Proof. vm_compute. repeat split; reflexivity. Qed.

(** ** The scanner on well-formed JSON *)

Lemma scan_plain t rest i d inString :
  Forall (fun c => plain c = true) t ->
  scan (t ++ rest) i d inString false
  = scan rest (i + List.length t) d inString false.
Proof.
  intros H. revert i. induction H as [|c t Hc Ht IH]; intros i; simpl.
  - f_equal. lia.
  - unfold plain in Hc.
    apply negb_true_iff in Hc.
    repeat (apply orb_false_iff in Hc; destruct Hc as [Hc ?]).
    rewrite H0, Hc. simpl. rewrite H1, H.
    destruct inString; simpl; rewrite IH; f_equal; lia.
Qed.

Lemma neutral_plain t : Forall (fun c => plain c = true) t -> neutral t.
Proof. intros H rest i d _. now apply scan_plain. Qed.

Lemma neutral_nil : neutral [].
Proof. apply neutral_plain. constructor. Qed.

Lemma neutral_app a b : neutral a -> neutral b -> neutral (a ++ b).
Proof.
  intros Ha Hb rest i d Hd.
  rewrite <- app_assoc, Ha, Hb by assumption.
  rewrite length_app. f_equal. lia.
Qed.

Lemma neutral_cons c t : plain c = true -> neutral t -> neutral (c :: t).
Proof.
  intros Hc Ht. apply (neutral_app (a := [c])); [|assumption].
  apply neutral_plain. now constructor.
Qed.

(** A quoted string is crossed without a trace. *)
Lemma neutral_quoted t : closes_string t -> neutral (34%N :: t).
Proof.
  intros H rest i d _. simpl. rewrite H. simpl. f_equal. lia.
Qed.

(** An object nested at a positive depth is crossed without a trace. *)
Lemma neutral_braces t : neutral t -> neutral (123%N :: t ++ [125%N]).
Proof.
  intros H rest i d Hd. simpl.
  rewrite <- app_assoc, H by lia. simpl.
  replace (d + 1 - 1)%Z with d by lia.
  destruct (Z.eqb_spec d 0); [lia|].
  rewrite length_app. simpl. f_equal. lia.
Qed.

(** At depth 0 the scan stops on the brace that closes the object. *)
Lemma scan_object t rest i :
  neutral t ->
  scan (123%N :: t ++ 125%N :: rest) i 0 false false = Some (i + S (List.length t)).
Proof.
  intros H. simpl. rewrite H by lia. simpl. f_equal. lia.
Qed.

Lemma skip_ws_split s :
  exists t, s = t ++ skip_ws s /\ Forall (fun c => plain c = true) t.
Proof.
  induction s as [|c s (t & Ht & Hp)]; simpl.
  - exists []. auto.
  - destruct (is_json_ws c) eqn:E.
    + exists (c :: t). split; [simpl; now rewrite <- Ht|]. constructor; [|assumption].
      unfold is_json_ws in E. unfold plain.
      repeat (apply orb_true_iff in E; destruct E as [E|E]);
        apply N.eqb_eq in E; subst; reflexivity.
    + exists []. auto.
Qed.

Lemma hex_value_plain c n : hex_value c = Some n -> plain c = true.
Proof.
  unfold hex_value, is_digit, plain. intros H.
  destruct (N.eqb_spec c 34); [subst; discriminate|].
  destruct (N.eqb_spec c 92); [subst; discriminate|].
  destruct (N.eqb_spec c 123); [subst; discriminate|].
  destruct (N.eqb_spec c 125); [subst; discriminate|].
  reflexivity.
Qed.

Lemma hex4_plain a b c d u :
  hex4 a b c d = Some u -> Forall (fun c => plain c = true) [a; b; c; d].
Proof.
  unfold hex4. intros H.
  destruct (hex_value a) eqn:Ea; [|discriminate].
  destruct (hex_value b) eqn:Eb; [|discriminate].
  destruct (hex_value c) eqn:Ec; [|discriminate].
  destruct (hex_value d) eqn:Ed; [|discriminate].
  repeat constructor; eapply hex_value_plain; eauto.
Qed.

Lemma closes_string_quote : closes_string [34%N].
Proof. intros rest i d. simpl. f_equal. lia. Qed.

Lemma closes_string_escape e t : closes_string t -> closes_string (92%N :: e :: t).
Proof.
  intros H rest i d. simpl. rewrite H. f_equal. lia.
Qed.

Lemma closes_string_plain a t :
  Forall (fun c => plain c = true) a -> closes_string t -> closes_string (a ++ t).
Proof.
  intros Ha Ht rest i d.
  rewrite <- app_assoc, scan_plain, Ht by assumption.
  rewrite length_app. f_equal. lia.
Qed.

Lemma closes_string_char c t :
  (c =? 34)%N = false -> (c =? 92)%N = false ->
  closes_string t -> closes_string (c :: t).
Proof.
  intros H34 H92 H rest i d. simpl. rewrite H92, H34. simpl. rewrite H.
  f_equal. lia.
Qed.

Lemma parse_string_split_le n s str r :
  List.length s <= n ->
  parse_string s = Some (str, r) ->
  exists t, s = t ++ r /\ closes_string t.
Proof.
  revert s str r. induction n as [|n IH]; intros s str r Hn H.
  - destruct s; [discriminate|simpl in Hn; lia].
  - destruct s as [|c s']; [discriminate|]. simpl in H, Hn.
    destruct (c =? 34)%N eqn:E34.
    { injection H as <- <-. exists [c]. apply N.eqb_eq in E34. subst.
      split; [reflexivity|apply closes_string_quote]. }
    destruct (c =? 92)%N eqn:E92.
    { apply N.eqb_eq in E92. subst c.
      destruct s' as [|e s'']; [discriminate|]. simpl in Hn.
      destruct (e =? 117)%N eqn:E117.
      - destruct s'' as [|h1 [|h2 [|h3 [|h4 s3]]]]; try discriminate.
        destruct (hex4 h1 h2 h3 h4) as [u|] eqn:Eh; [|discriminate].
        destruct (parse_string s3) as [[str' r']|] eqn:Ep; [|discriminate].
        injection H as <- <-.
        destruct (IH s3 str' r') as (t & -> & Ht);
          [simpl in Hn; lia|assumption|].
        exists (92%N :: e :: [h1; h2; h3; h4] ++ t). split; [reflexivity|].
        apply closes_string_escape.
        apply closes_string_plain; [|assumption].
        eapply hex4_plain; eauto.
      - destruct (simple_escape e) as [u|]; [|discriminate].
        destruct (parse_string s'') as [[str' r']|] eqn:Ep; [|discriminate].
        injection H as <- <-.
        destruct (IH s'' str' r') as (t & -> & Ht); [lia|assumption|].
        exists (92%N :: e :: t). split; [reflexivity|].
        now apply closes_string_escape. }
    destruct (c <? 32)%N; [discriminate|].
    destruct (parse_string s') as [[str' r']|] eqn:Ep; [|discriminate].
    injection H as <- <-.
    destruct (IH s' str' r') as (t & -> & Ht); [lia|assumption|].
    exists (c :: t). split; [reflexivity|].
    now apply closes_string_char.
Qed.

Lemma parse_string_split s str r :
  parse_string s = Some (str, r) -> exists t, s = t ++ r /\ closes_string t.
Proof. apply (@parse_string_split_le (List.length s)). lia. Qed.

Lemma is_digit_plain c : is_digit c = true -> plain c = true.
Proof.
  unfold is_digit, plain. intros H.
  apply andb_true_iff in H as [H1 H2].
  apply N.leb_le in H1, H2.
  destruct (N.eqb_spec c 34); [lia|].
  destruct (N.eqb_spec c 92); [lia|].
  destruct (N.eqb_spec c 123); [lia|].
  destruct (N.eqb_spec c 125); [lia|].
  reflexivity.
Qed.

Lemma take_digits_split s acc n a k r :
  take_digits s acc n = (a, k, r) ->
  exists t, s = t ++ r /\ Forall (fun c => plain c = true) t.
Proof.
  revert acc n. induction s as [|c s IH]; simpl; intros acc n H.
  - injection H as <- <- <-. exists []. auto.
  - destruct (is_digit c) eqn:E.
    + destruct (IH _ _ H) as (t & -> & Ht). exists (c :: t).
      split; [reflexivity|]. constructor; [now apply is_digit_plain|assumption].
    + injection H as <- <- <-. exists []. auto.
Qed.

Lemma expect_split c s r :
  expect c s = Some r ->
  exists t, s = t ++ c :: r /\ Forall (fun x => plain x = true) t.
Proof.
  unfold expect. intros H.
  destruct (skip_ws_split s) as (t & Hs & Ht).
  destruct (skip_ws s) as [|x r']; [discriminate|].
  destruct (N.eqb_spec x c); [|discriminate].
  injection H as <-. subst x. now exists t.
Qed.

Lemma parse_exponent_split s x r :
  parse_exponent s = Some (x, r) ->
  exists t, s = t ++ r /\ Forall (fun c => plain c = true) t.
Proof.
  unfold parse_exponent. destruct s as [|c s1].
  { intros [= <- <-]. exists []. auto. }
  destruct ((c =? 101) || (c =? 69))%N eqn:Ec.
  - assert (Hc : plain c = true).
    { apply orb_true_iff in Ec as [Ec|Ec]; apply N.eqb_eq in Ec; subst; reflexivity. }
    assert (Hsign : exists pre neg s2,
               match s1 with
               | sign :: r => if (sign =? 45)%N then (true, r)
                              else if (sign =? 43)%N then (false, r)
                              else (false, s1)
               | [] => (false, s1)
               end = (neg, s2) /\ s1 = pre ++ s2 /\
               Forall (fun c => plain c = true) pre).
    { destruct s1 as [|sg s1'].
      - exists [], false, []. auto.
      - destruct (N.eqb_spec sg 45).
        + subst. exists [45%N], true, s1'. repeat split. now constructor.
        + destruct (N.eqb_spec sg 43).
          * subst. exists [43%N], false, s1'. repeat split. now constructor.
          * exists [], false, (sg :: s1'). auto. }
    destruct Hsign as (pre & neg & s2 & -> & -> & Hpre).
    destruct (take_digits s2 0 0) as [[a k] r'] eqn:Et.
    destruct k; [discriminate|].
    intros [= <- <-].
    destruct (take_digits_split _ _ _ Et) as (t & -> & Ht).
    exists (c :: pre ++ t). split.
    + simpl. now rewrite <- app_assoc.
    + constructor; [assumption|]. apply Forall_app. auto.
  - intros [= <- <-]. exists []. auto.
Qed.

Lemma parse_fraction_split d s d' k r :
  parse_fraction d s = Some (d', k, r) ->
  exists t, s = t ++ r /\ Forall (fun c => plain c = true) t.
Proof.
  unfold parse_fraction. destruct s as [|c s1].
  { intros [= <- <- <-]. exists []. auto. }
  destruct (N.eqb_spec c 46).
  - subst c. destruct (take_digits s1 d 0) as [[a n] r'] eqn:Et.
    destruct n; [discriminate|].
    intros [= <- <- <-].
    destruct (take_digits_split _ _ _ Et) as (t & -> & Ht).
    exists (46%N :: t). split; [reflexivity|]. now constructor.
  - intros [= <- <- <-]. exists []. auto.
Qed.

Lemma parse_number_split s x r :
  parse_number s = Some (x, r) ->
  exists t, s = t ++ r /\ Forall (fun c => plain c = true) t.
Proof.
  unfold parse_number.
  assert (Hsign : exists pre neg s1,
             match s with
             | c :: r => if (c =? 45)%N then (true, r) else (false, s)
             | [] => (false, s)
             end = (neg, s1) /\ s = pre ++ s1 /\
             Forall (fun c => plain c = true) pre).
  { destruct s as [|c s'].
    - exists [], false, []. auto.
    - destruct (N.eqb_spec c 45).
      + subst. exists [45%N], true, s'. repeat split. now constructor.
      + exists [], false, (c :: s'). auto. }
  destruct Hsign as (pre & neg & s1 & -> & -> & Hpre).
  cbv beta iota zeta.
  assert (Hint : forall d s2,
             match s1 with
             | c :: r => if (c =? 48)%N then Some (0%N, r)
                         else if is_digit c
                              then let '(d, _, r) := take_digits s1 0 0 in Some (d, r)
                              else None
             | [] => None
             end = Some (d, s2) ->
             exists t, s1 = t ++ s2 /\ Forall (fun c => plain c = true) t).
  { intros d s2. destruct s1 as [|c s1']; [discriminate|].
    destruct (N.eqb_spec c 48).
    - subst. intros [= <- <-]. exists [48%N]. split; [reflexivity|]. now constructor.
    - destruct (is_digit c) eqn:Ed; [|discriminate].
      destruct (take_digits (c :: s1') 0 0) as [[a k] r'] eqn:Et.
      intros [= <- <-]. eapply take_digits_split; eauto. }
  destruct (match s1 with
            | [] => None
            | c :: r0 => _
            end) as [[d s2]|] eqn:Ei; [|discriminate].
  destruct (Hint _ _ eq_refl) as (t1 & -> & Ht1).
  destruct (parse_fraction d s2) as [[[d' k] s3]|] eqn:Ef; [|discriminate].
  destruct (parse_fraction_split _ _ Ef) as (t2 & -> & Ht2).
  destruct (parse_exponent s3) as [[e s4]|] eqn:Ee; [|discriminate].
  destruct (parse_exponent_split _ Ee) as (t3 & -> & Ht3).
  intros [= <- <-].
  exists (pre ++ t1 ++ t2 ++ t3). split.
  - now rewrite <- !app_assoc.
  - repeat (apply Forall_app; split); assumption.
Qed.

Lemma startsWith_split p s : startsWith p s = true -> s = p ++ skipn (List.length p) s.
Proof.
  revert s; induction p as [|x p IH]; intros s H; [reflexivity|].
  destruct s as [|y s]; [discriminate|]. simpl in H.
  apply andb_true_iff in H as [H1 H2]. apply N.eqb_eq in H1. subst y.
  simpl. f_equal. now apply IH.
Qed.

Lemma parse_literal_split s v r :
  parse_literal s = Some (v, r) ->
  exists t, s = t ++ r /\ Forall (fun c => plain c = true) t.
Proof.
  unfold parse_literal.
  destruct (startsWith (lit "true") s) eqn:E1.
  { intros [= <- <-]. exists (lit "true").
    split; [now apply startsWith_split|repeat constructor]. }
  destruct (startsWith (lit "false") s) eqn:E2.
  { intros [= <- <-]. exists (lit "false").
    split; [now apply startsWith_split|repeat constructor]. }
  destruct (startsWith (lit "null") s) eqn:E3.
  { intros [= <- <-]. exists (lit "null").
    split; [now apply startsWith_split|repeat constructor]. }
  destruct (parse_number s) as [[x r']|] eqn:En; [|discriminate].
  intros [= <- <-]. eapply parse_number_split; eauto.
Qed.

Create HintDb neutral.
#[local] Hint Resolve neutral_nil neutral_app neutral_plain neutral_quoted neutral_braces
  : neutral.

Lemma neutral_mark c : plain c = true -> neutral [c].
Proof. intros H. apply neutral_plain. now constructor. Qed.

(** What each of the three parsers consumes is crossed by the scanner
    without a trace; the members are consumed up to the closing brace,
    which is left out of the crossed text. *)
Lemma parsers_consume_neutral fuel :
  (forall s v r, parse_value fuel s = Some (v, r) ->
                 exists t, s = t ++ r /\ neutral t) /\
  (forall s ms r, parse_members fuel s = Some (ms, r) ->
                  exists t, s = t ++ 125%N :: r /\ neutral t) /\
  (forall s vs r, parse_elements fuel s = Some (vs, r) ->
                  exists t, s = t ++ r /\ neutral t).
Proof.
  induction fuel as [|f (IHv & IHm & IHe)];
    [repeat split; intros; discriminate|].
  split; [|split].
  - intros s v r H. simpl in H.
    destruct (skip_ws_split s) as (ws & Hs & Hws).
    destruct (skip_ws s) as [|c r0]; [discriminate|].
    destruct (N.eqb_spec c 123%N).
    { subst c. destruct (expect 125%N r0) as [r'|] eqn:E1.
      - injection H as <- <-.
        destruct (expect_split _ _ E1) as (t1 & -> & Ht1).
        exists (ws ++ 123%N :: t1 ++ [125%N]). split; [same_pieces|].
        auto with neutral.
      - destruct (parse_members f r0) as [[ms r']|] eqn:E2; [|discriminate].
        injection H as <- <-.
        destruct (IHm _ _ _ E2) as (t1 & -> & Ht1).
        exists (ws ++ 123%N :: t1 ++ [125%N]). split; [same_pieces|].
        auto with neutral. }
    destruct (N.eqb_spec c 91%N).
    { subst c. destruct (expect 93%N r0) as [r'|] eqn:E1.
      - injection H as <- <-.
        destruct (expect_split _ _ E1) as (t1 & -> & Ht1).
        exists (ws ++ [91%N] ++ t1 ++ [93%N]). split; [same_pieces|].
        repeat apply neutral_app; auto using neutral_mark with neutral.
      - destruct (parse_elements f r0) as [[vs r']|] eqn:E2; [|discriminate].
        injection H as <- <-.
        destruct (IHe _ _ _ E2) as (t1 & -> & Ht1).
        exists (ws ++ [91%N] ++ t1). split; [same_pieces|].
        repeat apply neutral_app; auto using neutral_mark with neutral. }
    destruct (N.eqb_spec c 34%N).
    { subst c. destruct (parse_string r0) as [[str r']|] eqn:E1; [|discriminate].
      injection H as <- <-.
      destruct (parse_string_split _ E1) as (t1 & -> & Ht1).
      exists (ws ++ 34%N :: t1). split; [same_pieces|]. auto with neutral. }
    destruct (parse_literal_split _ H) as (t1 & Hl & Ht1).
    exists (ws ++ t1). split; [rewrite <- app_assoc, <- Hl; exact Hs|].
    auto with neutral.
  - intros s ms r H. simpl in H.
    destruct (expect 34%N s) as [r0|] eqn:E0; [|discriminate].
    destruct (expect_split _ _ E0) as (w1 & -> & Hw1).
    destruct (parse_string r0) as [[k r1]|] eqn:E1; [|discriminate].
    destruct (parse_string_split _ E1) as (t1 & -> & Ht1).
    destruct (expect 58%N r1) as [r2|] eqn:E2; [|discriminate].
    destruct (expect_split _ _ E2) as (w2 & -> & Hw2).
    destruct (parse_value f r2) as [[v r3]|] eqn:E3; [|discriminate].
    destruct (IHv _ _ _ E3) as (t2 & -> & Ht2).
    destruct (expect 44%N r3) as [r4|] eqn:E4.
    + destruct (parse_members f r4) as [[ms' r5]|] eqn:E5; [|discriminate].
      injection H as <- <-.
      destruct (expect_split _ _ E4) as (w3 & -> & Hw3).
      destruct (IHm _ _ _ E5) as (t3 & -> & Ht3).
      exists (w1 ++ (34%N :: t1) ++ w2 ++ [58%N] ++ t2 ++ w3 ++ [44%N] ++ t3).
      split; [same_pieces|].
      repeat apply neutral_app; auto using neutral_mark with neutral.
    + destruct (expect 125%N r3) as [r4|] eqn:E5; [|discriminate].
      injection H as <- <-.
      destruct (expect_split _ _ E5) as (w3 & -> & Hw3).
      exists (w1 ++ (34%N :: t1) ++ w2 ++ [58%N] ++ t2 ++ w3).
      split; [same_pieces|].
      repeat apply neutral_app; auto using neutral_mark with neutral.
  - intros s vs r H. simpl in H.
    destruct (parse_value f s) as [[v r1]|] eqn:E1; [|discriminate].
    destruct (IHv _ _ _ E1) as (t1 & -> & Ht1).
    destruct (expect 44%N r1) as [r2|] eqn:E2.
    + destruct (parse_elements f r2) as [[vs' r3]|] eqn:E3; [|discriminate].
      injection H as <- <-.
      destruct (expect_split _ _ E2) as (w & -> & Hw).
      destruct (IHe _ _ _ E3) as (t2 & -> & Ht2).
      exists (t1 ++ w ++ [44%N] ++ t2). split; [same_pieces|].
      repeat apply neutral_app; auto using neutral_mark with neutral.
    + destruct (expect 93%N r1) as [r2|] eqn:E3; [|discriminate].
      injection H as <- <-.
      destruct (expect_split _ _ E3) as (w & -> & Hw).
      exists (t1 ++ w ++ [93%N]). split; [same_pieces|].
      repeat apply neutral_app; auto using neutral_mark with neutral.
Qed.

(** ** Well-formed objects *)

Lemma skip_ws_all s : skip_ws s = [] -> Forall (fun c => is_json_ws c = true) s.
Proof.
  induction s as [|c s IH]; simpl; intros H; [constructor|].
  destruct (is_json_ws c) eqn:E; [|discriminate]. constructor; auto.
Qed.

Lemma last_app_nonempty {A} (a r : list A) d : r <> [] -> List.last (a ++ r) d = List.last r d.
Proof.
  intros Hr. induction a as [|x a IH]; [reflexivity|].
  simpl. destruct (a ++ r) eqn:E; [|assumption].
  apply app_eq_nil in E as [_ ->]. contradiction.
Qed.

Lemma last_in {A} (r : list A) d : r <> [] -> In (List.last r d) r.
Proof.
  induction r as [|x r IH]; [contradiction|]. intros _.
  destruct r as [|y r]; [now left|]. right. apply IH. discriminate.
Qed.

Lemma parse_value_object f t0 v r :
  parse_value (S f) (123%N :: t0) = Some (v, r) ->
  exists body, t0 = body ++ 125%N :: r /\ neutral body.
Proof.
  intros E. simpl in E.
  destruct (expect 125%N t0) as [r'|] eqn:E1.
  - injection E as <- <-.
    destruct (expect_split _ _ E1) as (w & -> & Hw).
    exists w. auto with neutral.
  - destruct (parse_members f t0) as [[ms r']|] eqn:E2; [|discriminate].
    injection E as <- <-.
    destruct (parsers_consume_neutral f) as (_ & Hm & _).
    exact (Hm _ _ _ E2).
Qed.

(** The text of a well-formed object is its two braces around a text the
    scanner crosses without a trace. *)
Lemma well_formed_object_body t v :
  well_formed_object t v ->
  exists body, t = 123%N :: body ++ [125%N] /\ neutral body.
Proof.
  intros ([t0 ->] & Hlast & Hp & _).
  unfold JSON_parse in Hp.
  destruct (parse_value _ _) as [[v' r]|] eqn:E; [|discriminate].
  destruct (skip_ws r) eqn:Er; [|discriminate].
  destruct (parse_value_object _ _ E) as (body & -> & Hn).
  exists body. split; [|assumption].
  destruct r as [|c r]; [reflexivity|].
  exfalso.
  assert (Hl : List.last (123%N :: body ++ 125%N :: c :: r) 0%N = List.last (c :: r) 0%N).
  { replace (123%N :: body ++ 125%N :: c :: r)
      with ((123%N :: body ++ [125%N]) ++ c :: r) by same_pieces.
    apply last_app_nonempty. discriminate. }
  assert (Hc : List.last (c :: r) 0%N = 125%N)
    by (etransitivity; [symmetry; exact Hl|exact Hlast]).
  pose proof (skip_ws_all _ Er) as Hall.
  rewrite Forall_forall in Hall.
  specialize (Hall _ (@last_in _ (c :: r) 0%N ltac:(discriminate))).
  rewrite Hc in Hall. discriminate.
Qed.

Lemma scan_prefix_none a b i d s e k :
  scan (a ++ b) i d s e = Some k -> i + List.length a <= k -> scan a i d s e = None.
Proof.
  revert i d s e. induction a as [|c a IH]; intros i d s e H Hk; [reflexivity|].
  simpl in *. split_scan H;
    try (eapply IH; [eassumption|lia]);
    injection H as <-; lia.
Qed.


(** Before its last character has arrived nothing is surfaced. *)
Lemma well_formed_object_pending t v a b :
  well_formed_object t v ->
  t = a ++ b -> b <> [] ->
  processStreamBuffer a = unchanged a None.
Proof.
  intros Hw Hab Hb. destruct (well_formed_object_body Hw) as (body & Ht & Hn).
  destruct a as [|c a]; [reflexivity|].
  assert (c = 123%N) by (rewrite Ht in Hab; simpl in Hab; congruence). subst c.
  assert (He : find_end (123%N :: a) 0 = None).
  { unfold find_end. simpl skipn.
    assert (Hscan : scan t 0 0 false false = Some (S (List.length body))).
    { rewrite Ht.
      replace (123%N :: body ++ [125%N]) with (123%N :: body ++ 125%N :: []) by reflexivity.
      now rewrite scan_object. }
    apply (@scan_prefix_none _ b _ _ _ _ (S (List.length body))).
    - rewrite Hab in Hscan. exact Hscan.
    - assert (Hl : List.length t = List.length (123%N :: a) + List.length b)
        by (rewrite Hab; apply length_app).
      rewrite Ht in Hl. simpl in Hl. rewrite length_app in Hl. simpl in Hl.
      destruct b; [contradiction|]. simpl in *. unfold jsstring, code_unit in *. lia. }
  unfold processStreamBuffer.
  change (indexOf 123%N (123%N :: a)) with (Some 0).
  cbv iota beta.
  match goal with
  | |- context [find_end ?x 0] =>
      replace (find_end x 0) with (@None nat) by (symmetry; exact He)
  end.
  reflexivity.
Qed.

(** ** Sessions fed with well-formed objects *)











Lemma three_objects_are_well_formed :
  Forall (fun o => well_formed_object (fst o) (snd o)) three_objects_with_values.
Proof.
  repeat constructor; try (eexists; vm_compute; reflexivity).
Qed.

(** ** The fuel of the parser *)

(** A result obtained with some fuel is obtained with any fuel that
    exceeds the number of characters consumed. *)
Lemma parsers_fuel fuel :
  (forall s v r, parse_value fuel s = Some (v, r) ->
                 forall f', List.length s < f' + List.length r ->
                            parse_value f' s = Some (v, r)) /\
  (forall s ms r, parse_members fuel s = Some (ms, r) ->
                  forall f', List.length s < f' + List.length r ->
                             parse_members f' s = Some (ms, r)) /\
  (forall s vs r, parse_elements fuel s = Some (vs, r) ->
                  forall f', List.length s < f' + List.length r ->
                             parse_elements f' s = Some (vs, r)).
Proof.
  induction fuel as [|f (IHv & IHm & IHe)];
    [repeat split; intros; discriminate|].
  destruct (parsers_consume_neutral f) as (Cv & Cm & Ce).
  destruct (parsers_consume_neutral (S f)) as (Cv' & Cm' & Ce').
  split; [|split].
  - intros s v r H f' Hf.
    destruct f' as [|f''].
    { destruct (Cv' _ _ _ H) as (t & Hs & _). lengths. lia. }
    simpl in H |- *.
    destruct (skip_ws_split s) as (ws & Hs & _).
    destruct (skip_ws s) as [|c r0]; [discriminate|].
    destruct (c =? 123)%N.
    { destruct (expect 125%N r0) as [r'|] eqn:E1; [exact H|].
      destruct (parse_members f r0) as [[ms r']|] eqn:E2; [|discriminate].
      injection H as <- <-.
      rewrite (IHm _ _ _ E2 f''); [reflexivity|]. lengths. lia. }
    destruct (c =? 91)%N.
    { destruct (expect 93%N r0) as [r'|] eqn:E1; [exact H|].
      destruct (parse_elements f r0) as [[vs r']|] eqn:E2; [|discriminate].
      injection H as <- <-.
      rewrite (IHe _ _ _ E2 f''); [reflexivity|]. lengths. lia. }
    exact H.
  - intros s ms r H f' Hf.
    destruct f' as [|f''].
    { destruct (Cm' _ _ _ H) as (t & Hs & _). lengths. lia. }
    simpl in H |- *.
    destruct (expect 34%N s) as [r0|] eqn:E0; [|discriminate].
    destruct (expect_split _ _ E0) as (w1 & H0 & _).
    destruct (parse_string r0) as [[k r1]|] eqn:E1; [|discriminate].
    destruct (parse_string_split _ E1) as (t1 & H1 & _).
    destruct (expect 58%N r1) as [r2|] eqn:E2; [|discriminate].
    destruct (expect_split _ _ E2) as (w2 & H2 & _).
    destruct (parse_value f r2) as [[v r3]|] eqn:E3; [|discriminate].
    destruct (Cv _ _ _ E3) as (t2 & H3 & _).
    destruct (expect 44%N r3) as [r4|] eqn:E4.
    + destruct (parse_members f r4) as [[ms' r5]|] eqn:E5; [|discriminate].
      injection H as <- <-.
      destruct (expect_split _ _ E4) as (w3 & H4 & _).
      destruct (Cm _ _ _ E5) as (t3 & H5 & _).
      rewrite (IHv _ _ _ E3 f''); [|lengths; lia].
      rewrite E4.
      rewrite (IHm _ _ _ E5 f''); [reflexivity|lengths; lia].
    + destruct (expect 125%N r3) as [r4|] eqn:E5; [|discriminate].
      injection H as <- <-.
      destruct (expect_split _ _ E5) as (w3 & H4 & _).
      rewrite (IHv _ _ _ E3 f''); [|lengths; lia].
      rewrite E4, E5. reflexivity.
  - intros s vs r H f' Hf.
    destruct f' as [|f''].
    { destruct (Ce' _ _ _ H) as (t & Hs & _). lengths. lia. }
    simpl in H |- *.
    destruct (parse_value f s) as [[v r1]|] eqn:E1; [|discriminate].
    destruct (Cv _ _ _ E1) as (t1 & H1 & _).
    destruct (expect 44%N r1) as [r2|] eqn:E2.
    + destruct (parse_elements f r2) as [[vs' r3]|] eqn:E3; [|discriminate].
      injection H as <- <-.
      destruct (expect_split _ _ E2) as (w & H2 & _).
      destruct (Ce _ _ _ E3) as (t2 & H3 & _).
      rewrite (IHv _ _ _ E1 f''); [|lengths; lia].
      rewrite E2.
      rewrite (IHe _ _ _ E3 f''); [reflexivity|lengths; lia].
    + destruct (expect 93%N r1) as [r2|] eqn:E3; [|discriminate].
      injection H as <- <-.
      destruct (expect_split _ _ E3) as (w & H2 & _).
      rewrite (IHv _ _ _ E1 f''); [|lengths; lia].
      rewrite E2, E3. reflexivity.
Qed.

(** The fuel [JSON_parse] gives is enough: whatever any amount of fuel
    makes of a text, the length of the text plus one makes of it too. *)
Lemma parse_value_fuel fuel s v r :
  parse_value fuel s = Some (v, r) ->
  parse_value (S (List.length s)) s = Some (v, r).
Proof.
  intros H. destruct (parsers_fuel fuel) as (Hv & _).
  apply (Hv _ _ _ H). lia.
Qed.

(** * Further properties of the code *)

(** ** The span the scanner finds *)

Lemma scan_hits_brace cs i d s e k :
  scan cs i d s e = Some k -> nth_error cs (k - i) = Some 125%N.
Proof.
  revert i d s e; induction cs as [|c cs IH]; simpl; intros i d s e H;
    [discriminate|].
  split_scan H;
    try (pose proof (scan_range _ _ _ _ _ H) as Hr;
         apply IH in H;
         replace (k - i) with (S (k - S i)) by lia; exact H).
  injection H as <-. replace (i - i) with 0 by lia. simpl.
  match goal with E : (c =? 125)%N = true |- _ => apply N.eqb_eq in E; now subst end.
Qed.

(** X1: when the scanner reports an end for the first opening brace, the
    span runs from that brace to a closing brace strictly after it,
    inside the buffer; no shorter prefix of the buffer has an end, and
    every extension of the buffer has the same one. *)
Theorem scanner_span_is_braced_and_local (b : jsstring) (startIndex endIndex : nat) :
  indexOf 123%N b = Some startIndex ->
  find_end b startIndex = Some endIndex ->
  startIndex < endIndex < List.length b /\
  nth_error b startIndex = Some 123%N /\
  nth_error b endIndex = Some 125%N /\
  (forall n, n <= endIndex -> find_end (firstn n b) startIndex = None) /\
  (forall more, find_end (b ++ more) startIndex = Some endIndex).
Proof.
  intros Hi He.
  pose proof (indexOf_lt _ _ Hi) as Hlt.
  pose proof (find_end_range b (Nat.lt_le_incl _ _ Hlt) He) as Hr.
  assert (Hs : nth_error b startIndex = Some 123%N).
  { destruct (indexOf_skipn _ _ Hi) as [rest Hrest].
    rewrite <- (Nat.add_0_r startIndex), <- nth_error_skipn, Hrest. reflexivity. }
  assert (Hc : nth_error b endIndex = Some 125%N).
  { unfold find_end in He. apply scan_hits_brace in He.
    rewrite nth_error_skipn in He.
    replace (startIndex + (endIndex - startIndex)) with endIndex in He by lia.
    exact He. }
  repeat split; try lia; try assumption.
  - destruct (Nat.eq_dec startIndex endIndex) as [->|]; [|lia].
    rewrite Hs in Hc. discriminate.
  - intros n Hn. unfold find_end.
    destruct (Nat.le_gt_cases n startIndex) as [Hle|Hgt].
    + rewrite skipn_all2; [reflexivity|]. rewrite length_firstn. lia.
    + rewrite skipn_firstn_comm.
      unfold find_end in He.
      rewrite <- (firstn_skipn (n - startIndex) (skipn startIndex b)) in He.
      eapply scan_prefix_none; [exact He|].
      rewrite length_firstn, length_skipn. lia.
  - intros more. apply find_end_app; [lia|assumption].
Qed.

Lemma scanner_span_is_braced_and_local_witness :
  0 < 5 < List.length oops_then_hello /\
  nth_error oops_then_hello 0 = Some 123%N /\
  nth_error oops_then_hello 5 = Some 125%N /\
  (forall n, n <= 5 -> find_end (firstn n oops_then_hello) 0 = None) /\
  (forall more, find_end (oops_then_hello ++ more) 0 = Some 5).
Proof.
  apply (@scanner_span_is_braced_and_local oops_then_hello 0 5);
    vm_compute; reflexivity.
Defined.

(** ** Calls of [processStreamBuffer] on growing buffers *)

(** X2: what a call surfaces from a buffer does not depend on the data
    that follows: on every extension of the buffer the call returns the
    same text, the same image and the same object, and the extension is
    appended to what remains. *)
Theorem extraction_survives_more_data (b more : jsstring) (v : json) :
  parsedObject (processStreamBuffer b) = Some v ->
  processStreamBuffer (b ++ more)
  = {| p_text := p_text (processStreamBuffer b);
       remainingBuffer := remainingBuffer (processStreamBuffer b) ++ more;
       spawned := spawned (processStreamBuffer b);
       warned := None;
       parsedObject := Some v |}.
Proof.
  destruct (processStreamBuffer_cases b)
    as [(st & e & v' & r & Hi & He & Ht & Hp)|[w Hp]];
    rewrite Hp; simpl; [|discriminate].
  intros [= <-].
  pose proof (indexOf_lt _ _ Hi) as Hlt.
  pose proof (find_end_range _ (Nat.lt_le_incl _ _ Hlt) He) as Hr.
  rewrite (processStreamBuffer_found _ Hi He more), Ht.
  apply extraction_app. lia.
Qed.

Lemma extraction_survives_more_data_witness :
  processStreamBuffer (hello ++ world)
  = {| p_text := p_text (processStreamBuffer hello);
       remainingBuffer := remainingBuffer (processStreamBuffer hello) ++ world;
       spawned := spawned (processStreamBuffer hello);
       warned := None;
       parsedObject := JSON_parse hello |}.
Proof.
  change (JSON_parse hello) with (Some (match JSON_parse hello with
                                        | Some v => v
                                        | None => JNull
                                        end)).
  apply (@extraction_survives_more_data hello world).
  vm_compute. reflexivity.
Defined.

(** X4: nothing is surfaced before the last character of a well-formed
    object has arrived: on every proper prefix of its text the call
    returns the prefix unchanged, with no text, no image and no warning. *)
Theorem well_formed_object_is_not_extracted_early (t a b : jsstring) (v : json) :
  well_formed_object t v ->
  t = a ++ b -> b <> [] ->
  processStreamBuffer a = unchanged a None.
Proof. apply well_formed_object_pending. Qed.

Lemma well_formed_object_is_not_extracted_early_witness :
  processStreamBuffer (firstn 20 nested_brace) = unchanged (firstn 20 nested_brace) None.
Proof.
  apply (@well_formed_object_is_not_extracted_early
           nested_brace (firstn 20 nested_brace) (skipn 20 nested_brace)
           (JObject [(lit "text", JString (lit "a 'nested' } brace"))])).
  - repeat constructor; try (eexists; vm_compute; reflexivity).
  - symmetry. apply firstn_skipn.
  - vm_compute. discriminate.
Defined.

(** ** Blocked responses *)

Lemma blocked_extraction_throws m pm br :
  lookup (lit "promptFeedback") m = Some (JObject pm) ->
  lookup (lit "blockReason") pm = Some br ->
  ToBoolean (Some br) = true ->
  (exists e, extractContentFromJSON (JObject m) = Throw e) /\
  (forall s, br = JString s ->
             lookup (lit "candidates") m = None ->
             extractContentFromJSON (JObject m)
             = Throw (Error (lit "Request blocked: " ++ s))).
Proof.
  intros Hpf Hbr Htrue.
  assert (Htail : forall result : extracted,
             (pf <- Get (Some (JObject m)) (lit "promptFeedback") ;;
              br <- and_also pf (Get pf (lit "blockReason")) ;;
              match truthy_value br with
              | Some reason =>
                  msg <- ToString reason ;;
                  Throw (Error (lit "Request blocked: " ++ msg))
              | None => Ok result
              end)
             = (msg <- ToString br ;; Throw (Error (lit "Request blocked: " ++ msg)))).
  { intros result. unfold Get. rewrite Hpf. unfold bind at 1.
    unfold and_also. change (ToBoolean (Some (JObject pm))) with true. cbv iota.
    rewrite Hbr. unfold bind at 1. unfold truthy_value. rewrite Htrue. reflexivity. }
  split.
  - unfold extractContentFromJSON.
    destruct (Get (Some (JObject m)) (lit "candidates")) as [cs|e]; [|eexists; reflexivity].
    unfold bind at 1.
    match goal with
    | |- exists e, bind ?c _ = _ => destruct c as [shaped|e]; [|eexists; reflexivity]
    end.
    unfold bind at 1.
    match goal with
    | |- exists e, bind ?c _ = _ => destruct c as [result|e]; [|eexists; reflexivity]
    end.
    unfold bind at 1. rewrite Htail.
    destruct (ToString br) as [msg|e]; eexists; reflexivity.
  - intros s -> Hc. unfold extractContentFromJSON.
    change (Get (Some (JObject m)) (lit "candidates"))
      with (@Ok value (lookup (lit "candidates") m)).
    rewrite Hc. unfold bind at 1. change (ToBoolean None) with false. cbv iota.
    unfold bind at 1. unfold bind at 1. rewrite Htail. reflexivity.
Qed.

(** X5: an object whose [promptFeedback] holds a truthy [blockReason]
    never leaves the extractor.  When the span the scanner finds
    deserialises to one, the [try] block throws, so the call keeps the
    whole buffer and surfaces neither object, text nor image, and so
    does every later call, whatever is appended.  When the object has
    no [candidates] and the reason is a string, the exception logged is
    the error whose message is [Request blocked: ] and the reason. *)
Theorem blocked_object_is_never_extracted (b : jsstring) (startIndex endIndex : nat)
    (m pm : list (jsstring * json)) (br : json) :
  indexOf 123%N b = Some startIndex ->
  find_end b startIndex = Some endIndex ->
  JSON_parse (substring startIndex (endIndex + 1) b) = Some (JObject m) ->
  lookup (lit "promptFeedback") m = Some (JObject pm) ->
  lookup (lit "blockReason") pm = Some br ->
  ToBoolean (Some br) = true ->
  (exists e, forall more,
        processStreamBuffer (b ++ more) = unchanged (b ++ more) (Some e)) /\
  (forall s more,
      br = JString s ->
      lookup (lit "candidates") m = None ->
      processStreamBuffer (b ++ more)
      = unchanged (b ++ more) (Some (Error (lit "Request blocked: " ++ s)))).
Proof.
  intros Hi Hf Hp Hpf Hbr Htrue.
  destruct (blocked_extraction_throws _ Hpf Hbr Htrue) as [[e He] Hs].
  pose proof (processStreamBuffer_found _ Hi Hf) as Hfound.
  unfold try_block, JSON_parse_or_throw in Hfound. rewrite Hp in Hfound.
  simpl bind in Hfound.
  split.
  - exists e. intros more. rewrite Hfound, He. reflexivity.
  - intros s more Hb Hc. rewrite Hfound, (Hs s Hb Hc). reflexivity.
Qed.

Lemma blocked_object_is_never_extracted_witness :
  (exists e, forall more,
        processStreamBuffer (blocked ++ more) = unchanged (blocked ++ more) (Some e)) /\
  (forall s more,
      JString (lit "SAFETY") = JString s ->
      lookup (lit "candidates")
             [(lit "promptFeedback", JObject [(lit "blockReason", JString (lit "SAFETY"))])]
      = None ->
      processStreamBuffer (blocked ++ more)
      = unchanged (blocked ++ more) (Some (Error (lit "Request blocked: " ++ s)))).
Proof.
  apply (@blocked_object_is_never_extracted blocked 0 (List.length blocked - 1)
           [(lit "promptFeedback", JObject [(lit "blockReason", JString (lit "SAFETY"))])]
           [(lit "blockReason", JString (lit "SAFETY"))] (JString (lit "SAFETY")));
    vm_compute; reflexivity.
Defined.

(** ** The generic walk on shaped objects *)

Lemma walk_part p w :
  extractRecursive (part_json p) w
  = Ok {| w_text := w_text w ++ all_text [p];
          w_images := w_images w ++ walk_images [p] |}.
Proof.
  destruct w as [wt wi].
  destruct p as [[|c t]|[|c d] [|c' m]]; simpl;
    rewrite ?app_nil_r; reflexivity.
Qed.

Lemma walk_parts ps w :
  extractRecursive (JArray (List.map part_json ps)) w
  = Ok {| w_text := w_text w ++ all_text ps;
          w_images := w_images w ++ walk_images ps |}.
Proof.
  revert w; induction ps as [|p ps IH]; intros w.
  - destruct w. simpl. now rewrite !app_nil_r.
  - change (extractRecursive (JArray (List.map part_json (p :: ps))) w)
      with (result <- extractRecursive (part_json p) w ;;
            extractRecursive (JArray (List.map part_json ps)) result).
    rewrite walk_part. unfold bind at 1. cbv beta iota. rewrite IH.
    cbn [w_text w_images]. unfold all_text, walk_images. simpl flat_map.
    rewrite !app_nil_r, <- !app_assoc. reflexivity.
Qed.

Lemma walk_candidate ps w :
  extractRecursive (candidate_json ps) w
  = Ok {| w_text := w_text w ++ all_text ps;
          w_images := w_images w ++ walk_images ps |}.
Proof.
  change (extractRecursive (candidate_json ps) w)
    with (content <- (parts <- extractRecursive (JArray (List.map part_json ps)) w ;;
                      Ok parts) ;;
          Ok content).
  rewrite walk_parts. reflexivity.
Qed.

Lemma walk_candidates cands w :
  extractRecursive (JArray (List.map candidate_json cands)) w
  = Ok {| w_text := w_text w ++ all_text (List.concat cands);
          w_images := w_images w ++ walk_images (List.concat cands) |}.
Proof.
  revert w; induction cands as [|ps cands IH]; intros w.
  - destruct w. simpl. now rewrite !app_nil_r.
  - change (extractRecursive (JArray (List.map candidate_json (ps :: cands))) w)
      with (result <- extractRecursive (candidate_json ps) w ;;
            extractRecursive (JArray (List.map candidate_json cands)) result).
    rewrite walk_candidate. unfold bind at 1. cbv beta iota. rewrite IH.
    cbn [w_text w_images]. simpl List.concat. unfold all_text, walk_images.
    rewrite !flat_map_app, <- !app_assoc. reflexivity.
Qed.

(** X6: on a shaped object the generic walk of [processCompleteResponse]
    returns normally; its text is the concatenation of the text parts,
    the text the shaped extraction returns, and it collects every
    inlineData part whose data and mimeType are non-empty, in order,
    not only the last one. *)
Theorem generic_walk_of_shaped_object (candidates : list (list part)) :
  extractRecursive (shaped candidates) {| w_text := []; w_images := [] |}
  = Ok {| w_text := all_text (List.concat candidates);
          w_images := walk_images (List.concat candidates) |}.
Proof.
  change (extractRecursive (shaped candidates) {| w_text := []; w_images := [] |})
    with (result <- extractRecursive (JArray (List.map candidate_json candidates))
                      {| w_text := []; w_images := [] |} ;; Ok result).
  rewrite walk_candidates. reflexivity.
Qed.

(** ** Turns as transitions *)

Lemma step_transition s a s' : step s a = Some s' -> transition s a s'.
Proof.
  unfold step. intros H.
  destruct a as [chunk| |o| |i o|i].
  - destruct (stage s) eqn:Hst; try discriminate.
    injection H as <-. now constructor.
  - destruct (stage s) eqn:Hst; try discriminate.
    injection H as <-. now constructor.
  - destruct (stage s) as [|t done todo| |] eqn:Hst; try discriminate.
    destruct todo as [|img todo]; [discriminate|].
    destruct (may_end img o) eqn:Hm; [|discriminate].
    injection H as <-. econstructor; eauto.
  - destruct (stage s) as [|t done todo| |] eqn:Hst; try discriminate.
    destruct todo as [|img todo]; [|discriminate].
    injection H as <-. econstructor; eauto.
  - assert (H' : match nth_error (tasks s) i with
                 | Some (InFlight img) =>
                     if may_end img o then
                       Some (with_keys_tasks_events s
                               (cacheKeys s ++ opt_list (saved_key o))
                               (replace_nth i (match o with
                                               | Saved k => Fulfilled k
                                               | Failed m => Rejected m
                                               end) (tasks s))
                               (events s))
                     else None
                 | _ => None
                 end = Some s') by (destruct (stage s); exact H).
    clear H. destruct (nth_error (tasks s) i) as [[img|k|m]|] eqn:Hn; try discriminate.
    destruct (may_end img o) eqn:Hm; [|discriminate].
    injection H' as <-. econstructor; eauto.
  - assert (H' : match nth_error (tasks s) i with
                 | Some (Fulfilled k) =>
                     Some (with_keys_tasks_events s (cacheKeys s)
                             (remove_nth i (tasks s)) (events s ++ [ImageEvent k]))
                 | Some (Rejected m) =>
                     Some (with_keys_tasks_events s (cacheKeys s)
                             (remove_nth i (tasks s))
                             (events s ++ [ErrorEvent (lit "Failed to save image: " ++ m)]))
                 | _ => None
                 end = Some s') by (destruct (stage s); exact H).
    clear H. destruct (nth_error (tasks s) i) as [[img|k|m]|] eqn:Hn; try discriminate;
      injection H' as <-; now constructor.
Qed.

(** What every transition preserves, every run from a state that has it
    preserves. *)
Lemma run_preserves (P : session -> Prop) :
  (forall s a s', P s -> transition s a s' -> P s') ->
  forall turns s s', P s -> run s turns = Some s' -> P s'.
Proof.
  intros Hstep. induction turns as [|a turns IH]; simpl; intros s s' Hs Hr.
  - now injection Hr as <-.
  - destruct (step s a) as [s1|] eqn:E; [|discriminate].
    eapply IH; [|exact Hr]. eapply Hstep; [exact Hs|]. apply step_transition. exact E.
Qed.

(** ** The text events and the accumulated text *)

Lemma streamed_text_app a b : streamed_text (a ++ b) = streamed_text a ++ streamed_text b.
Proof. apply flat_map_app. Qed.

Lemma accumulates_app acc es es' :
  accumulates acc es ->
  accumulates (acc ++ streamed_text es) es' ->
  accumulates acc (es ++ es').
Proof.
  revert acc; induction es as [|e es IH]; intros acc H H'.
  - simpl in *. now rewrite app_nil_r in H'.
  - destruct e; simpl in *; try (apply IH; assumption).
    destruct H as (Hc & -> & H). repeat split; auto.
    apply IH; [assumption|]. now rewrite <- app_assoc.
Qed.

Lemma text_faithful_extend s s' new :
  streamed_text (events s) = responseText s /\ accumulates [] (events s) ->
  events s' = events s ++ new ->
  responseText s' = responseText s ++ streamed_text new ->
  accumulates (responseText s) new ->
  streamed_text (events s') = responseText s' /\ accumulates [] (events s').
Proof.
  intros [H1 H2] He Hr Ha. rewrite He, Hr. split.
  - now rewrite streamed_text_app, H1.
  - apply accumulates_app; [assumption|]. simpl. now rewrite H1.
Qed.

Lemma text_event_extends (rt t : jsstring) i f :
  rt ++ t
  = rt ++ streamed_text match t with
                        | [] => []
                        | _ :: _ => [TextEvent t (rt ++ t) i f]
                        end /\
  accumulates rt match t with
                 | [] => []
                 | _ :: _ => [TextEvent t (rt ++ t) i f]
                 end.
Proof.
  destruct t as [|c t]; simpl.
  - split; [reflexivity|exact I].
  - rewrite app_nil_r. repeat split. discriminate.
Qed.

Lemma finish_extends s :
  exists new,
    events (finish s) = events s ++ new /\
    responseText (finish s) = responseText s ++ streamed_text new /\
    accumulates (responseText s) new.
Proof.
  unfold finish; simpl. eexists. split; [reflexivity|].
  destruct (cacheKeys s); simpl; rewrite app_nil_r; split; auto.
Qed.

Lemma extends_trans (ev1 ev2 ev3 rt1 rt2 rt3 : _) new1 new2 :
  ev2 = ev1 ++ new1 -> rt2 = rt1 ++ streamed_text new1 -> accumulates rt1 new1 ->
  ev3 = ev2 ++ new2 -> rt3 = rt2 ++ streamed_text new2 -> accumulates rt2 new2 ->
  ev3 = ev1 ++ (new1 ++ new2) /\
  rt3 = rt1 ++ streamed_text (new1 ++ new2) /\
  accumulates rt1 (new1 ++ new2).
Proof.
  intros -> -> H1 -> -> H2. repeat split.
  - now rewrite app_assoc.
  - now rewrite streamed_text_app, app_assoc.
  - now apply accumulates_app.
Qed.

Lemma on_end_extends s :
  exists new,
    events (on_end s) = events s ++ new /\
    responseText (on_end s) = responseText s ++ streamed_text new /\
    accumulates (responseText s) new.
Proof.
  unfold on_end. destruct (trim (buffer s)); [apply finish_extends|].
  cbv zeta.
  set (p := processStreamBuffer (buffer s)).
  destruct (text_event_extends (responseText s) (p_text p) (chunkCount s) true)
    as [Hr Ha].
  destruct (ToBoolean (Some (tryParseCompleteJSON (buffer s)))).
  - destruct (extractRecursive (tryParseCompleteJSON (buffer s)) _);
      eexists; simpl; repeat split; eauto.
  - match goal with |- context [finish ?x] => set (s1 := x) end.
    destruct (finish_extends s1) as (new2 & He2 & Hr2 & Ha2).
    eexists.
    eapply (@extends_trans (events s) (events s1) _ (responseText s) (responseText s1));
      [reflexivity|exact Hr|exact Ha|exact He2|exact Hr2|exact Ha2].
Qed.

Lemma transition_extends s a s' :
  transition s a s' ->
  exists new,
    events s' = events s ++ new /\
    responseText s' = responseText s ++ streamed_text new /\
    accumulates (responseText s) new.
Proof.
  intros H. destruct H.
  - unfold on_data; simpl. eexists. split; [reflexivity|].
    apply text_event_extends.
  - apply on_end_extends.
  - exists []. simpl. rewrite !app_nil_r. auto.
  - match goal with |- context [finish ?x] => set (s1 := x) end.
    destruct (finish_extends s1) as (new2 & He2 & Hr2 & Ha2).
    eexists.
    eapply (@extends_trans (events s) (events s1) _ (responseText s) (responseText s1));
      [reflexivity| |exact I|exact He2|exact Hr2|exact Ha2].
    simpl. now rewrite app_nil_r.
  - exists []. simpl. rewrite !app_nil_r. auto.
  - eexists. simpl. split; [reflexivity|]. simpl. rewrite app_nil_r. auto.
  - eexists. simpl. split; [reflexivity|]. simpl. rewrite app_nil_r. auto.
Qed.

Lemma run_streamed_text (turns : list action) (s : session) :
  run start turns = Some s -> streamed_text (events s) = responseText s.
Proof.
  apply (@run_preserves (fun s => streamed_text (events s) = responseText s)).
  - intros s0 a s' H Ht.
    destruct (transition_extends Ht) as (new & -> & -> & _).
    now rewrite streamed_text_app, H.
  - reflexivity.
Qed.

(** X7: in every run of a session the accumulated text is the contents
    of the text events one after the other; every text event has a
    non-empty content, and its [accumulated] field is the [accumulated]
    of the text event before it (nothing for the first) followed by its
    own content. *)
Theorem text_events_spell_the_response (turns : list action) (s : session) :
  run start turns = Some s ->
  streamed_text (events s) = responseText s /\ accumulates [] (events s).
Proof.
  apply (@run_preserves
           (fun s => streamed_text (events s) = responseText s /\
                     accumulates [] (events s))).
  - intros s0 a s' H Ht.
    destruct (transition_extends Ht) as (new & He & Hr & Ha).
    eapply text_faithful_extend; eauto.
  - simpl. auto.
Qed.

Lemma text_events_spell_the_response_witness :
  exists s,
    run start [Data hello; Data world; End] = Some s /\
    streamed_text (events s) = responseText s /\ accumulates [] (events s).
Proof.
  eexists. split.
  - vm_compute. reflexivity.
  - apply (@text_events_spell_the_response [Data hello; Data world; End]).
    vm_compute. reflexivity.
Defined.

(** ** Chunks, text events and parsed objects *)

Lemma count_text_app a b : count_text (a ++ b) = count_text a + count_text b.
Proof. unfold count_text. now rewrite filter_app, length_app. Qed.

Lemma count_text_optional (t : jsstring) e :
  count_text match t with [] => [] | _ :: _ => [e] end <= 1.
Proof.
  unfold count_text. destruct t; simpl; [lia|]. destruct (is_text e); simpl; lia.
Qed.

Lemma length_opt_list A (o : option A) : List.length (opt_list o) <= 1.
Proof. destruct o; simpl; lia. Qed.

Lemma finish_counts s :
  count_text (events (finish s)) = count_text (events s) /\
  parsedObjects (finish s) = parsedObjects s /\
  chunkCount (finish s) = chunkCount s /\
  stage (finish s) = Resolved.
Proof.
  unfold finish; simpl. repeat split.
  rewrite !count_text_app. destruct (cacheKeys s); unfold count_text; simpl; lia.
Qed.

Lemma on_end_counts s :
  count_text (events (on_end s)) <= count_text (events s) + 1 /\
  List.length (parsedObjects (on_end s)) <= List.length (parsedObjects s) + 1 /\
  chunkCount (on_end s) = chunkCount s /\
  at_end (on_end s) = 1.
Proof.
  unfold on_end, at_end. destruct (trim (buffer s)).
  - destruct (finish_counts s) as (-> & -> & -> & ->).
    repeat split; lia.
  - cbv zeta.
    set (p := processStreamBuffer (buffer s)).
    pose proof (count_text_optional (p_text p)
                  (TextEvent (p_text p) (responseText s ++ p_text p) (chunkCount s) true))
      as Ht.
    pose proof (length_opt_list (parsedObject p)) as Hp.
    destruct (ToBoolean (Some (tryParseCompleteJSON (buffer s)))).
    + destruct (extractRecursive (tryParseCompleteJSON (buffer s)) _); simpl;
        rewrite count_text_app, length_app; repeat split; lia.
    + match goal with |- context [finish ?x] => set (s1 := x) end.
      destruct (finish_counts s1) as (-> & -> & -> & ->).
      subst s1; simpl. rewrite count_text_app, length_app.
      repeat split; lia.
Qed.

Lemma transition_counts s a s' :
  transition s a s' ->
  chunkCount s' = (if is_data a then 1 else 0) + chunkCount s /\
  count_text (events s') + at_end s <= count_text (events s) + at_end s'
                                       + (if is_data a then 1 else 0) /\
  List.length (parsedObjects s') + at_end s
  <= List.length (parsedObjects s) + at_end s' + (if is_data a then 1 else 0).
Proof.
  intros H. destruct H.
  - unfold on_data, at_end; simpl.
    set (p := processStreamBuffer (buffer s ++ chunk)).
    pose proof (count_text_optional (p_text p)
                  (TextEvent (p_text p) (responseText s ++ p_text p)
                             (S (chunkCount s)) false)) as Ht.
    pose proof (length_opt_list (parsedObject p)) as Hp.
    rewrite count_text_app, length_app. repeat split; auto; lia.
  - destruct (on_end_counts s) as (Ht & Hp & Hc & Hs). rewrite Hs.
    unfold at_end. rewrite H. simpl. repeat split; auto; lia.
  - unfold at_end. rewrite H. simpl. repeat split; auto; lia.
  - match goal with |- context [finish ?x] => set (s1 := x) end.
    destruct (finish_counts s1) as (Ht & Hp & Hc & Hs).
    unfold at_end. rewrite Ht, Hp, Hc, Hs, H. subst s1; simpl.
    rewrite count_text_app. unfold count_text; simpl.
    repeat split; lia.
  - unfold at_end. simpl. repeat split; auto; lia.
  - unfold at_end. simpl. rewrite count_text_app. unfold count_text; simpl.
    repeat split; auto; lia.
  - unfold at_end. simpl. rewrite count_text_app. unfold count_text; simpl.
    repeat split; auto; lia.
Qed.

Lemma run_counts turns :
  forall s s',
    run s turns = Some s' ->
    chunkCount s' = chunks_of turns + chunkCount s /\
    count_text (events s') + at_end s
    <= count_text (events s) + at_end s' + chunks_of turns /\
    List.length (parsedObjects s') + at_end s
    <= List.length (parsedObjects s) + at_end s' + chunks_of turns.
Proof.
  unfold chunks_of.
  induction turns as [|a turns IH]; simpl; intros s s' Hr.
  - injection Hr as <-. repeat split; lia.
  - destruct (step s a) as [s1|] eqn:E; [|discriminate].
    apply step_transition in E. apply transition_counts in E.
    destruct E as (Hc & Ht & Hp).
    destruct (IH _ _ Hr) as (Hc' & Ht' & Hp').
    destruct (is_data a); simpl; repeat split; lia.
Qed.

(** X8: the chunk count of a session is the number of chunks delivered,
    and while the upstream has not ended the session holds at most one
    text event and one parsed object per chunk; the [end] handler adds
    at most one of each.  A stream of n chunks therefore has at most
    n + 1 of its objects interpreted by [processStreamBuffer]. *)
Theorem one_object_per_chunk (turns : list action) (s : session) :
  run start turns = Some s ->
  chunkCount s = chunks_of turns /\
  count_text (events s) <= chunks_of turns + at_end s /\
  List.length (parsedObjects s) <= chunks_of turns + at_end s.
Proof.
  intros H. destruct (run_counts _ _ H) as (Hc & Ht & Hp).
  change (at_end start) with 0 in Ht, Hp.
  change (count_text (events start)) with 0 in Ht.
  change (List.length (parsedObjects start)) with 0 in Hp.
  change (chunkCount start) with 0 in Hc.
  repeat split; lia.
Qed.

Lemma one_object_per_chunk_witness :
  exists s,
    run start [Data (hello ++ world ++ hello); End] = Some s /\
    chunkCount s = 1 /\
    count_text (events s) <= 1 + at_end s /\
    List.length (parsedObjects s) <= 1 + at_end s.
Proof.
  eexists. split.
  - vm_compute. reflexivity.
  - apply (@one_object_per_chunk [Data (hello ++ world ++ hello); End]).
    vm_compute. reflexivity.
Defined.

(** ** The saved keys *)

Lemma task_keys_replace i t img l :
  nth_error l i = Some (InFlight img) ->
  Permutation (flat_map task_keys (replace_nth i t l))
              (flat_map task_keys l ++ task_keys t).
Proof.
  revert i; induction l as [|x l IH]; intros [|i]; simpl; try discriminate.
  - intros [= ->]. simpl. apply Permutation_app_comm.
  - intros H. rewrite <- app_assoc. apply Permutation_app_head. now apply IH.
Qed.

Lemma task_keys_remove i t l :
  nth_error l i = Some t ->
  Permutation (flat_map task_keys l)
              (flat_map task_keys (remove_nth i l) ++ task_keys t).
Proof.
  revert i; induction l as [|x l IH]; intros [|i]; simpl; try discriminate.
  - intros [= ->]. apply Permutation_app_comm.
  - intros H. rewrite <- app_assoc. apply Permutation_app_head. now apply IH.
Qed.

Lemma reported_keys_optional (t : jsstring) e :
  reported_keys e = [] ->
  flat_map reported_keys match t with [] => [] | _ :: _ => [e] end = [].
Proof. intros H. destruct t; simpl; [reflexivity|]. now rewrite H. Qed.

Lemma finish_accounted s :
  cacheKeys (finish s) = cacheKeys s /\
  accounted (finish s)
  = flat_map reported_keys (events s) ++ flat_map task_keys (tasks s).
Proof.
  unfold accounted, finish; simpl. split; [reflexivity|].
  rewrite !flat_map_app.
  destruct (cacheKeys s); simpl; now rewrite !app_nil_r.
Qed.

Lemma on_end_accounted s :
  stage s = Streaming ->
  cacheKeys (on_end s) = cacheKeys s /\ accounted (on_end s) = accounted s.
Proof.
  intros Hst. unfold on_end. destruct (trim (buffer s)).
  - destruct (finish_accounted s) as (-> & ->). unfold accounted.
    rewrite Hst; simpl. now rewrite app_nil_r.
  - cbv zeta.
    set (p := processStreamBuffer (buffer s)).
    assert (He : flat_map reported_keys
                   match p_text p with
                   | [] => []
                   | _ :: _ => [TextEvent (p_text p) (responseText s ++ p_text p)
                                          (chunkCount s) true]
                   end = []) by now apply reported_keys_optional.
    assert (Ht : flat_map task_keys (List.map InFlight (opt_list (spawned p))) = [])
      by (destruct (spawned p); reflexivity).
    destruct (ToBoolean (Some (tryParseCompleteJSON (buffer s)))).
    + destruct (extractRecursive (tryParseCompleteJSON (buffer s)) _);
        unfold accounted; simpl; rewrite Hst, !flat_map_app, He, Ht; simpl;
        now rewrite !app_nil_r.
    + match goal with |- context [finish ?x] => set (s1 := x) end.
      destruct (finish_accounted s1) as (-> & ->).
      subst s1; unfold accounted; simpl. rewrite Hst, !flat_map_app, He, Ht; simpl.
      now rewrite !app_nil_r.
Qed.

Lemma transition_accounted s a s' :
  transition s a s' ->
  Permutation (cacheKeys s) (accounted s) ->
  Permutation (cacheKeys s') (accounted s').
Proof.
  intros H. destruct H; intros P.
  - unfold accounted, on_data; simpl.
    set (p := processStreamBuffer (buffer s ++ chunk)).
    rewrite !flat_map_app, reported_keys_optional by reflexivity.
    replace (flat_map task_keys (List.map InFlight (opt_list (spawned p)))) with
      (@nil jsstring) by (destruct (spawned p); reflexivity).
    now rewrite !app_nil_r.
  - destruct (@on_end_accounted s H) as (-> & ->). exact P.
  - unfold accounted in *; simpl. rewrite H in P; simpl in P.
    unfold walk_keys in *. rewrite flat_map_app; simpl. rewrite app_nil_r.
    apply (Permutation_app_tail (opt_list (saved_key o))) in P.
    etransitivity; [exact P|]. rewrite <- !app_assoc. reflexivity.
  - match goal with |- context [finish ?x] => set (s1 := x) end.
    destruct (finish_accounted s1) as (-> & ->).
    subst s1; unfold accounted in *; simpl. rewrite H in *; simpl in *.
    rewrite flat_map_app; simpl. rewrite !app_nil_r.
    etransitivity; [exact P|].
    rewrite <- app_assoc. apply Permutation_app_head. apply Permutation_app_comm.
  - unfold accounted in *; simpl.
    pose proof (@task_keys_replace i (match o with
                                      | Saved k => Fulfilled k
                                      | Failed m => Rejected m
                                      end) img _ H) as Hp.
    replace (task_keys match o with
                       | Saved k => Fulfilled k
                       | Failed m => Rejected m
                       end) with (opt_list (saved_key o)) in Hp
      by (destruct o; reflexivity).
    apply (Permutation_app_tail (opt_list (saved_key o))) in P.
    etransitivity; [exact P|].
    rewrite <- !app_assoc. apply Permutation_app_head.
    etransitivity; [|apply Permutation_app_tail; symmetry; exact Hp].
    rewrite <- !app_assoc. apply Permutation_app_head. apply Permutation_app_comm.
  - unfold accounted in *; simpl.
    pose proof (task_keys_remove _ _ H) as Hp. simpl in Hp.
    rewrite flat_map_app; simpl.
    etransitivity; [exact P|].
    rewrite <- !app_assoc. apply Permutation_app_head.
    etransitivity; [apply Permutation_app_tail; exact Hp|].
    rewrite <- !app_assoc. simpl.
    symmetry. apply Permutation_middle.
  - unfold accounted in *; simpl.
    pose proof (task_keys_remove _ _ H) as Hp. simpl in Hp.
    rewrite app_nil_r in Hp.
    rewrite flat_map_app; simpl. rewrite app_nil_r.
    etransitivity; [exact P|].
    apply Permutation_app_head. apply Permutation_app_tail. exact Hp.
Qed.

(** X9: in every run of a session the saved keys are accounted for one
    by one: each key pushed to [cacheKeys] is reported by exactly one
    image event or in exactly one complete event, or belongs to a call
    of [handleImageData] whose report is still to come; and no event
    reports a key that was not saved.  (The image_keys event repeats
    keys and is left out of the count.) *)
Theorem saved_keys_are_accounted_for (turns : list action) (s : session) :
  run start turns = Some s ->
  Permutation (cacheKeys s) (accounted s).
Proof.
  apply (@run_preserves (fun s => Permutation (cacheKeys s) (accounted s))).
  - intros s0 a s' P Ht. exact (transition_accounted Ht P).
  - simpl. constructor.
Qed.

Lemma saved_keys_are_accounted_for_witness :
  exists s,
    run start [Data stray_then_image; End; Settle 0 (Saved (lit "k1")); Deliver 0]
    = Some s /\
    Permutation (cacheKeys s) (accounted s).
Proof.
  eexists. split.
  - vm_compute. reflexivity.
  - apply (@saved_keys_are_accounted_for
             [Data stray_then_image; End; Settle 0 (Saved (lit "k1")); Deliver 0]).
    vm_compute. reflexivity.
Defined.

(** ** The image_keys event *)

Lemma keys_listed_grow keys more es :
  keys_listed keys es -> keys_listed (keys ++ more) es.
Proof.
  intros [A B].
  assert (A' : forall ks n, In (ImageKeysEvent ks n) es ->
                            ks <> [] /\ n = List.length ks /\ ks = firstn n (keys ++ more)).
  { intros ks n H. destruct (A _ _ H) as (H1 & H2 & H3). repeat split; auto.
    assert (n <= List.length keys).
    { rewrite H3 in H2. rewrite length_firstn in H2. lia. }
    rewrite firstn_app. replace (n - List.length keys) with 0 by lia.
    simpl. now rewrite app_nil_r. }
  split; [exact A'|].
  intros c t i H. destruct (B _ _ _ H) as [->|H']; [now left|right].
  destruct (A _ _ H') as (_ & H2 & _).
  assert (i <= List.length keys) by (rewrite length_firstn in H2; lia).
  rewrite firstn_app. replace (i - List.length keys) with 0 by lia.
  simpl. now rewrite app_nil_r.
Qed.

Lemma keys_listed_app keys es es' :
  keys_listed keys es -> keys_listed keys es' -> keys_listed keys (es ++ es').
Proof.
  intros [A B] [A' B']. split.
  - intros ks n H. apply in_app_or in H. destruct H; eauto.
  - intros c t i H. apply in_app_or in H.
    destruct H as [H|H]; [destruct (B _ _ _ H)|destruct (B' _ _ _ H)]; auto;
      right; apply in_or_app; auto.
Qed.

Lemma keys_listed_other keys es :
  Forall (fun e => match e with
                   | ImageKeysEvent _ _ | CompletionEvent _ _ _ => False
                   | _ => True
                   end) es ->
  keys_listed keys es.
Proof.
  intros F. rewrite Forall_forall in F.
  split; intros ? ? ; [|intros ?]; intros H; destruct (F _ H).
Qed.

Lemma keys_listed_optional keys (t : jsstring) c a i f :
  keys_listed keys match t with [] => [] | _ :: _ => [TextEvent c a i f] end.
Proof. apply keys_listed_other. destruct t; repeat constructor. Qed.

Lemma finish_keys_listed s :
  keys_listed (cacheKeys s) (events s) ->
  cacheKeys (finish s) = cacheKeys s /\
  keys_listed (cacheKeys s) (events (finish s)).
Proof.
  intros H. split; [reflexivity|]. unfold finish; simpl.
  apply keys_listed_app; [assumption|].
  pose proof (firstn_all (cacheKeys s)) as Hf.
  destruct (cacheKeys s) as [|k ks] eqn:E; simpl in Hf |- *.
  - split.
    + intros ks n [H'|[]]; discriminate.
    + intros c t i [H'|[]]. injection H' as _ _ <-. now left.
  - split.
    + intros ks' n [H'|[H'|[]]]; [|discriminate].
      injection H' as <- <-. simpl. rewrite Hf. repeat split. discriminate.
    + intros c t i [H'|[H'|[]]]; [discriminate|].
      injection H' as _ _ <-. right. left. simpl. now rewrite Hf.
Qed.

Lemma on_end_keys_listed s :
  keys_listed (cacheKeys s) (events s) ->
  cacheKeys (on_end s) = cacheKeys s /\
  keys_listed (cacheKeys s) (events (on_end s)).
Proof.
  intros H. unfold on_end. destruct (trim (buffer s)).
  - now apply finish_keys_listed.
  - cbv zeta.
    destruct (ToBoolean (Some (tryParseCompleteJSON (buffer s)))).
    + destruct (extractRecursive (tryParseCompleteJSON (buffer s)) _); simpl;
        (split; [reflexivity|]);
        (apply keys_listed_app; [assumption|apply keys_listed_optional]).
    + match goal with |- context [finish ?x] => set (s1 := x) end.
      apply (@finish_keys_listed s1). subst s1; simpl.
      apply keys_listed_app; [assumption|apply keys_listed_optional].
Qed.

Lemma transition_keys_listed s a s' :
  transition s a s' ->
  keys_listed (cacheKeys s) (events s) ->
  keys_listed (cacheKeys s') (events s').
Proof.
  intros H. destruct H; intros K.
  - unfold on_data; simpl.
    apply keys_listed_app; [assumption|apply keys_listed_optional].
  - destruct (@on_end_keys_listed s K) as (-> & K'). exact K'.
  - simpl. now apply keys_listed_grow.
  - match goal with |- context [finish ?x] => set (s1 := x) end.
    apply (@finish_keys_listed s1). subst s1; simpl.
    apply keys_listed_app; [assumption|].
    apply keys_listed_other. repeat constructor.
  - simpl. now apply keys_listed_grow.
  - simpl. apply keys_listed_app; [assumption|].
    apply keys_listed_other. repeat constructor.
  - simpl. apply keys_listed_app; [assumption|].
    apply keys_listed_other. repeat constructor.
Qed.

(** X10: in every run of a session, an image_keys event lists, when
    the callback is called with it, a non-empty array of keys with its
    length as count, and these are the keys saved first, in the order
    they were saved: keys saved after the event come after them in
    [cacheKeys].  A completion event with a
    positive image count comes with the image_keys event that lists that
    many keys. *)
Theorem image_keys_event_lists_the_first_keys (turns : list action) (s : session) :
  run start turns = Some s ->
  keys_listed (cacheKeys s) (events s).
Proof.
  apply (@run_preserves (fun s => keys_listed (cacheKeys s) (events s))).
  - intros s0 a s' K Ht. exact (transition_keys_listed Ht K).
  - apply keys_listed_other. constructor.
Qed.

Lemma image_keys_event_lists_the_first_keys_witness :
  exists s,
    run start [Data image_object; Settle 0 (Saved (lit "k1")); Deliver 0; End] = Some s /\
    keys_listed (cacheKeys s) (events s).
Proof.
  eexists. split.
  - vm_compute. reflexivity.
  - apply (@image_keys_event_lists_the_first_keys
             [Data image_object; Settle 0 (Saved (lit "k1")); Deliver 0; End]).
    vm_compute. reflexivity.
Defined.

(** ** The complete event *)

Lemma no_complete_optional (t : jsstring) c a i f d n :
  ~ In (CompleteEvent d n) match t with [] => [] | _ :: _ => [TextEvent c a i f] end.
Proof. destruct t; simpl; [tauto|]. intros [H|[]]; discriminate. Qed.

Lemma no_complete_finish s d n :
  In (CompleteEvent d n) (events (finish s)) -> In (CompleteEvent d n) (events s).
Proof.
  unfold finish; simpl. intros H.
  apply in_app_or in H. destruct H as [H|H]; [assumption|].
  apply in_app_or in H. destruct H as [H|[H|[]]]; [|discriminate].
  destruct (cacheKeys s); [destruct H|destruct H as [H|[]]; discriminate].
Qed.

Lemma on_end_complete s :
  (forall d n, In (CompleteEvent d n) (events (on_end s)) ->
               In (CompleteEvent d n) (events s)) /\
  (forall t done todo, stage (on_end s) = Finalizing t done todo ->
                       stage s = Finalizing t done todo \/
                       final_walk (on_end s) t (List.map fst done ++ todo)).
Proof.
  unfold on_end. destruct (trim (buffer s)).
  - split; [apply no_complete_finish|]. discriminate.
  - cbv zeta.
    destruct (ToBoolean (Some (tryParseCompleteJSON (buffer s)))).
    + destruct (extractRecursive (tryParseCompleteJSON (buffer s)) _) as [w|e] eqn:E;
        simpl; split;
        try (intros d n H; apply in_app_or in H; destruct H as [H|H];
             [assumption|now apply no_complete_optional in H]).
      * intros t done todo [= <- <- <-]. right.
        unfold final_walk; simpl. rewrite E. now destruct w.
      * discriminate.
    + split; [|discriminate].
      intros d n H. apply no_complete_finish in H. simpl in H.
      apply in_app_or in H. destruct H as [H|H];
        [assumption|now apply no_complete_optional in H].
Qed.

Lemma transition_complete s a s' :
  transition s a s' -> complete_is_final_walk s -> complete_is_final_walk s'.
Proof.
  intros H. destruct H; intros [A B].
  - split.
    + unfold on_data; simpl. intros d n Hin.
      apply in_app_or in Hin. destruct Hin as [Hin|Hin];
        [|now apply no_complete_optional in Hin].
      destruct (A _ _ Hin) as (Hs & _). congruence.
    + unfold on_data; simpl. congruence.
  - destruct (on_end_complete s) as [A' B']. split.
    + intros d n Hin. apply A' in Hin. destruct (A _ _ Hin) as (Hs & _). congruence.
    + intros t done todo Hs. destruct (B' _ _ _ Hs) as [Hs'|Hw]; [congruence|exact Hw].
  - split.
    + simpl. intros d n Hin. destruct (A _ _ Hin) as (Hs & _). congruence.
    + simpl. intros t' done' todo' [= <- <- <-].
      specialize (B _ _ _ H). unfold final_walk in *; simpl.
      rewrite B. now rewrite map_app, <- app_assoc.
  - split; [|discriminate].
    intros d n Hin. apply no_complete_finish in Hin. simpl in Hin.
    apply in_app_or in Hin. destruct Hin as [Hin|[Hin|[]]].
    + destruct (A _ _ Hin) as (Hs & _). congruence.
    + injection Hin as <- <-. simpl.
      specialize (B _ _ _ H). rewrite app_nil_r in B. auto.
  - split; simpl.
    + intros d n Hin. exact (A _ _ Hin).
    + exact B.
  - split; simpl.
    + intros d n Hin. apply in_app_or in Hin.
      destruct Hin as [Hin|[Hin|[]]]; [exact (A _ _ Hin)|discriminate].
    + exact B.
  - split; simpl.
    + intros d n Hin. apply in_app_or in Hin.
      destruct Hin as [Hin|[Hin|[]]]; [exact (A _ _ Hin)|discriminate].
    + exact B.
Qed.

(** X11: in every run of a session, a complete event is emitted only by
    a session that resolves; its text and its images, in their order,
    are what the generic walk of [processCompleteResponse] collects from
    the value [tryParseCompleteJSON] makes of the buffer left at the
    end of the stream, whether or not an image could be saved; and it
    carries the final chunk count. *)
Theorem complete_event_is_the_final_walk (turns : list action) (s : session) :
  run start turns = Some s -> complete_is_final_walk s.
Proof.
  apply (@run_preserves complete_is_final_walk).
  - intros s0 a s' C Ht. exact (transition_complete Ht C).
  - split; [intros d n []|discriminate].
Qed.

Lemma complete_event_is_the_final_walk_witness :
  exists s,
    run start [Data (lit "{}" ++ image_object); End; Persist (Failed (lit "disk")); Finish] = Some s /\
    complete_is_final_walk s.
Proof.
  eexists. split.
  - vm_compute. reflexivity.
  - apply (@complete_event_is_the_final_walk
             [Data (lit "{}" ++ image_object); End; Persist (Failed (lit "disk")); Finish]).
    vm_compute. reflexivity.
Defined.

(** ** The batch response *)

Import Batch.

Lemma collect_without_completion es :
  no_completion es ->
  forall st,
    fold_left onChunk es st
    = {| chunks := chunks st ++ es; completeResponse := completeResponse st |}.
Proof.
  induction 1 as [|e es He _ IH]; intros st; simpl.
  - rewrite app_nil_r. now destruct st.
  - rewrite IH. destruct e; try discriminate; simpl; now rewrite <- app_assoc.
Qed.

Lemma concat_textChunks es : List.concat (textChunks es) = streamed_text es.
Proof.
  unfold textChunks, streamed_text.
  induction es as [|e es IH]; [reflexivity|].
  destruct e as [[|c content] ? ? ?| | | | |]; simpl; try exact IH.
  now rewrite IH.
Qed.

Lemma reports_have_no_text es : reports_only es -> streamed_text es = [].
Proof.
  induction 1 as [|e es He _ IH]; simpl; [reflexivity|].
  unfold streamed_text in *; simpl. rewrite IH.
  destruct e; try discriminate; reflexivity.
Qed.

Lemma reports_are_no_completion es : reports_only es -> no_completion es.
Proof.
  unfold reports_only, no_completion. apply Forall_impl.
  intros e; destruct e; simpl; congruence.
Qed.

(** X12: when a session resolves, [generateContent] answers with the
    response its callback built at the completion event, never with the
    result of [streamGenerateContent]: the text is the whole accumulated
    text, the images are the non-empty keys of the image events that
    came before the completion event (an image reported after it is not
    in the response), and [chunks] counts the events up to and including
    the completion event. *)
Theorem batch_response_is_built_at_completion (turns : list action) (s : session) :
  run start turns = Some s ->
  stage s = Resolved ->
  exists before c t i after,
    events s = before ++ CompletionEvent c t i :: after /\
    reports_only after /\
    generateContent s
    = Response {| r_text := responseText s;
                  r_images := imageChunks before;
                  r_chunks := S (List.length before) |}.
Proof.
  intros Hr Hs.
  pose proof (run_streamed_text _ Hr) as Ht.
  assert (Ho : ordered s) by (eapply run_ordered; [|exact Hr]; constructor).
  unfold ordered in Ho. rewrite Hs in Ho.
  destruct Ho as (before & i & after & He & Hb & Ha & _).
  exists before, (chunkCount s), (List.length (responseText s)), i, after.
  split; [exact He|]. split; [exact Ha|].
  unfold generateContent, collect. rewrite Hs, He.
  rewrite fold_left_app. rewrite (collect_without_completion Hb). simpl.
  rewrite (collect_without_completion (reports_are_no_completion Ha)). simpl.
  rewrite concat_textChunks. f_equal. f_equal.
  - rewrite <- Ht, He. rewrite !streamed_text_app.
    change (CompletionEvent (chunkCount s) (List.length (responseText s)) i :: after)
      with ([CompletionEvent (chunkCount s) (List.length (responseText s)) i] ++ after).
    rewrite streamed_text_app, (reports_have_no_text Ha). reflexivity.
  - unfold imageChunks. rewrite flat_map_app. simpl. now rewrite app_nil_r.
  - rewrite length_app. simpl. lia.
Qed.

Lemma batch_response_is_built_at_completion_witness :
  exists s,
    run start [Data stray_then_image; End; Settle 0 (Saved (lit "k1")); Deliver 0]
    = Some s /\
    exists before c t i after,
      events s = before ++ CompletionEvent c t i :: after /\
      reports_only after /\
      generateContent s
      = Response {| r_text := responseText s;
                    r_images := imageChunks before;
                    r_chunks := S (List.length before) |}.
Proof.
  eexists. split.
  - vm_compute. reflexivity.
  - apply (@batch_response_is_built_at_completion
             [Data stray_then_image; End; Settle 0 (Saved (lit "k1")); Deliver 0]).
    + vm_compute. reflexivity.
    + reflexivity.
Defined.

(** ** The header of a data URL *)

Import ImageHandling.

Lemma after_prefix_app p s : after_prefix p (p ++ s) = Some s.
Proof. induction p as [|x p IH]; simpl; [reflexivity|]. now rewrite N.eqb_refl. Qed.

Lemma after_prefix_Some p : forall s r, after_prefix p s = Some r -> s = p ++ r.
Proof.
  induction p as [|x p IH]; simpl; intros s r H.
  - now injection H as <-.
  - destruct s as [|y s]; [discriminate|].
    destruct (N.eqb x y) eqn:E; [|discriminate].
    apply N.eqb_eq in E. subst y. f_equal. now apply IH.
Qed.

Lemma startsWith_app p s : startsWith p (p ++ s) = true.
Proof. induction p as [|x p IH]; simpl; [reflexivity|]. now rewrite N.eqb_refl. Qed.

Lemma after_words_run w c s :
  forallb is_word w = true -> is_word c = false ->
  after_words (w ++ c :: s) = c :: s.
Proof.
  intros Hw Hc. induction w as [|x w IH]; simpl in *.
  - now rewrite Hc.
  - apply andb_true_iff in Hw. destruct Hw as [-> Hw]. now apply IH.
Qed.

Lemma after_words_split s :
  exists w, s = w ++ after_words s /\ forallb is_word w = true.
Proof.
  induction s as [|c s (w & Hs & Hw)]; simpl.
  - now exists [].
  - destruct (is_word c) eqn:E.
    + exists (c :: w). simpl. rewrite E, Hw. split; [now f_equal|reflexivity].
    + now exists [].
Qed.

(** X13: [handleImageData] strips from a string exactly the headers
    [data:image/<word>;base64,] where <word> is a non-empty run of
    letters, digits and underscores: the rest of such a string is what
    it decodes, and every other string, a data URL of another media type
    or with a subtype such as svg+xml included, is decoded as it is. *)
Theorem data_url_header_is_stripped_exactly (d : jsstring) :
  (forall w rest,
     w <> [] -> forallb is_word w = true ->
     d = lit "data:image/" ++ w ++ lit ";base64," ++ rest ->
     base64Data d = rest) /\
  (base64Data d = d \/
   exists w rest,
     w <> [] /\ forallb is_word w = true /\
     d = lit "data:image/" ++ w ++ lit ";base64," ++ rest /\
     base64Data d = rest).
Proof.
  assert (Hfwd : forall w rest,
             w <> [] -> forallb is_word w = true ->
             d = lit "data:image/" ++ w ++ lit ";base64," ++ rest ->
             base64Data d = rest).
  { intros w rest Hne Hw ->. unfold base64Data.
    change (lit "data:image/") with (lit "data:" ++ lit "image/") at 1.
    rewrite <- app_assoc, startsWith_app.
    unfold match_header. rewrite after_prefix_app.
    destruct w as [|c w]; [congruence|].
    simpl in Hw. apply andb_true_iff in Hw. destruct Hw as [Hc Hw].
    cbn [app]. rewrite Hc.
    change (lit ";base64," ++ rest) with (59%N :: lit "base64," ++ rest).
    change (c :: w ++ 59%N :: lit "base64," ++ rest)
      with ((c :: w) ++ 59%N :: lit "base64," ++ rest).
    rewrite after_words_run; [|simpl; now rewrite Hc|reflexivity].
    change (59%N :: lit "base64," ++ rest) with (lit ";base64," ++ rest).
    now rewrite after_prefix_app. }
  split; [exact Hfwd|].
  unfold base64Data.
  destruct (startsWith (lit "data:") d); [|now left].
  destruct (match_header d) as [rest|] eqn:Hm; [|now left].
  right. unfold match_header in Hm.
  destruct (after_prefix (lit "data:image/") d) as [[|c r]|] eqn:Hp; try discriminate.
  destruct (is_word c) eqn:Hc; [|discriminate].
  apply after_prefix_Some in Hp. apply after_prefix_Some in Hm.
  destruct (after_words_split (c :: r)) as (w & Hs & Hw).
  rewrite Hm in Hs.
  exists w, rest. repeat split; auto.
  - intros ->. simpl in Hs. injection Hs as ->. discriminate.
  - rewrite Hp, Hs. reflexivity.
Qed.

(** ** What the generic walk adds *)

Lemma json_induction (P : json -> Prop) :
  P JNull -> (forall b, P (JBool b)) -> (forall x, P (JNumber x)) ->
  (forall s, P (JString s)) ->
  (forall l, Forall P l -> P (JArray l)) ->
  (forall m, Forall (fun kv => P (snd kv)) m -> P (JObject m)) ->
  forall v, P v.
Proof.
  intros HN HB HX HS HA HO.
  fix IH 1. intros [|b|x|s|l|m]; [exact HN|apply HB|apply HX|apply HS| |].
  - apply HA. induction l as [|v l IHl]; constructor; [apply IH|exact IHl].
  - apply HO. induction m as [|[k v] m IHm]; constructor; [apply IH|exact IHm].
Qed.

Lemma after_walk_nothing r : after_walk r nothing_walked = r.
Proof. destruct r. unfold after_walk; simpl. now rewrite !app_nil_r. Qed.

Lemma after_nothing_walk w : after_walk nothing_walked w = w.
Proof. now destruct w. Qed.

Lemma after_walk_assoc a b c :
  after_walk (after_walk a b) c = after_walk a (after_walk b c).
Proof. unfold after_walk; simpl. now rewrite <- !app_assoc. Qed.

Lemma visit_node_frame m r :
  visit_node m r = w <- visit_node m nothing_walked ;; Ok (after_walk r w).
Proof.
  destruct r as [rt ri]. unfold visit_node, after_walk, nothing_walked.
  cbn [Get]. unfold bind, and_also.
  repeat match goal with
         | |- context [match ?x with _ => _ end] =>
             lazymatch x with
             | context [match _ with _ => _ end] => fail
             | _ => destruct x
             end
         end;
    cbn [w_text w_images app]; rewrite ?app_nil_r; reflexivity.
Qed.

Lemma walk_object_unfold m r :
  extractRecursive (JObject m) r
  = result <- visit_node m r ;; extractRecursive (JArray (List.map snd m)) result.
Proof.
  change (extractRecursive (JObject m) r)
    with (result <- visit_node m r ;;
          (fix forEach (vs : list (jsstring * json)) (result : walked)
             : completion walked :=
             match vs with
             | [] => Ok result
             | (_, x) :: vs' => result <- extractRecursive x result ;; forEach vs' result
             end) m result).
  destruct (visit_node m r) as [w|e]; [|reflexivity].
  unfold bind at 1 3. cbv beta iota.
  revert w. induction m as [|[k v] m IH]; intros w; [reflexivity|].
  change (List.map snd ((k, v) :: m)) with (v :: List.map snd m).
  change (extractRecursive (JArray (v :: List.map snd m)) w)
    with (result <- extractRecursive v w ;;
          extractRecursive (JArray (List.map snd m)) result).
  cbv beta iota. fold extractRecursive.
  destruct (extractRecursive v w) as [w'|e]; [|reflexivity].
  unfold bind. apply IH.
Qed.

Lemma walk_array_frame l :
  Forall (fun v => forall r,
              extractRecursive v r
              = w <- extractRecursive v nothing_walked ;; Ok (after_walk r w)) l ->
  forall r,
    extractRecursive (JArray l) r
    = w <- extractRecursive (JArray l) nothing_walked ;; Ok (after_walk r w).
Proof.
  induction 1 as [|v l Hv _ IH]; intros r.
  - simpl. now rewrite after_walk_nothing.
  - change (extractRecursive (JArray (v :: l)) r)
      with (result <- extractRecursive v r ;; extractRecursive (JArray l) result).
    change (extractRecursive (JArray (v :: l)) nothing_walked)
      with (result <- extractRecursive v nothing_walked ;;
            extractRecursive (JArray l) result).
    rewrite (Hv r).
    destruct (extractRecursive v nothing_walked) as [w|e]; [|reflexivity].
    unfold bind at 1 2 4. cbv beta iota.
    rewrite (IH (after_walk r w)), (IH w).
    destruct (extractRecursive (JArray l) nothing_walked) as [w'|e]; [|reflexivity].
    simpl. now rewrite after_walk_assoc.
Qed.

(** X14: what the generic walk of [processCompleteResponse] adds to its
    result does not depend on what the result holds already: walking a
    value with a result [r] throws exactly when walking it with the
    empty result throws, and otherwise returns [r] followed by the text
    and the images of that walk. *)
Theorem walk_adds_the_same_to_any_result (obj : json) (r : walked) :
  extractRecursive obj r
  = w <- extractRecursive obj nothing_walked ;; Ok (after_walk r w).
Proof.
  revert r. induction obj as [|b|x|s|l Hl|m Hm] using json_induction; intros r;
    try (simpl; now rewrite after_walk_nothing).
  - now apply walk_array_frame.
  - rewrite !walk_object_unfold.
    assert (Hv : forall r0,
               extractRecursive (JArray (List.map snd m)) r0
               = w <- extractRecursive (JArray (List.map snd m)) nothing_walked ;;
                 Ok (after_walk r0 w)).
    { apply walk_array_frame. apply Forall_map. exact Hm. }
    rewrite (visit_node_frame m r).
    destruct (visit_node m nothing_walked) as [v|e]; [|reflexivity].
    unfold bind at 1 2 4. cbv beta iota.
    rewrite (Hv (after_walk r v)), (Hv v).
    destruct (extractRecursive (JArray (List.map snd m)) nothing_walked) as [w'|e];
      [|reflexivity].
    simpl. now rewrite after_walk_assoc.
Qed.

(** ** When the generic walk throws *)

Lemma lookup_absent k m :
  existsb (fun kv => JsString.eqb (fst kv) k) m = false -> lookup k m = None.
Proof.
  induction m as [|[k' v] m IH]; simpl; [reflexivity|].
  intros H. apply orb_false_iff in H. destruct H as [-> H]. now apply IH.
Qed.

Lemma lookup_In k m v : lookup k m = Some v -> exists k', In (k', v) m.
Proof.
  induction m as [|[k' v'] m IH]; simpl; [discriminate|].
  destruct (JsString.eqb k' k).
  - intros [= ->]. exists k'. now left.
  - intros H. destruct (IH H) as [k'' Hin]. exists k''. now right.
Qed.

Lemma truthy_value_Some v j : truthy_value v = Some j -> v = Some j /\ ToBoolean v = true.
Proof.
  unfold truthy_value. destruct v as [j'|]; [|discriminate].
  destruct (ToBoolean (Some j')); [|discriminate]. now intros [= ->].
Qed.

Lemma truthy_value_falsy v : ToBoolean v = false -> truthy_value v = None.
Proof. unfold truthy_value. destruct v; [|reflexivity]. now intros ->. Qed.

Lemma Get_truthy i name : ToBoolean i = true -> exists v, Get i name = Ok v.
Proof.
  destruct i as [[|b|x|s|l|m]|]; simpl; try discriminate; intros _; eauto;
    destruct (JsString.eqb name (lit "length")); eauto;
    destruct (array_index name); eauto.
Qed.

Lemma Get_error i name e : Get i name = Throw e -> e = TypeError.
Proof.
  destruct i as [[|b|x|s|l|m]|]; simpl; try discriminate; try congruence;
    destruct (JsString.eqb name (lit "length")); try discriminate;
    destruct (array_index name); discriminate.
Qed.

Lemma ToString_array_unfold x l :
  ToString (JArray (x :: l))
  = s <- match x with JNull => Ok [] | _ => ToString x end ;;
    match l with
    | [] => Ok s
    | _ :: _ => r <- ToString (JArray l) ;; Ok (s ++ 44%N :: r)
    end.
Proof. reflexivity. Qed.

Lemma ToString_throws v :
  (printable v = true -> exists s, ToString v = Ok s) /\
  (forall e, ToString v = Throw e -> e = TypeError).
Proof.
  induction v as [|b|x|s|l Hl|m Hm] using json_induction;
    try (split; [intros _; simpl; eauto|simpl; discriminate]).
  - split; [intros _; destruct b; simpl; eauto|destruct b; simpl; discriminate].
  - induction Hl as [|x l [Hx1 Hx2] _ [IH1 IH2]].
    + split; [intros _; simpl; eauto|simpl; discriminate].
    + rewrite ToString_array_unfold. split.
      * intros Hp. simpl in Hp. apply andb_true_iff in Hp. destruct Hp as [Hpx Hpl].
        destruct (Hx1 Hpx) as [sx Hsx]. destruct (IH1 Hpl) as [sl Hsl].
        assert (Hs : exists s, match x with JNull => Ok [] | _ => ToString x end = Ok s)
          by (destruct x; eauto).
        destruct Hs as [s ->]. unfold bind at 1.
        destruct l; [eauto|]. rewrite Hsl. simpl. eauto.
      * intros e.
        assert (Hs : forall e, match x with JNull => Ok [] | _ => ToString x end = Throw e
                               -> e = TypeError)
          by (destruct x; auto; discriminate).
        destruct (match x with JNull => Ok [] | _ => ToString x end) as [s|e'];
          [|simpl; intros [= <-]; now apply Hs].
        unfold bind at 1. destruct l; [discriminate|].
        destruct (ToString (JArray (j :: l))) as [r|e'']; simpl; [discriminate|].
        intros [= <-]. now apply IH2.
  - simpl. split.
    + intros Hp. apply andb_true_iff in Hp. destruct Hp as [Hp _].
      apply negb_true_iff in Hp. rewrite (lookup_absent _ _ Hp). eauto.
    + intros e. destruct (lookup (lit "toString") m); [congruence|discriminate].
Qed.

Lemma printable_property (k : jsstring) m v :
  printable (JObject m) = true -> lookup k m = Some v -> printable v = true.
Proof.
  simpl. intros Hp Hl. apply andb_true_iff in Hp. destruct Hp as [_ Hp].
  rewrite forallb_forall in Hp. destruct (lookup_In _ _ Hl) as [k' Hin].
  exact (Hp _ Hin).
Qed.

Lemma visit_node_returns m r :
  printable (JObject m) = true -> exists w, visit_node m r = Ok w.
Proof.
  intros Hp. unfold visit_node. cbn [Get]. unfold bind at 1.
  assert (Ht : exists r', match truthy_value (lookup (lit "text") m) with
                          | Some tv =>
                              s <- ToString tv ;;
                              Ok {| w_text := w_text r ++ s; w_images := w_images r |}
                          | None => Ok r
                          end = Ok r').
  { destruct (truthy_value (lookup (lit "text") m)) as [tv|] eqn:E; [|eauto].
    apply truthy_value_Some in E. destruct E as [E _].
    destruct (proj1 (ToString_throws tv) (printable_property _ _ Hp E)) as [s ->].
    simpl. eauto. }
  destruct Ht as [r' ->]. unfold bind at 1. unfold bind at 1.
  set (i := lookup (lit "inlineData") m).
  unfold and_also at 1.
  destruct (ToBoolean i) eqn:Hi.
  - destruct (Get_truthy i (lit "data") Hi) as [d Hd].
    destruct (Get_truthy i (lit "mimeType") Hi) as [mt Hmt].
    rewrite Hd, Hmt. unfold bind at 1. unfold and_also.
    destruct (ToBoolean d) eqn:Hd'.
    + unfold bind at 1. destruct (truthy_value mt); [|eauto].
      unfold bind. destruct d; eauto.
    + unfold bind at 1. rewrite (truthy_value_falsy _ Hd'). eauto.
  - unfold bind at 1. unfold and_also. rewrite Hi. unfold bind at 1.
    rewrite (truthy_value_falsy _ Hi). eauto.
Qed.

Lemma bind_error A B (c : completion A) (k : A -> completion B) e :
  (x <- c ;; k x) = Throw e ->
  c = Throw e \/ exists a, c = Ok a /\ k a = Throw e.
Proof. destruct c as [a|e']; simpl; [eauto|intros [= <-]; now left]. Qed.

Lemma visit_node_error m r e : visit_node m r = Throw e -> e = TypeError.
Proof.
  unfold visit_node. cbn [Get]. unfold bind at 1.
  intros H. apply bind_error in H. destruct H as [H|(r' & _ & H)].
  - destruct (truthy_value (lookup (lit "text") m)) as [tv|]; [|discriminate].
    apply bind_error in H. destruct H as [H|(s & _ & H)]; [|discriminate].
    exact (proj2 (ToString_throws tv) _ H).
  - unfold bind at 1 in H.
    set (i := lookup (lit "inlineData") m) in H.
    apply bind_error in H. destruct H as [H|(d & _ & H)].
    { unfold and_also in H. destruct (ToBoolean i); [|discriminate].
      exact (Get_error _ _ H). }
    apply bind_error in H. destruct H as [H|(mt & _ & H)].
    { unfold and_also in H. destruct (ToBoolean d); [|discriminate].
      exact (Get_error _ _ H). }
    destruct (truthy_value mt); [|discriminate].
    apply bind_error in H. destruct H as [H|(dv & _ & H)].
    + exact (Get_error _ _ H).
    + destruct dv; discriminate.
Qed.

Lemma walk_array_throws l :
  Forall (fun v => forall r,
              (printable v = true -> exists w, extractRecursive v r = Ok w) /\
              (forall e, extractRecursive v r = Throw e -> e = TypeError)) l ->
  forall r,
    (printable (JArray l) = true -> exists w, extractRecursive (JArray l) r = Ok w) /\
    (forall e, extractRecursive (JArray l) r = Throw e -> e = TypeError).
Proof.
  induction 1 as [|v l Hv _ IH]; intros r.
  - split; [intros _; simpl; eauto|simpl; discriminate].
  - change (extractRecursive (JArray (v :: l)) r)
      with (result <- extractRecursive v r ;; extractRecursive (JArray l) result).
    split.
    + intros Hp. simpl in Hp. apply andb_true_iff in Hp. destruct Hp as [Hpv Hpl].
      destruct (proj1 (Hv r) Hpv) as [w ->]. unfold bind.
      exact (proj1 (IH w) Hpl).
    + intros e H. apply bind_error in H. destruct H as [H|(w & _ & H)].
      * exact (proj2 (Hv r) _ H).
      * exact (proj2 (IH w) _ H).
Qed.

Lemma walk_throws v :
  forall r,
    (printable v = true -> exists w, extractRecursive v r = Ok w) /\
    (forall e, extractRecursive v r = Throw e -> e = TypeError).
Proof.
  induction v as [|b|x|s|l Hl|m Hm] using json_induction; intros r;
    try (split; [intros _; simpl; eauto|simpl; discriminate]).
  - now apply walk_array_throws.
  - rewrite walk_object_unfold.
    assert (Hv : forall r0,
               (printable (JArray (List.map snd m)) = true ->
                exists w, extractRecursive (JArray (List.map snd m)) r0 = Ok w) /\
               (forall e, extractRecursive (JArray (List.map snd m)) r0 = Throw e ->
                          e = TypeError)).
    { apply walk_array_throws. apply Forall_map. exact Hm. }
    split.
    + intros Hp. destruct (@visit_node_returns m r Hp) as [w ->]. unfold bind.
      apply (proj1 (Hv w)). simpl in Hp |- *.
      apply andb_true_iff in Hp. destruct Hp as [_ Hp].
      clear -Hp. induction m as [|[k v] m IH]; simpl in *; [reflexivity|].
      apply andb_true_iff in Hp. destruct Hp as [-> Hp]. now apply IH.
    + intros e H. apply bind_error in H. destruct H as [H|(w & _ & H)].
      * exact (visit_node_error _ _ H).
      * exact (proj2 (Hv w) _ H).
Qed.

Lemma on_end_rejected s e :
  stage s = Streaming ->
  stage (on_end s) = RejectedWith e ->
  buffer (on_end s) = buffer s /\
  extractRecursive (tryParseCompleteJSON (buffer s)) {| w_text := []; w_images := [] |}
  = Throw e.
Proof.
  intros Hst. unfold on_end. destruct (trim (buffer s)); [discriminate|].
  cbv zeta.
  destruct (ToBoolean (Some (tryParseCompleteJSON (buffer s)))).
  - destruct (extractRecursive (tryParseCompleteJSON (buffer s)) _) as [w|e'];
      simpl; [discriminate|].
    intros [= ->]. auto.
  - discriminate.
Qed.


(** * The stream as bytes *)

Import Wire.

(** ** Decoding a buffer *)

Example decode_euro : Utf8.toString [Byte.xe2; Byte.x82; Byte.xac] = [8364%N].
Proof. reflexivity. Qed.

Example decode_astral :
  Utf8.toString [Byte.xf0; Byte.x9f; Byte.x98; Byte.x80] = [55357%N; 56832%N].
Proof. reflexivity. Qed.

Example decode_cut_short : Utf8.toString [Byte.x41; Byte.xe2; Byte.x82] = [65%N; 65533%N].
Proof. reflexivity. Qed.

Example decode_stray_continuation : Utf8.toString [Byte.xa9; Byte.x41] = [65533%N; 65%N].
Proof. reflexivity. Qed.

Example decode_broken_then_ascii :
  Utf8.toString [Byte.xe2; Byte.x82; Byte.x41] = [65533%N; 65%N].
Proof. reflexivity. Qed.

Example decode_overlong : Utf8.toString [Byte.xc0; Byte.xaf] = [65533%N; 65533%N].
Proof. reflexivity. Qed.

Example decode_surrogate :
  Utf8.toString [Byte.xed; Byte.xa0; Byte.x80] = [65533%N; 65533%N; 65533%N].
Proof. reflexivity. Qed.

Example decode_keeps_mark :
  Utf8.toString [Byte.xef; Byte.xbb; Byte.xbf; Byte.x41] = [65279%N; 65%N].
Proof. reflexivity. Qed.

Example decode_literal : Utf8.toString (wire "{'n':'1'}") = lit "{'n':'1'}".
Proof. reflexivity. Qed.









(** ** The first objects of a stream *)













(** ** Well-formed objects as bytes *)







(** * The completion event and the keys saved when it is emitted *)

Lemma finish_completion s :
  no_completion (events s) ->
  stage (finish s) = Resolved /\
  cacheKeys (finish s) = cacheKeys s /\
  exists before,
    events (finish s) = before ++ [completion_of (finish s)] /\ no_completion before.
Proof.
  intros H. split; [reflexivity|]. split; [reflexivity|].
  unfold finish, completion_of; simpl.
  eexists. rewrite app_assoc. split; [reflexivity|].
  apply no_completion_app; [assumption|].
  destruct (cacheKeys s); repeat constructor.
Qed.

Lemma on_end_completion s :
  no_completion (events s) ->
  stage s = Streaming ->
  stage (on_end s) = Resolved ->
  cacheKeys (on_end s) = cacheKeys s /\
  exists before,
    events (on_end s) = before ++ [completion_of (on_end s)] /\ no_completion before.
Proof.
  intros H Hst. unfold on_end. destruct (trim (buffer s)).
  - intros _. now apply finish_completion.
  - cbv zeta.
    destruct (ToBoolean (Some (tryParseCompleteJSON (buffer s)))).
    + destruct (extractRecursive (tryParseCompleteJSON (buffer s)) _); discriminate.
    + intros _. match goal with |- context [finish ?x] => set (s1 := x) end.
      destruct (@finish_completion s1) as (_ & Hk & Hb); [|split; [exact Hk|exact Hb]].
      subst s1; simpl. now apply no_completion_text.
Qed.

Lemma resolving_turn s a s' :
  stage s <> Resolved ->
  no_completion (events s) ->
  step s a = Some s' ->
  stage s' = Resolved ->
  (a = End \/ a = Finish) /\
  cacheKeys s' = cacheKeys s /\
  exists before,
    events s' = before ++ [completion_of s'] /\ no_completion before.
Proof.
  intros Hs Hn Hstep Hr. apply step_transition in Hstep.
  destruct Hstep; try (simpl in Hr; congruence).
  - split; [now left|]. now apply on_end_completion.
  - split; [now right|].
    match goal with |- context [finish ?x] => set (s1 := x) end.
    destruct (@finish_completion s1) as (_ & Hk & Hb); [|split; [exact Hk|exact Hb]].
    subst s1; simpl. apply no_completion_app; [assumption|repeat constructor].
Qed.

Lemma after_resolved turns :
  forall s s',
    stage s = Resolved ->
    run s turns = Some s' ->
    stage s' = Resolved /\
    exists late more,
      events s' = events s ++ late /\ reports_only late /\
      chunkCount s' = chunkCount s /\
      responseText s' = responseText s /\
      cacheKeys s' = cacheKeys s ++ more.
Proof.
  induction turns as [|a turns IH]; simpl; intros s s' Hs Hr.
  - injection Hr as <-. split; [assumption|].
    exists [], []. rewrite !app_nil_r. repeat split. constructor.
  - destruct (step s a) as [s1|] eqn:E; [|discriminate].
    apply step_transition in E.
    assert (H1 : stage s1 = Resolved /\
                 exists late more,
                   events s1 = events s ++ late /\ reports_only late /\
                   chunkCount s1 = chunkCount s /\
                   responseText s1 = responseText s /\
                   cacheKeys s1 = cacheKeys s ++ more).
    { destruct E; try congruence; simpl; (split; [assumption|]).
      - exists [], (opt_list (saved_key o)). rewrite app_nil_r.
        repeat split. constructor.
      - exists [ImageEvent k], []. rewrite app_nil_r.
        repeat split. repeat constructor.
      - exists [ErrorEvent (lit "Failed to save image: " ++ m)], []. rewrite app_nil_r.
        repeat split. repeat constructor. }
    destruct H1 as (Hs1 & late1 & more1 & He1 & Hl1 & Hc1 & Ht1 & Hk1).
    destruct (IH _ _ Hs1 Hr) as (Hs' & late & more & He & Hl & Hc & Ht & Hk).
    split; [assumption|].
    exists (late1 ++ late), (more1 ++ more).
    rewrite He, He1, Hc, Hc1, Ht, Ht1, Hk, Hk1, <- !app_assoc.
    repeat split. now apply Forall_app.
Qed.

Lemma resolved_from_run turns :
  forall s0 s,
    stage s0 <> Resolved ->
    no_completion (events s0) ->
    run s0 turns = Some s ->
    stage s = Resolved ->
    resolved_from s0 turns s.
Proof.
  induction turns as [|a turns IH]; simpl; intros s0 s Hs0 Hn Hr Hs.
  - injection Hr as <-. contradiction.
  - destruct (step s0 a) as [s1|] eqn:E; [|discriminate].
    assert (Ho : ordered s1).
    { apply (@step_ordered s0 a); [|exact E].
      unfold ordered. destruct (stage s0); auto. contradiction. }
    assert (Hcases : stage s1 = Resolved \/
                     (stage s1 <> Resolved /\ no_completion (events s1))).
    { unfold ordered in Ho. destruct (stage s1); auto;
        right; (split; [discriminate|exact Ho]). }
    destruct Hcases as [Hs1|[Hs1 Hn1]].
    + destruct (@resolving_turn s0 a s1 Hs0 Hn E Hs1) as (Ha & Hk & before & Hb & Hnb).
      destruct (@after_resolved turns s1 s Hs1 Hr) as (_ & late & more & He & Hl & Hc & Ht & Hm).
      exists [], a, turns, s0, s1, before, late, more.
      repeat split; auto.
    + destruct (IH _ _ Hs1 Hn1 Hr Hs)
        as (turns1 & a' & turns2 & s1' & s2 & before & late & more & Ht & Hr1 & H).
      exists (a :: turns1), a', turns2, s1', s2, before, late, more.
      split; [simpl; now rewrite Ht|].
      split; [simpl; now rewrite E|]. exact H.
Qed.

(** C4 (amended): in every run of a session, no completion event is
    emitted before the promise resolves.  It resolves at the end of the
    stream or at the return of the generic walk; that turn emits the
    one completion event, after everything the [data] and [end] handlers
    emitted, with the chunk count, the text length and the number of
    keys saved as they are at that turn.  It does not wait for the
    unawaited calls of [handleImageData]: their image and error events
    follow the completion event, and the keys they save are added to
    [cacheKeys] after it was counted; the chunk count and the text do
    not change any more. *)
Theorem completion_once_before_late_reports (turns : list action) (s : session) :
  run start turns = Some s ->
  ordered s /\
  (stage s = Resolved -> resolved_from start turns s).
Proof.
  intros Hr. split.
  - apply (@run_ordered turns start); [|exact Hr]. unfold ordered; simpl. constructor.
  - intros Hs. apply resolved_from_run; auto.
    + discriminate.
    + constructor.
Qed.

Lemma completion_once_before_late_reports_witness :
  exists s,
    run start [Data stray_then_image; End; Settle 0 (Saved (lit "k1")); Deliver 0]
    = Some s /\
    ordered s /\
    (stage s = Resolved ->
     resolved_from start
       [Data stray_then_image; End; Settle 0 (Saved (lit "k1")); Deliver 0] s).
Proof.
  eexists. split.
  - vm_compute. reflexivity.
  - apply (@completion_once_before_late_reports
             [Data stray_then_image; End; Settle 0 (Saved (lit "k1")); Deliver 0]).
    vm_compute. reflexivity.
Defined.

(** * Objects the extractor accepts *)

(** X3: the scanner agrees with [JSON.parse] on the text of a
    well-formed object: when the object nests at most [shallow] deep and
    the extractor returns normally on it (on a blocked object it
    throws), a call on that text, whatever follows it, surfaces the
    object with the text and the image the extractor returned and leaves
    exactly what follows, however many braces, quotes and escapes the
    strings of the object hold. *)
Theorem accepted_object_is_extracted_whole
    (t more : jsstring) (v : json) (r : extracted) :
  well_formed_object t v ->
  nesting v <= shallow ->
  extractContentFromJSON v = Ok r ->
  processStreamBuffer (t ++ more)
  = {| p_text := text r; remainingBuffer := more; spawned := image r;
       warned := None; parsedObject := Some v |}.
Proof.
  intros Hw _ Hr. destruct (well_formed_object_body Hw) as (body & Ht & Hn).
  destruct Hw as (_ & _ & Hp & _).
  assert (Hi : indexOf 123%N t = Some 0) by (rewrite Ht; reflexivity).
  assert (He : find_end t 0 = Some (S (List.length body))).
  { unfold find_end. rewrite Ht. simpl skipn.
    replace (123%N :: body ++ [125%N]) with (123%N :: body ++ 125%N :: []) by reflexivity.
    now rewrite scan_object. }
  assert (Hlen : List.length t = S (S (List.length body))).
  { rewrite Ht. simpl. rewrite length_app. simpl. lia. }
  rewrite (processStreamBuffer_found _ Hi He more).
  assert (Hsub : substring 0 (S (List.length body) + 1) t = t).
  { unfold substring. simpl skipn. rewrite firstn_all2; [reflexivity|lia]. }
  rewrite Hsub. unfold try_block, JSON_parse_or_throw. rewrite Hp. simpl bind.
  rewrite Hr. simpl bind. cbv iota. rewrite extraction_app by lia.
  rewrite skipn_all2 by lia. reflexivity.
Qed.

Lemma accepted_object_is_extracted_whole_witness :
  processStreamBuffer (hello ++ world)
  = {| p_text := lit "Hello"; remainingBuffer := world; spawned := None;
       warned := None;
       parsedObject := Some (shaped [[TextPart (lit "Hello")]]) |}.
Proof.
  apply (@accepted_object_is_extracted_whole
           hello world (shaped [[TextPart (lit "Hello")]])
           {| text := lit "Hello"; image := None |}).
  - repeat constructor; try (eexists; vm_compute; reflexivity).
  - vm_compute. repeat constructor.
  - vm_compute. reflexivity.
Defined.

(** * When the end handler rejects *)

(** X15: when the buffer left at the end of the stream is the text of a
    JSON value that nests at most [shallow] deep, the [end] handler
    rejects the session only for a TypeError that the generic walk
    throws, and only when some object of that value has a property
    named toString.  (The promise is rejected with an Error made from
    the message of what was caught; the session keeps what was caught.
    On a value that nests deeper the recursive walk can also run out of
    call stack, which this statement leaves aside.) *)
Theorem rejection_needs_a_toString_property
    (turns : list action) (s : session) (e : jserror) :
  run start turns = Some s ->
  stage s = RejectedWith e ->
  nesting (tryParseCompleteJSON (buffer s)) <= shallow ->
  e = TypeError /\ printable (tryParseCompleteJSON (buffer s)) = false.
Proof.
  intros Hr He _. revert e He.
  apply (@run_preserves
           (fun s => forall e, stage s = RejectedWith e ->
                               e = TypeError /\
                               printable (tryParseCompleteJSON (buffer s)) = false))
    with (turns := turns) (s := start); [| |exact Hr].
  - intros s0 a s' P Ht. destruct Ht; intros e He.
    + unfold on_data in He; simpl in He. congruence.
    + destruct (on_end_rejected _ H He) as (-> & Hw).
      destruct (walk_throws (tryParseCompleteJSON (buffer s0))
                  {| w_text := []; w_images := [] |}) as [Hok Herr].
      split; [exact (Herr _ Hw)|].
      destruct (printable (tryParseCompleteJSON (buffer s0))); [|reflexivity].
      destruct (Hok eq_refl) as [w Hw']. congruence.
    + simpl in He. discriminate.
    + simpl in He. discriminate.
    + exact (P e He).
    + exact (P e He).
    + exact (P e He).
  - simpl. discriminate.
Qed.

Lemma rejection_needs_a_toString_property_witness :
  exists s,
    run start [Data hostile_text; End] = Some s /\
    stage s = RejectedWith TypeError /\
    nesting (tryParseCompleteJSON (buffer s)) <= shallow /\
    TypeError = TypeError /\ printable (tryParseCompleteJSON (buffer s)) = false.
Proof.
  eexists. split; [vm_compute; reflexivity|]. split; [reflexivity|].
  split; [vm_compute; repeat constructor|].
  apply (@rejection_needs_a_toString_property [Data hostile_text; End]).
  - vm_compute. reflexivity.
  - reflexivity.
  - vm_compute. repeat constructor.
Defined.
